(** * RAG-worker: the streaming chunk pipeline

    A shallow embedding of
      - [src/services/pdf_extractor.py]  ([clean_text], [extract_and_process_pdf]),
      - [src/services/embedder.py]       ([generate_batch_embeddings]),
      - [src/services/vector_store.py]   ([store_batch_vectors]),
      - [src/pipeline/rag_pipeline.py]   ([process_document_rag],
                                          [handle_batch_processing]),
    followed by the properties of the chunker, the batch driver and the
    orchestrator.

    Python values are modelled as follows.
      - [int] is [Z]; [len] is [Z.of_nat (length _)].
      - [str] is a list of Unicode code points ([N]).  One predicate,
        [isspace], is CPython's [Py_UNICODE_ISSPACE]: it is what [str.split],
        [str.strip] and the class [\s] of [re] (on [str] patterns) all use.
      - an exception is an instance of [Exception] carrying its [str()];
        signals that only derive from [BaseException] (interpreter exit, task
        cancellation) are outside the model.
      - a coroutine is a computation over an explicit state that returns,
        raises, or runs out of fuel (the [while] loop of the chunker does not
        terminate for every configuration).
      - console output ([print]) and memory reclamation ([del],
        [gc.collect()], [list.clear()] of a list that is not read again) change
        nothing that is observed here and are left out. *)

From Stdlib Require Import Ascii String DecimalString.
From Stdlib Require Import List ZArith NArith Lia ZifyNat Bool Arith.
Import ListNotations.

Set Implicit Arguments.

(* ================================================================= *)
(** ** Python strings *)

Definition char := N.
Definition str := list char.

(** A literal of the source (all literals used here are ASCII). *)
Definition lit (s : string) : str := map N_of_ascii (list_ascii_of_string s).

(** [str(n)] for an integer. *)
Definition str_of_int (n : Z) : str := lit (NilZero.string_of_int (Z.to_int n)).

Definition LF : char := 10%N.
Definition CR : char := 13%N.
Definition SP : char := 32%N.

(** [Py_UNICODE_ISSPACE]: the code points whose bidirectional class is WS, B
    or S, or whose category is Zs. *)
Definition isspace (c : char) : bool :=
  ((9 <=? c) && (c <=? 13) || (28 <=? c) && (c <=? 32) || (c =? 133) || (c =? 160)
   || (c =? 5760) || (8192 <=? c) && (c <=? 8202) || (c =? 8232) || (c =? 8233)
   || (c =? 8239) || (c =? 8287) || (c =? 12288))%N.

(** The class [[^\S\r\n]]: white space other than CR and LF. *)
Definition hspace (c : char) : bool :=
  isspace c && negb (c =? CR)%N && negb (c =? LF)%N.

Fixpoint take_while {A} (p : A -> bool) (l : list A) : list A :=
  match l with
  | [] => []
  | x :: t => if p x then x :: take_while p t else []
  end.

Fixpoint drop_while {A} (p : A -> bool) (l : list A) : list A :=
  match l with
  | [] => []
  | x :: t => if p x then drop_while p t else l
  end.

(** [s.strip()]: white space removed at both ends. *)
Definition lstrip (s : str) : str := drop_while isspace s.
Definition rstrip (s : str) : str := rev (drop_while isspace (rev s)).
Definition strip (s : str) : str := rstrip (lstrip s).

(** [s.split()]: the maximal runs of non-space characters, in order. [cur] is
    the word being read. *)
Fixpoint split_go (cur : str) (s : str) : list str :=
  match s with
  | [] => match cur with [] => [] | _ => [cur] end
  | c :: t =>
      if isspace c
      then match cur with [] => split_go [] t | _ => cur :: split_go [] t end
      else split_go (cur ++ [c]) t
  end.

Definition split (s : str) : list str := split_go [] s.

(** [sep.join(ws)]. *)
Fixpoint join (sep : str) (ws : list str) : str :=
  match ws with
  | [] => []
  | [w] => w
  | w :: rest => w ++ sep ++ join sep rest
  end.

(** [l[lo:hi]] for integers [lo], [hi] (the adjustment of
    [PySlice_AdjustIndices] with step 1): a negative bound counts from the
    end, and both bounds are clipped to [0..len(l)]. *)
Definition slice_bound (n x : Z) : Z :=
  if (x <? 0)%Z then Z.max 0 (x + n) else Z.min x n.

Definition py_slice {A} (l : list A) (lo hi : Z) : list A :=
  let n := Z.of_nat (length l) in
  let lo' := slice_bound n lo in
  let hi' := slice_bound n hi in
  firstn (Z.to_nat (hi' - lo')) (skipn (Z.to_nat lo') l).

(* ================================================================= *)
(** ** [re.sub] for a pattern that cannot match the empty string

    [m s] is the length of the match of the pattern at the head of [s], if
    there is one.  [re.sub] scans from the left; at a match it emits the
    replacement and resumes after the match, elsewhere it copies one
    character.  [skip] counts the characters of the current match still to
    be dropped. *)

Fixpoint re_sub_go (m : str -> option nat) (repl : str) (skip : nat) (s : str) : str :=
  match s with
  | [] => []
  | c :: t =>
      match skip with
      | S k => re_sub_go m repl k t
      | O =>
          match m s with
          | Some (S k) => repl ++ re_sub_go m repl k t
          | _ => c :: re_sub_go m repl 0 t
          end
      end
  end.

Definition re_sub (m : str -> option nat) (repl : str) (s : str) : str :=
  re_sub_go m repl 0 s.

(** [[^\S\r\n]+]: the longest run of [hspace] characters, at least one. *)
Definition match_hspaces (s : str) : option nat :=
  match length (take_while hspace s) with
  | O => None
  | n => Some n
  end.

(** Position of the last LF of [w]. *)
Fixpoint last_newline (w : str) : option nat :=
  match w with
  | [] => None
  | c :: t =>
      match last_newline t with
      | Some j => Some (S j)
      | None => if (c =? LF)%N then Some O else None
      end
  end.

(** [\n\s*\n]: an LF, then the greedy [\s*] backtracks to the last LF of the
    white-space run that follows. *)
Definition match_blank_lines (s : str) : option nat :=
  match s with
  | [] => None
  | c :: t =>
      if (c =? LF)%N
      then match last_newline (take_while isspace t) with
           | Some j => Some (S (S j))
           | None => None
           end
      else None
  end.

(** [clean_text] of [services/pdf_extractor.py]. *)
Definition clean_text (text : str) : str :=
  let text := re_sub match_hspaces [SP] text in
  let text := re_sub match_blank_lines [LF] text in
  strip text.

Definition nl : string := String (ascii_of_nat 10) EmptyString.
Definition tab : string := String (ascii_of_nat 9) EmptyString.

(* ================================================================= *)
(** ** Exceptions and coroutines *)

Inductive exn : Type := Exception (msg : str).

(** [str(error)]. *)
Definition str_of_exn (e : exn) : str := match e with Exception m => m end.

Inductive outcome (A : Type) : Type :=
| Ret (a : A)      (* the call returns *)
| Raise (e : exn)  (* the call raises *)
| Diverge.         (* the fuel ran out: the call is still looping *)

Arguments Ret {A} a.
Arguments Raise {A} e.
Arguments Diverge {A}.

(** A computation over a state [St]: the state it leaves is kept when it
    raises. *)
Definition M (St A : Type) : Type := St -> outcome A * St.

Definition ret {St A} (a : A) : M St A := fun s => (Ret a, s).
Definition raise {St A} (e : exn) : M St A := fun s => (Raise e, s).
Definition diverge {St A} : M St A := fun s => (Diverge, s).

Definition bind {St A B} (m : M St A) (k : A -> M St B) : M St B :=
  fun s =>
    match m s with
    | (Ret a, s') => k a s'
    | (Raise e, s') => (Raise e, s')
    | (Diverge, s') => (Diverge, s')
    end.

Notation "x <- m ;; k" := (bind m (fun x => k))
  (at level 61, m at next level, right associativity).
Notation "m ;;; k" := (bind m (fun _ => k))
  (at level 61, right associativity).

(** [try: m  except Exception as e: h e]. *)
Definition try_except {St A} (m : M St A) (h : exn -> M St A) : M St A :=
  fun s =>
    match m s with
    | (Raise e, s') => h e s'
    | r => r
    end.

(** A collaborator call that returns a value or raises. *)
Definition call {St A} (r : exn + A) : M St A :=
  match r with
  | inl e => raise e
  | inr a => ret a
  end.

Definition len {A} (l : list A) : Z := Z.of_nat (length l).

(* ================================================================= *)
(** ** [services/pdf_extractor.py] *)

Record PageChunk : Type := {
  page_number : Z;
  chunk_index : Z;
  content : str
}.

Definition bytes := list Byte.byte.

(** A page of [pypdf]: [extract_text()] returns the text or raises. *)
Record Page : Type := { extract_text : exn + str }.

(** The [options] dictionary, read at its two keys. *)
Record Options : Type := { chunkSize : Z; overlap : Z }.

(** [for page in reader.pages: full_text += page.extract_text() + "\n"]. *)
Fixpoint extract_pages (pages : list Page) (full_text : str) : exn + str :=
  match pages with
  | [] => inr full_text
  | page :: rest =>
      match extract_text page with
      | inl e => inl e
      | inr t => extract_pages rest (full_text ++ t ++ [LF])
      end
  end.

Section Extractor.
Variable St : Type.
(** [PdfReader(io.BytesIO(buffer)).pages], or the exception of the parse. *)
Variable PdfReader : bytes -> exn + list Page.
Variable on_batch_ready : list PageChunk -> M St unit.

(** The [while i < len(words)] loop, from the state [(i, chunk_index,
    chunks)]; it returns the list [chunks] left when the loop exits.  The
    handler is given the contents of [chunks] at the call; the list is
    cleared after the handler has returned. *)
Fixpoint chunk_loop (words : list str) (chunk_size overlap : Z) (fuel : nat)
         (i chunk_index : Z) (chunks : list PageChunk) : M St (list PageChunk) :=
  match fuel with
  | O => diverge
  | S fuel' =>
      if (i <? len words)%Z then
        let content := join [SP] (py_slice words i (i + chunk_size)) in
        let chunks :=
          chunks ++ [{| page_number := 0; chunk_index := chunk_index;
                        content := content |}] in
        let chunk_index := (chunk_index + 1)%Z in
        if (len chunks >=? 5)%Z then
          on_batch_ready chunks ;;;
          chunk_loop words chunk_size overlap fuel'
                     (i + (chunk_size - overlap))%Z chunk_index []
        else
          chunk_loop words chunk_size overlap fuel'
                     (i + (chunk_size - overlap))%Z chunk_index chunks
      else ret chunks
  end.

(** [extract_and_process_pdf]; it returns [result['pageCount']].  The
    [except Exception as e: print(...); raise] around the body re-raises
    what it catches. *)
Definition extract_and_process_pdf (fuel : nat) (buffer : bytes)
           (options : Options) : M St Z :=
  try_except
    (pages <- call (PdfReader buffer) ;;
     let total_pages := len pages in
     full_text <- call (extract_pages pages []) ;;
     let cleaned_text := clean_text full_text in
     let words := split cleaned_text in
     let chunk_size := chunkSize options in
     let overlap := overlap options in
     chunks <- chunk_loop words chunk_size overlap fuel 0 0 [] ;;
     match chunks with
     | [] => ret tt
     | _ => on_batch_ready chunks
     end ;;;
     ret total_pages)
    (fun e => raise e).
End Extractor.

(* ================================================================= *)
(** ** [services/embedder.py], [services/vector_store.py],
       [pipeline/rag_pipeline.py] *)

Section Pipeline.
(** The JSON value found under the key ['embedding'] of an item of the
    provider's response; the pipeline passes it on and never inspects it. *)
Variable Embedding : Type.

Record EmbeddingResult : Type := { embedding : Embedding }.

Record VectorChunk : Type := {
  vc_document_id : str;
  vc_user_id : str;
  vc_chat_id : str;
  vc_page_number : Z;
  vc_chunk_index : Z;
  vc_content : str;
  vc_embedding : Embedding
}.

(** A row of the table [document_chunks]. *)
Record Row : Type := {
  row_document_id : str;
  row_user_id : str;
  row_chat_id : str;
  row_page_number : Z;
  row_chunk_index : Z;
  row_content : str;
  row_embedding : Embedding
}.

(** What the run does to the outside: every request sent to the embedding
    provider, every bulk insert issued, and the rows of the table. *)
Record World : Type := {
  embed_requests : list (list str);
  insert_requests : list (list Row);
  document_chunks : list Row
}.

(** The HTTP response of the provider.  [json_data] is what the embedders
    read of the body: the items that iterating [response.json()['data']]
    yields, in order (the elements of a list, the keys of a dict, the
    characters of a string), and [None] when the body is not JSON, when it
    cannot be subscripted with ['data'], or when [data['data']] cannot be
    iterated; an item is given as its ['embedding'], [None] when
    [item['embedding']] raises.  [json_view] below computes it from a
    decoded body. *)
Record Response : Type := {
  ok : bool;
  status_code : Z;
  text : str;
  json_data : option (list (option Embedding))
}.

(** The collaborators.  An answer may depend on everything done so far.
      - [storage_download]: [supabase_admin.storage.from_(..).download(path)],
        which returns bytes or [None], or raises;
      - [requests_post]: the POST to the Jina endpoint with [input = texts]
        and [timeout=60], as [generate_batch_embeddings] sends it;
      - [table_insert]: [table('document_chunks').insert(rows).execute()],
        which raises or returns a response whose [error] is [Some _] when
        present and truthy.  The insert is one statement: the rows are in
        the table exactly when it reports no error. *)
Record Env : Type := {
  storage_download : str -> exn + option bytes;
  pdf_reader : bytes -> exn + list Page;
  requests_post : World -> list str -> exn + Response;
  table_insert : World -> list Row -> exn + option str
}.

Variable env : Env.

Definition log_embed_request (texts : list str) : M World unit :=
  fun w => (Ret tt, {| embed_requests := embed_requests w ++ [texts];
                       insert_requests := insert_requests w;
                       document_chunks := document_chunks w |}).

Definition log_insert_request (rows : list Row) : M World unit :=
  fun w => (Ret tt, {| embed_requests := embed_requests w;
                       insert_requests := insert_requests w ++ [rows];
                       document_chunks := document_chunks w |}).

Definition commit_rows (rows : list Row) : M World unit :=
  fun w => (Ret tt, {| embed_requests := embed_requests w;
                       insert_requests := insert_requests w;
                       document_chunks := document_chunks w ++ rows |}).

(** [[EmbeddingResult(embedding=item['embedding']) for item in data['data']]]. *)
Fixpoint embedding_results (items : list (option Embedding))
  : exn + list EmbeddingResult :=
  match items with
  | [] => inr []
  | None :: _ => inl (Exception (lit "'embedding'"))
  | Some e :: rest =>
      match embedding_results rest with
      | inl x => inl x
      | inr rs => inr ({| embedding := e |} :: rs)
      end
  end.

(** [generate_batch_embeddings]. *)
Definition generate_batch_embeddings (texts : list str)
  : M World (list EmbeddingResult) :=
  match texts with
  | [] => ret []
  | _ =>
      try_except
        (fun w =>
           (response <- (log_embed_request texts ;;;
                         call (requests_post env w texts)) ;;
            if negb (ok response)
            then raise (Exception (lit "Jina API error: "
                                     ++ str_of_int (status_code response)
                                     ++ lit " - " ++ text response))
            else
              match json_data response with
              | None => raise (Exception (lit "'data'"))
              | Some items => call (embedding_results items)
              end) w)
        (fun _ => raise (Exception (lit "Batch embedding failed")))
  end.

Definition row_of (chunk : VectorChunk) : Row :=
  {| row_document_id := vc_document_id chunk;
     row_user_id := vc_user_id chunk;
     row_chat_id := vc_chat_id chunk;
     row_page_number := vc_page_number chunk;
     row_chunk_index := vc_chunk_index chunk;
     row_content := vc_content chunk;
     row_embedding := vc_embedding chunk |}.

(** [store_batch_vectors]. *)
Definition store_batch_vectors (chunks : list VectorChunk) : M World unit :=
  match chunks with
  | [] => ret tt
  | _ =>
      try_except
        (let rows := map row_of chunks in
         fun w =>
           (response_error <- (log_insert_request rows ;;;
                               call (table_insert env w rows)) ;;
            match response_error with
            | Some _ => raise (Exception (lit "Failed to store vectors"))
            | None => commit_rows rows
            end) w)
        (fun _ => raise (Exception (lit "Failed to store vectors")))
  end.

(** The comprehension over [enumerate(chunks)] that reads
    [embeddings[idx].embedding]; an index past the end raises
    [IndexError]. *)
Fixpoint vector_chunks_from (document_id user_id chat_id : str) (idx : nat)
         (chunks : list PageChunk) (embeddings : list EmbeddingResult)
  : exn + list VectorChunk :=
  match chunks with
  | [] => inr []
  | chunk :: rest =>
      match nth_error embeddings idx with
      | None => inl (Exception (lit "list index out of range"))
      | Some r =>
          match vector_chunks_from document_id user_id chat_id (S idx) rest embeddings with
          | inl x => inl x
          | inr vs =>
              inr ({| vc_document_id := document_id;
                      vc_user_id := user_id;
                      vc_chat_id := chat_id;
                      vc_page_number := page_number chunk;
                      vc_chunk_index := chunk_index chunk;
                      vc_content := content chunk;
                      vc_embedding := embedding r |} :: vs)
          end
      end
  end.

(** [handle_batch_processing]: embed, then store. *)
Definition handle_batch_processing (chunks : list PageChunk)
           (document_id user_id chat_id : str) : M World unit :=
  try_except
    (let texts := map content chunks in
     embeddings <- generate_batch_embeddings texts ;;
     vector_chunks <-
       call (vector_chunks_from document_id user_id chat_id 0 chunks embeddings) ;;
     store_batch_vectors vector_chunks)
    (fun error => raise error).

Record PipelineResult : Type := {
  success : bool;
  page_count : Z;
  total_chunks : Z;
  error : option str
}.

(** The variables of [process_document_rag] that its closure
    [handle_batch] shares with it. *)
Record Frame : Type := {
  world : World;
  total_chunks_processed : Z
}.

(** [if not response]: [None] or empty bytes. *)
Definition falsy (response : option bytes) : bool :=
  match response with
  | None => true
  | Some [] => true
  | Some _ => false
  end.

Definition payload (response : option bytes) : bytes :=
  match response with
  | None => []
  | Some b => b
  end.

Section Run.
Variables document_id user_id chat_id storage_path : str.

(** The closure [handle_batch]. *)
Definition handle_batch (chunks : list PageChunk) : M Frame unit :=
  fun st =>
    match handle_batch_processing chunks document_id user_id chat_id (world st) with
    | (Ret _, w) =>
        (Ret tt, {| world := w;
                    total_chunks_processed :=
                      (total_chunks_processed st + len chunks)%Z |})
    | (Raise e, w) =>
        (Raise e, {| world := w;
                     total_chunks_processed := total_chunks_processed st |})
    | (Diverge, w) =>
        (Diverge, {| world := w;
                     total_chunks_processed := total_chunks_processed st |})
    end.

(** The body of the [try] of [process_document_rag]. *)
Definition process_document_body (fuel : nat) : M Frame PipelineResult :=
  response <- call (storage_download env storage_path) ;;
  if falsy response
  then raise (Exception (lit "Download failed: No data returned"))
  else
    let buffer := payload response in
    result <- extract_and_process_pdf (pdf_reader env) handle_batch fuel buffer
                {| chunkSize := 250; overlap := 30 |} ;;
    fun st =>
      (Ret {| success := true;
              page_count := result;
              total_chunks := total_chunks_processed st;
              error := None |}, st).

(** [process_document_rag]: the result it returns, [None] while it is
    still running when the fuel is spent, and the world it leaves. *)
Definition process_document_rag (fuel : nat) (w : World)
  : option PipelineResult * World :=
  match process_document_body fuel {| world := w; total_chunks_processed := 0 |} with
  | (Ret r, st) => (Some r, world st)
  | (Raise error, st) =>
      (Some {| success := false;
               page_count := 0;
               total_chunks := 0;
               error := Some (str_of_exn error) |}, world st)
  | (Diverge, st) => (None, world st)
  end.
End Run.
End Pipeline.

(* ================================================================= *)
(** ** Notions used in the statements and proofs *)

(** Normal forms of the two substitutions of [clean_text]. *)
Definition head_hspace (s : str) : bool :=
  match s with
  | [] => false
  | c :: _ => hspace c
  end.

(** Every [hspace] character is a space that no [hspace] character follows. *)
Fixpoint single_spaced (s : str) : bool :=
  match s with
  | [] => true
  | c :: t =>
      (if hspace c then (c =? SP)%N && negb (head_hspace t) else true)
      && single_spaced t
  end.

(** [\n\s*\n] matches nowhere. *)
Fixpoint no_blank_lines (s : str) : bool :=
  match s with
  | [] => true
  | _ :: t =>
      match match_blank_lines s with
      | None => no_blank_lines t
      | Some _ => false
      end
  end.

(** The ceiling of [a / b], for [b > 0]. *)
Definition ceil_div (a b : Z) : Z := ((a + b - 1) / b)%Z.

(** The number of passes through the loop from cursor [i]. *)
Definition passes (words : list str) (step i : Z) : nat :=
  Z.to_nat (ceil_div (len words - i) step).

(** The chunk the loop builds at cursor [i] with index [idx]. *)
Definition chunk_at (words : list str) (chunk_size i idx : Z) : PageChunk :=
  {| page_number := 0; chunk_index := idx;
     content := join [SP] (py_slice words i (i + chunk_size)) |}.

(** The [n] chunks built from cursor [i] on, the cursor moving by [step]. *)
Fixpoint windows (words : list str) (chunk_size step : Z) (n : nat) (i idx : Z)
  : list PageChunk :=
  match n with
  | O => []
  | S n' =>
      chunk_at words chunk_size i idx
      :: windows words chunk_size step n' (i + step) (idx + 1)
  end.

(** The batches cut from the chunks [l] when [buf] is already in the list
    [chunks]: a batch leaves as soon as it holds 5 chunks, what is left at
    the end leaves last. *)
Fixpoint batches {A} (buf : list A) (l : list A) : list (list A) :=
  match l with
  | [] => match buf with [] => [] | _ => [buf] end
  | c :: rest =>
      if (len (buf ++ [c]) >=? 5)%Z
      then (buf ++ [c]) :: batches [] rest
      else batches (buf ++ [c]) rest
  end.

(** The handler called on each batch in turn, up to the first call that does
    not return. *)
Fixpoint run_batches {St} (h : list PageChunk -> M St unit)
         (bs : list (list PageChunk)) : M St unit :=
  match bs with
  | [] => ret tt
  | b :: rest => h b ;;; run_batches h rest
  end.

(** The handler that records the batches it is given, in order. *)
Definition record_batch (chunks : list PageChunk)
  : M (list (list PageChunk)) unit :=
  fun log => (Ret tt, log ++ [chunks]).

(** The tokens of a chunk. *)
Definition tokens (c : PageChunk) : list str := split (content c).

Definition last_tokens {A} (k : Z) (l : list A) : list A :=
  skipn (length l - Z.to_nat k) l.

Definition first_tokens {A} (k : Z) (l : list A) : list A :=
  firstn (Z.to_nat k) l.

(** The number of chunks as the specification states it:
    [ceil(max(M - K, 0) / (N - K))] when [M > 0], and 0 when [M = 0]. *)
Definition stated_chunk_count (M N K : Z) : Z :=
  if (M =? 0)%Z then 0%Z else ceil_div (Z.max (M - K) 0) (N - K).

(** The overlap property as the specification states it: adjacent chunks
    share [K] tokens, except possibly at the final chunk when it is shorter
    than [N]. *)
Definition stated_overlap (N K : Z) (chunks : list PageChunk) : Prop :=
  forall j c c',
    nth_error chunks j = Some c ->
    nth_error chunks (S j) = Some c' ->
    (S (S j) = length chunks /\ (len (tokens c') < N)%Z)
    \/ last_tokens K (tokens c) = first_tokens K (tokens c').

(** A reader for a PDF of one page with the given text. *)
Definition one_page_reader (text : str) : bytes -> exn + list Page :=
  fun _ => inr [{| extract_text := inr text |}].

(** The batches of a document with the window of [process_document_rag]. *)
Definition document_batches (full_text : str) : list (list PageChunk) :=
  let words := split (clean_text full_text) in
  batches [] (windows words 250 (250 - 30) (passes words (250 - 30) 0) 0 0).

(** The result of a failed run. *)
Definition failed (e : exn) : PipelineResult :=
  {| success := false; page_count := 0; total_chunks := 0;
     error := Some (str_of_exn e) |}.

(** [stage_failure env .. w e w']: in a run started in the world [w], a stage
    raises [e], and [w'] is the world at that moment.  The stages are the
    download (which raises, or returns nothing), the parse of the PDF, the
    extraction of a page, and the handler on one batch after it has returned
    on all the batches before. *)
Inductive stage_failure {Embedding} (env : Env Embedding)
          (document_id user_id chat_id storage_path : str) (w : World Embedding)
  : exn -> World Embedding -> Prop :=
| download_raises e :
    storage_download env storage_path = inl e ->
    stage_failure env document_id user_id chat_id storage_path w e w
| download_empty response :
    storage_download env storage_path = inr response ->
    falsy response = true ->
    stage_failure env document_id user_id chat_id storage_path w
                  (Exception (lit "Download failed: No data returned")) w
| reader_raises response e :
    storage_download env storage_path = inr response ->
    falsy response = false ->
    pdf_reader env (payload response) = inl e ->
    stage_failure env document_id user_id chat_id storage_path w e w
| page_raises response pages e :
    storage_download env storage_path = inr response ->
    falsy response = false ->
    pdf_reader env (payload response) = inr pages ->
    extract_pages pages [] = inl e ->
    stage_failure env document_id user_id chat_id storage_path w e w
| batch_raises response pages full_text pre b post st1 e st2 :
    storage_download env storage_path = inr response ->
    falsy response = false ->
    pdf_reader env (payload response) = inr pages ->
    extract_pages pages [] = inr full_text ->
    document_batches full_text = pre ++ b :: post ->
    run_batches (handle_batch env document_id user_id chat_id) pre
                {| world := w; total_chunks_processed := 0 |} = (Ret tt, st1) ->
    handle_batch env document_id user_id chat_id b st1 = (Raise e, st2) ->
    stage_failure env document_id user_id chat_id storage_path w e (world st2).

(** A token: not empty, and free of white space. *)
Definition word_ok (w : str) : Prop :=
  w <> [] /\ forallb (fun c => negb (isspace c)) w = true.

(** The chunks handed to the handler, in order, in a run of the extractor
    that records its batches. *)
Definition delivered_chunks (reader : bytes -> exn + list Page) (fuel : nat)
           (buffer : bytes) (N K : Z) : list PageChunk :=
  concat (snd (extract_and_process_pdf reader record_batch fuel buffer
                 {| chunkSize := N; overlap := K |} [])).

(* ================================================================= *)
(** ** Concrete runs used in the examples *)

(** A text of [n] words. *)
Definition text_of_words (n : nat) : str := join [SP] (repeat (lit "w") n).

Definition pdf_bytes : bytes := [Byte.x25; Byte.x50; Byte.x44; Byte.x46].

Definition vec : Type := list Z.

Definition empty_world : World vec :=
  {| embed_requests := []; insert_requests := []; document_chunks := [] |}.

(** A provider response with the given items. *)
Definition response_of (items : list (option vec)) : Response vec :=
  {| ok := true; status_code := 200; text := []; json_data := Some items |}.

(** Providers: one vector per text; one vector too many; one too few; a
    provider that answers its first request and is unreachable afterwards. *)
Definition answer_all (w : World vec) (texts : list str) : exn + Response vec :=
  inr (response_of (map (fun _ => Some [1; 2; 3]%Z) texts)).

Definition answer_surplus (w : World vec) (texts : list str) : exn + Response vec :=
  inr (response_of (Some [0]%Z :: map (fun _ => Some [1; 2; 3]%Z) texts)).

Definition answer_short (w : World vec) (texts : list str) : exn + Response vec :=
  inr (response_of (removelast (map (fun _ => Some [1; 2; 3]%Z) texts))).

Definition answer_once (w : World vec) (texts : list str) : exn + Response vec :=
  match embed_requests w with
  | [] => answer_all w texts
  | _ => inl (Exception (lit "connection reset"))
  end.

(** An environment whose PDF has one page with the given text and whose
    inserts succeed. *)
Definition demo_env (download : exn + option bytes) (page_text : str)
           (post : World vec -> list str -> exn + Response vec) : Env vec :=
  {| storage_download := fun _ => download;
     pdf_reader := one_page_reader page_text;
     requests_post := post;
     table_insert := fun _ _ => inr None |}.

Definition doc_id : str := lit "doc-1".
Definition usr_id : str := lit "user-1".
Definition cht_id : str := lit "chat-1".
Definition pdf_path : str := lit "user-1/doc-1.pdf".

(** A run whose provider is unreachable; a run whose download is empty; a
    run whose single page holds only white space; and a run over 1101 words
    (six chunks, two batches) whose provider answers the first batch only. *)
Definition env_unreachable : Env vec :=
  demo_env (inr (Some pdf_bytes)) (lit "hello world")
           (fun _ _ => inl (Exception (lit "connection reset"))).

Definition env_no_download : Env vec := demo_env (inr None) [] answer_all.

Definition env_blank_page : Env vec :=
  demo_env (inr (Some pdf_bytes)) (lit "   ") answer_all.

Definition env_second_batch_fails : Env vec :=
  demo_env (inr (Some pdf_bytes)) (text_of_words 1101) answer_once.


(* ================================================================= *)
(** ** Further notions used in the statements *)

(** The word being read, closed when a space or the end is met. *)
Definition flush (cur : str) : list str :=
  match cur with
  | [] => []
  | _ => [cur]
  end.

Fixpoint str_eqb (a b : str) : bool :=
  match a, b with
  | [], [] => true
  | x :: a', y :: b' => (x =? y)%N && str_eqb a' b'
  | _, _ => false
  end.

(* ================================================================= *)
(** ** The body of the provider's answer *)

Section Json.
(** A Python [int] or [float]. *)
Variable Number : Type.

(** What [response.json()] returns: [None], a [bool], a number, a [str], a
    [list], or a [dict], whose keys are strings and are distinct. *)
#[local] Unset Elimination Schemes.
Inductive json : Type :=
| JNull
| JBool (b : bool)
| JNumber (x : Number)
| JString (s : str)
| JArray (items : list json)
| JObject (fields : list (str * json)).
#[local] Set Elimination Schemes.

Fixpoint lookup (key : str) (fields : list (str * json)) : option json :=
  match fields with
  | [] => None
  | (k, v) :: rest => if str_eqb k key then Some v else lookup key rest
  end.

(** [v[key]] for a string [key], [None] when it raises: [KeyError] on a
    dict without the key, [TypeError] on everything that is not a dict. *)
Definition getitem (v : json) (key : str) : option json :=
  match v with
  | JObject fields => lookup key fields
  | _ => None
  end.

(** [v[0]], [None] when it raises: [IndexError] on an empty list or string,
    [KeyError] on a dict (its keys are strings), [TypeError] otherwise. *)
Definition getitem_0 (v : json) : option json :=
  match v with
  | JArray (item :: _) => Some item
  | JString (c :: _) => Some (JString [c])
  | _ => None
  end.

(** [for item in v]: the elements of a list, the keys of a dict, the
    characters of a string; [None] when [v] cannot be iterated. *)
Definition iterate (v : json) : option (list json) :=
  match v with
  | JArray items => Some items
  | JObject fields => Some (map (fun kv => JString (fst kv)) fields)
  | JString s => Some (map (fun c => JString [c]) s)
  | _ => None
  end.

(** [json_data] for a decoded body; [None] is a body that is not JSON. *)
Definition json_view (body : option json) : option (list (option json)) :=
  match body with
  | None => None
  | Some data =>
      match getitem data (lit "data") with
      | None => None
      | Some d =>
          match iterate d with
          | None => None
          | Some items =>
              Some (map (fun item => getitem item (lit "embedding")) items)
          end
      end
  end.

(** The response with the given status, text and decoded body; [ok] is
    false exactly for the statuses 400 to 599. *)
Definition http_response (status : Z) (body_text : str) (body : option json)
  : Response json :=
  {| ok := negb ((400 <=? status)%Z && (status <? 600)%Z);
     status_code := status; text := body_text;
     json_data := json_view body |}.

(** An item of a list that gives [o] at ['embedding']. *)
Definition item_of (o : option json) : json :=
  match o with
  | Some e => JObject [(lit "embedding", e)]
  | None => JNull
  end.

(** A body whose view is [view]. *)
Definition body_of (view : option (list (option json))) : option json :=
  match view with
  | None => None
  | Some items => Some (JObject [(lit "data", JArray (map item_of items))])
  end.
End Json.

Arguments JNull {Number}.
Arguments JBool {Number} b.
Arguments JString {Number} s.

(* ================================================================= *)
(** ** [services/embedder.py], [services/vector_store.py]: the other
       functions *)

Section Services.
Variable Embedding : Type.
Variable env : Env Embedding.
(** The POST of [generate_embedding]: the request of [requests_post], sent
    with [timeout=30] where the batch embedder sends it with
    [timeout=60]. *)
Variable requests_post_30 : World Embedding -> list str -> exn + Response Embedding.

(** [generate_embedding]: one text ([text_] is the parameter [text]), the
    first item of the answer: [data['data'][0]['embedding']]. *)
Definition generate_embedding (text_ : str)
  : M (World Embedding) (EmbeddingResult Embedding) :=
  try_except
    (fun w =>
       (response <- (log_embed_request [text_] ;;;
                     call (requests_post_30 w [text_])) ;;
        if negb (ok response)
        then raise (Exception (lit "Jina API error: "
                                 ++ str_of_int (status_code response)
                                 ++ lit " - " ++ text response))
        else
          match json_data response with
          | None => raise (Exception (lit "'data'"))
          | Some [] => raise (Exception (lit "list index out of range"))
          | Some (None :: _) => raise (Exception (lit "'embedding'"))
          | Some (Some e :: _) => ret {| embedding := e |}
          end) w)
    (fun _ => raise (Exception (lit "Embedding generation failed"))).

(** The rows of the table without those of a document. *)
Definition remove_rows (document_id : str) : M (World Embedding) unit :=
  fun w =>
    (Ret tt,
     {| embed_requests := embed_requests w;
        insert_requests := insert_requests w;
        document_chunks :=
          filter (fun r => negb (str_eqb (row_document_id r) document_id))
                 (document_chunks w) |}).

(** [delete_document_vectors].  [table_delete] is
    [table('document_chunks').delete().eq('document_id', id).execute()]: it
    raises, or returns a response whose [error] is [Some _] when present
    and truthy; the delete is one statement, and the rows of the document
    are gone exactly when it reports no error. *)
Definition delete_document_vectors
           (table_delete : World Embedding -> str -> exn + option str)
           (document_id : str) : M (World Embedding) unit :=
  try_except
    (fun w =>
       (response_error <- call (table_delete w document_id) ;;
        match response_error with
        | Some _ => raise (Exception (lit "Failed to delete vectors"))
        | None => remove_rows document_id
        end) w)
    (fun _ => raise (Exception (lit "Failed to delete vectors"))).

(** The row stored for a chunk and the embedding at its position. *)
Definition row_for (document_id user_id chat_id : str)
           (chunk : PageChunk) (e : Embedding) : Row Embedding :=
  {| row_document_id := document_id;
     row_user_id := user_id;
     row_chat_id := chat_id;
     row_page_number := page_number chunk;
     row_chunk_index := chunk_index chunk;
     row_content := content chunk;
     row_embedding := e |}.

(** The rows of a batch: each chunk with the embedding at the same
    position. *)
Definition rows_of_batch (document_id user_id chat_id : str)
           (chunks : list PageChunk) (es : list Embedding) : list (Row Embedding) :=
  map (fun p => row_for document_id user_id chat_id (fst p) (snd p))
      (combine chunks es).

(** The three messages a batch can fail with. *)
Definition batch_error (e : exn) : Prop :=
  e = Exception (lit "Batch embedding failed")
  \/ e = Exception (lit "list index out of range")
  \/ e = Exception (lit "Failed to store vectors").
End Services.

(** The world after a request to the provider, and after a bulk insert
    that stored its rows. *)
Definition with_request {Embedding} (texts : list str) (w : World Embedding)
  : World Embedding :=
  {| embed_requests := embed_requests w ++ [texts];
     insert_requests := insert_requests w;
     document_chunks := document_chunks w |}.

Definition with_insert {Embedding} (stored : bool) (rows : list (Row Embedding))
           (w : World Embedding) : World Embedding :=
  {| embed_requests := embed_requests w;
     insert_requests := insert_requests w ++ [rows];
     document_chunks :=
       if stored then document_chunks w ++ rows else document_chunks w |}.

(** A row written for a document: it carries the identifiers of the run
    and page 0. *)
Definition row_tagged {Embedding} (document_id user_id chat_id : str)
           (r : Row Embedding) : Prop :=
  row_document_id r = document_id
  /\ row_user_id r = user_id
  /\ row_chat_id r = chat_id
  /\ row_page_number r = 0%Z.

(** [w'] is [w] after some requests, inserts and rows were added at the end:
    nothing of [w] was removed or changed. *)
Definition extends {Embedding} (document_id user_id chat_id : str)
           (w w' : World Embedding) : Prop :=
  exists reqs ins rows,
    embed_requests w' = embed_requests w ++ reqs
    /\ insert_requests w' = insert_requests w ++ ins
    /\ document_chunks w' = document_chunks w ++ rows
    /\ Forall (row_tagged document_id user_id chat_id) rows
    /\ (length ins <= length reqs)%nat
    /\ (length rows <= 5 * length ins)%nat.

(* ================================================================= *)
(** ** [models/document.py] and [main.py] *)

Section Service.
Variable Embedding : Type.
(** A [bson.ObjectId], a [datetime], a document as MongoDB returns it, and a
    validated [Document]. *)
Variables ObjectId Time RawDoc Document : Type.

(** The values of an update dictionary. *)
Inductive value : Type :=
| VStr (s : str)
| VInt (n : Z)
| VTime (t : Time).

(** A [dict] with string keys, in insertion order. *)
Definition dict : Type := list (str * value).

Fixpoint dict_get (k : str) (d : dict) : option value :=
  match d with
  | [] => None
  | (k', v) :: rest => if str_eqb k' k then Some v else dict_get k rest
  end.

(** [d[k] = v]: the value of a key already there is replaced in place, a new
    key goes at the end. *)
Fixpoint dict_set (k : str) (v : value) (d : dict) : dict :=
  match d with
  | [] => [(k, v)]
  | (k', v') :: rest =>
      if str_eqb k' k then (k', v) :: rest else (k', v') :: dict_set k v rest
  end.

(** The state of the service: the world of the pipeline, and every update
    sent to the collection [documents]. *)
Record Service : Type := {
  rag : World Embedding;
  status_updates : list (ObjectId * dict)
}.

(** The collection and the libraries around it.
      - [make_object_id]: [ObjectId(document_id)], which raises on a string
        that is not an object id;
      - [utcnow]: [datetime.utcnow()];
      - [find_one_and_update]: the call of that name with the filter
        [{"_id": oid}] and the update [{"$set": update}]; it returns the
        document, or [None] (also for an empty document), or raises;
      - [parse_document]: the constructor [Document] on the fields of
        [result], which raises when the document does not validate. *)
Record Store : Type := {
  make_object_id : str -> exn + ObjectId;
  utcnow : Service -> Time;
  find_one_and_update : Service -> ObjectId -> dict -> exn + option RawDoc;
  parse_document : RawDoc -> exn + Document
}.

Definition log_status_update (oid : ObjectId) (update : dict) : M Service unit :=
  fun s => (Ret tt, {| rag := rag s;
                       status_updates := status_updates s ++ [(oid, update)] |}).

(** [DocumentModel.find_by_id_and_update]. *)
Definition find_by_id_and_update (store : Store) (document_id : str)
           (update_data : dict) : M Service (option Document) :=
  try_except
    (fun s =>
       (oid <- call (make_object_id store document_id) ;;
        let update :=
          dict_set (lit "updatedAt") (VTime (utcnow store s)) update_data in
        result <- (log_status_update oid update ;;;
                   call (find_one_and_update store s oid update)) ;;
        match result with
        | Some raw => doc <- call (parse_document store raw) ;; ret (Some doc)
        | None => ret None
        end) s)
    (fun _ => ret None).

Record ProcessRequest : Type := {
  documentId : str;
  userId : str;
  chatId : str;
  storagePath : str;
  fileName : str
}.

Record ProcessResponse : Type := {
  resp_success : bool;
  pageCount : Z;
  totalChunks : Z;
  resp_error : option str
}.

Variable env : Env Embedding.

(** [document_model.find_by_id_and_update(..)] on the global
    [document_model], which is [None] until the service has started. *)
Definition model_update (document_model : option Store) (document_id : str)
           (update_data : dict) : M Service (option Document) :=
  match document_model with
  | None =>
      raise (Exception
               (lit "'NoneType' object has no attribute 'find_by_id_and_update'"))
  | Some store => find_by_id_and_update store document_id update_data
  end.

(** [await process_document_rag(..)] in the state of the service. *)
Definition run_pipeline (request : ProcessRequest) (fuel : nat)
  : M Service PipelineResult :=
  fun s =>
    match process_document_rag env (documentId request) (userId request)
                               (chatId request) (storagePath request)
                               fuel (rag s) with
    | (Some r, w) =>
        (Ret r, {| rag := w; status_updates := status_updates s |})
    | (None, w) =>
        (Diverge, {| rag := w; status_updates := status_updates s |})
    end.

(** [result.error or "RAG processing failed"]. *)
Definition error_or_default (err : option str) : str :=
  match err with
  | Some (c :: m) => c :: m
  | _ => lit "RAG processing failed"
  end.

(** [process_document], the handler of [POST /process]. *)
Definition process_document (document_model : option Store)
           (request : ProcessRequest) (fuel : nat) : M Service ProcessResponse :=
  let document_id := documentId request in
  try_except
    (model_update document_model document_id
                  [(lit "status", VStr (lit "processing"))] ;;;
     result <- run_pipeline request fuel ;;
     if negb (success result)
     then raise (Exception (error_or_default (error result)))
     else
       model_update document_model document_id
                    [(lit "status", VStr (lit "processed"));
                     (lit "pageCount", VInt (page_count result))] ;;;
       ret {| resp_success := true;
              pageCount := page_count result;
              totalChunks := total_chunks result;
              resp_error := None |})
    (fun e =>
       let error_msg := str_of_exn e in
       model_update document_model document_id
                    [(lit "status", VStr (lit "failed"))] ;;;
       ret {| resp_success := false;
              pageCount := 0;
              totalChunks := 0;
              resp_error := Some error_msg |}).
End Service.

Arguments VStr {Time} s.
Arguments VInt {Time} n.

(** The state of the service after [find_by_id_and_update]: one more
    update in the log when the id is an object id, nothing otherwise. *)
Definition after_update {Embedding ObjectId Time RawDoc Document}
           (store : Store Embedding ObjectId Time RawDoc Document)
           (document_id : str) (update_data : dict Time)
           (s : Service Embedding ObjectId Time)
  : Service Embedding ObjectId Time :=
  match make_object_id store document_id with
  | inl _ => s
  | inr oid =>
      {| rag := rag s;
         status_updates :=
           status_updates s
           ++ [(oid, dict_set (lit "updatedAt") (VTime (utcnow store s)) update_data)] |}
  end.

(* ================================================================= *)
(** ** [config/db.py] *)

Definition SLASH : char := 47%N.
Definition QUESTION : char := 63%N.

(** [s.split(sep)] for a separator of one character: every occurrence
    cuts, and empty pieces are kept. *)
Fixpoint split_on_go (sep : char) (cur : str) (s : str) : list str :=
  match s with
  | [] => [cur]
  | c :: t =>
      if (c =? sep)%N
      then cur :: split_on_go sep [] t
      else split_on_go sep (cur ++ [c]) t
  end.

Definition split_on (sep : char) (s : str) : list str := split_on_go sep [] s.

(** [env.MONGO_URI.split('/')[-1].split('?')[0] or 'rag_database']. *)
Definition db_name (MONGO_URI : str) : str :=
  match hd [] (split_on QUESTION (last (split_on SLASH MONGO_URI) [])) with
  | [] => lit "rag_database"
  | name => name
  end.

(** How a call that may end the process ends: [sys.exit(code)], or a
    result. *)
Inductive exit_or (A : Type) : Type :=
| Exit (code : Z)
| Done (a : A).

Arguments Exit {A} code.
Arguments Done {A} a.

Section Mongo.
(** A [MongoClient] and a [Database] of [pymongo]. *)
Variable Client : Type.
Variable Database : Type.
(** [MongoClient(uri)], [client.admin.command('ping')], [client[name]]
    (which refuses some names) and [client.close()]: each returns or
    raises. *)
Variable mongo_client : str -> exn + Client.
Variable ping : Client -> exn + unit.
Variable get_database : Client -> str -> exn + Database.
Variable client_close : Client -> exn + unit.

(** The class attributes of [MongoDB]; [closed] lists the clients on which
    [close()] was called. *)
Record MongoDB : Type := {
  _client : option Client;
  _db : option Database;
  closed : list Client
}.

(** [MongoDB.connect]: every exception of the body ends the process with
    status 1. *)
Definition connect (MONGO_URI : str) (st : MongoDB)
  : exit_or Database * MongoDB :=
  match MONGO_URI with
  | [] => (Exit 1, st)
  | _ =>
      match mongo_client MONGO_URI with
      | inl _ => (Exit 1, st)
      | inr client =>
          let st1 := {| _client := Some client; _db := _db st;
                        closed := closed st |} in
          match ping client with
          | inl _ => (Exit 1, st1)
          | inr _ =>
              match get_database client (db_name MONGO_URI) with
              | inl _ => (Exit 1, st1)
              | inr db =>
                  (Done db, {| _client := Some client; _db := Some db;
                               closed := closed st |})
              end
          end
      end
  end.

(** [MongoDB.get_db]. *)
Definition get_db (st : MongoDB) : exn + Database :=
  match _db st with
  | None => inl (Exception (lit "Database not connected. Call connect() first."))
  | Some db => inr db
  end.

(** [MongoDB.close]: what [client.close()] raises is not caught. *)
Definition close : M MongoDB unit :=
  fun st =>
    match _client st with
    | None => (Ret tt, st)
    | Some client =>
        (match client_close client with
         | inl e => Raise e
         | inr _ => Ret tt
         end,
         {| _client := _client st; _db := _db st;
            closed := closed st ++ [client] |})
    end.
End Mongo.

(* ================================================================= *)
(** ** Concrete runs used in the further examples *)

(** A PDF of two pages, the second of which cannot be read. *)
Definition reader_bad_page : bytes -> exn + list Page :=
  fun _ => inr (map (fun t => {| extract_text := inr t |}) [lit "a b"]
                ++ [{| extract_text := inl (Exception (lit "bad page")) |}]).

(** A run over two words whose provider answers every request. *)
Definition env_two_words : Env vec :=
  demo_env (inr (Some pdf_bytes)) (lit "hello world") answer_all.

(** A store that accepts every delete. *)
Definition delete_ok (w : World vec) (document_id : str) : exn + option str :=
  inr None.

(** A status collection whose object ids are the strings of 24
    characters, whose clock counts the updates sent so far, and which
    finds no document. *)
Definition demo_store : Store vec str nat unit unit :=
  {| make_object_id :=
       fun s => if (length s =? 24)%nat then inr s
                else inl (Exception (lit "InvalidId"));
     utcnow := fun s => length (status_updates s);
     find_one_and_update := fun _ _ _ => inr None;
     parse_document := fun raw => inr raw |}.

Definition demo_request : ProcessRequest :=
  {| documentId := lit "0123456789abcdef01234567";
     userId := usr_id;
     chatId := cht_id;
     storagePath := pdf_path;
     fileName := lit "doc-1.pdf" |}.

Definition demo_service : Service vec str nat :=
  {| rag := empty_world; status_updates := [] |}.

(** A server that answers, whose databases are a client and a name, and
    that refuses the names holding a dot. *)
Definition demo_client (uri : str) : exn + nat := inr 7%nat.
Definition demo_ping (client : nat) : exn + unit := inr tt.
Definition demo_database (client : nat) (name : str) : exn + (nat * str) :=
  if existsb (N.eqb 46) name
  then inl (Exception (lit "database names cannot contain the character '.'"))
  else inr (client, name).
Definition demo_close (client : nat) : exn + unit := inr tt.

Definition demo_mongo : MongoDB nat (nat * str) :=
  {| _client := None; _db := None; closed := [] |}.

(** The answer [{"data": {}}] with status 200, to every request. *)
Definition QUOTE : char := 34%N.

Definition answer_empty_dict (w : World (json Z)) (texts : list str)
  : exn + Response (json Z) :=
  inr (http_response 200
         (lit "{" ++ [QUOTE] ++ lit "data" ++ [QUOTE] ++ lit ": {}}")
         (Some (JObject [(lit "data", JObject [])]))).

Definition env_empty_dict : Env (json Z) :=
  {| storage_download := fun _ => inr (Some pdf_bytes);
     pdf_reader := one_page_reader (lit "hello world");
     requests_post := answer_empty_dict;
     table_insert := fun _ _ => inr None |}.

(* ================================================================= *)
(** * Properties *)

Unset Implicit Arguments.

(** ** Lists *)

Lemma take_drop_while {A} (p : A -> bool) (l : list A) :
  take_while p l ++ drop_while p l = l.
Proof.
  induction l as [|x t IH]; simpl; [reflexivity|].
  destruct (p x); simpl; [now rewrite IH | reflexivity].
Qed.

Lemma skipn_take_while {A} (p : A -> bool) (l : list A) :
  skipn (length (take_while p l)) l = drop_while p l.
Proof.
  induction l as [|x t IH]; simpl; [reflexivity|].
  destruct (p x); simpl; auto.
Qed.

Lemma drop_while_idem {A} (p : A -> bool) (l : list A) :
  drop_while p (drop_while p l) = drop_while p l.
Proof.
  induction l as [|x t IH]; simpl; [reflexivity|].
  destruct (p x) eqn:E; simpl; [assumption | now rewrite E].
Qed.

Lemma drop_while_length {A} (p : A -> bool) (l : list A) :
  length (drop_while p l) <= length l.
Proof.
  induction l as [|x t IH]; simpl; [lia|].
  destruct (p x); simpl; lia.
Qed.

Lemma take_while_app {A} (p : A -> bool) (a b : list A) :
  take_while p (a ++ b)
  = take_while p a ++ (if forallb p a then take_while p b else []).
Proof.
  induction a as [|x t IH]; simpl; [reflexivity|].
  destruct (p x); simpl; [now rewrite IH | reflexivity].
Qed.

(** ** White space *)

Lemma isspace_LF : isspace LF = true. Proof. reflexivity. Qed.
Lemma isspace_SP : isspace SP = true. Proof. reflexivity. Qed.
Lemma hspace_SP : hspace SP = true. Proof. reflexivity. Qed.
Lemma hspace_LF : hspace LF = false. Proof. reflexivity. Qed.

Lemma hspace_isspace c : hspace c = true -> isspace c = true.
Proof.
  unfold hspace. intros H.
  apply andb_true_iff in H as [H _]. apply andb_true_iff in H as [H _]. exact H.
Qed.

Lemma hspace_not_LF (c : char) : hspace c = true -> (c =? LF)%N = false.
Proof.
  unfold hspace. intros H.
  apply andb_true_iff in H as [_ H]. now apply negb_true_iff in H.
Qed.

Lemma not_isspace_not_LF (c : char) : isspace c = false -> (c =? LF)%N = false.
Proof.
  intros H. destruct (N.eqb_spec c LF) as [->|]; [|reflexivity].
  rewrite isspace_LF in H. discriminate.
Qed.

Arguments isspace : simpl never.
Arguments hspace : simpl never.

(** ** [re.sub] *)

Lemma re_sub_go_skip m repl k s :
  re_sub_go m repl k s = re_sub m repl (skipn k s).
Proof.
  revert k. induction s as [|c t IH]; intros [|k]; simpl; try reflexivity.
  apply IH.
Qed.

Lemma re_sub_match m repl c t k :
  m (c :: t) = Some (S k) ->
  re_sub m repl (c :: t) = repl ++ re_sub m repl (skipn k t).
Proof.
  intros H. unfold re_sub at 1. simpl. rewrite H. now rewrite re_sub_go_skip.
Qed.

Lemma re_sub_no_match m repl c t :
  m (c :: t) = None ->
  re_sub m repl (c :: t) = c :: re_sub m repl t.
Proof. intros H. unfold re_sub. simpl. now rewrite H. Qed.

(** *** First substitution: runs of [hspace] become one space *)

Lemma sub_hspace_run c t :
  hspace c = true ->
  re_sub match_hspaces [SP] (c :: t)
  = SP :: re_sub match_hspaces [SP] (drop_while hspace t).
Proof.
  intros H.
  rewrite (@re_sub_match _ _ _ _ (length (take_while hspace t))).
  - now rewrite skipn_take_while.
  - unfold match_hspaces. simpl. now rewrite H.
Qed.

Lemma sub_hspace_other c t :
  hspace c = false ->
  re_sub match_hspaces [SP] (c :: t) = c :: re_sub match_hspaces [SP] t.
Proof.
  intros H. apply re_sub_no_match. unfold match_hspaces. simpl. now rewrite H.
Qed.

Lemma head_hspace_sub s :
  head_hspace (re_sub match_hspaces [SP] s) = head_hspace s.
Proof.
  destruct s as [|c t]; [reflexivity|].
  destruct (hspace c) eqn:E.
  - rewrite sub_hspace_run by assumption. simpl. now rewrite E, hspace_SP.
  - now rewrite sub_hspace_other.
Qed.

Lemma head_hspace_drop_while s : head_hspace (drop_while hspace s) = false.
Proof.
  induction s as [|c t IH]; simpl; [reflexivity|].
  destruct (hspace c) eqn:E; simpl; assumption.
Qed.

Lemma single_spaced_sub s : single_spaced (re_sub match_hspaces [SP] s) = true.
Proof.
  remember (length s) as n eqn:Hn. revert s Hn.
  induction n as [n IH] using lt_wf_ind. intros [|c t] Hn; [reflexivity|].
  simpl in Hn. destruct (hspace c) eqn:E.
  - rewrite sub_hspace_run by assumption. simpl.
    rewrite head_hspace_sub, head_hspace_drop_while. simpl.
    apply (IH (length (drop_while hspace t))); [|reflexivity].
    pose proof (drop_while_length hspace t). lia.
  - rewrite sub_hspace_other by assumption. simpl. rewrite E. simpl.
    apply (IH (length t)); [lia | reflexivity].
Qed.

Lemma sub_hspace_fixed s :
  single_spaced s = true -> re_sub match_hspaces [SP] s = s.
Proof.
  induction s as [|c t IH]; intros H; [reflexivity|].
  simpl in H. apply andb_true_iff in H as [H1 H2].
  destruct (hspace c) eqn:E.
  - apply andb_true_iff in H1 as [Hc Hh].
    apply N.eqb_eq in Hc. apply negb_true_iff in Hh.
    rewrite sub_hspace_run by assumption. subst c. f_equal.
    destruct t as [|d u]; [reflexivity|].
    simpl in Hh. simpl. rewrite Hh. now apply IH.
  - rewrite sub_hspace_other by assumption. f_equal. now apply IH.
Qed.

(** *** Second substitution: blank lines become one line break *)

Arguments match_blank_lines : simpl never.

Lemma match_blank_lines_cons (c : char) (t : list char) :
  match_blank_lines (c :: t)
  = if (c =? LF)%N
    then match last_newline (take_while isspace t) with
         | Some j => Some (S (S j))
         | None => None
         end
    else None.
Proof. reflexivity. Qed.

Lemma match_blank_lines_LF (c : char) (t : list char) k :
  match_blank_lines (c :: t) = Some k -> c = LF.
Proof.
  rewrite match_blank_lines_cons.
  destruct (N.eqb_spec c LF); [auto | discriminate].
Qed.

Lemma sub_blank_match (c : char) (t : list char) j :
  (c =? LF)%N = true ->
  last_newline (take_while isspace t) = Some j ->
  re_sub match_blank_lines [LF] (c :: t)
  = LF :: re_sub match_blank_lines [LF] (skipn (S j) t).
Proof.
  intros Hc Hj.
  rewrite (@re_sub_match _ _ _ _ (S j)); [reflexivity|].
  rewrite match_blank_lines_cons, Hc, Hj. reflexivity.
Qed.

Lemma sub_blank_head s :
  hd_error (re_sub match_blank_lines [LF] s) = hd_error s.
Proof.
  destruct s as [|c t]; [reflexivity|].
  destruct (match_blank_lines (c :: t)) as [k|] eqn:E.
  - pose proof (match_blank_lines_LF _ _ _ E) as ->.
    rewrite match_blank_lines_cons in E. simpl in E.
    destruct (last_newline (take_while isspace t)) as [j|] eqn:Ej; [|discriminate].
    now rewrite (@sub_blank_match _ _ j).
  - now rewrite re_sub_no_match.
Qed.

Lemma last_newline_lt w j : last_newline w = Some j -> j < length w.
Proof.
  revert j. induction w as [|c t IH]; intros j; simpl; [discriminate|].
  destruct (last_newline t) as [i|].
  - intros [= <-]. specialize (IH i eq_refl). lia.
  - destruct (c =? LF)%N; [intros [= <-]; lia | discriminate].
Qed.

Lemma last_newline_rest w j :
  last_newline w = Some j -> last_newline (skipn (S j) w) = None.
Proof.
  revert j. induction w as [|c t IH]; intros j; simpl; [discriminate|].
  destruct (last_newline t) as [i|] eqn:Ei.
  - intros [= <-]. now apply IH.
  - destruct (c =? LF)%N; [|discriminate]. intros [= <-]. exact Ei.
Qed.

Lemma last_newline_app_none a b :
  last_newline (a ++ b) = None -> last_newline a = None.
Proof.
  induction a as [|c t IH]; simpl; [reflexivity|].
  destruct (last_newline (t ++ b)) as [i|]; [discriminate|].
  rewrite IH by reflexivity. auto.
Qed.

Lemma take_while_skipn {A} (p : A -> bool) n (l : list A) :
  n <= length (take_while p l) ->
  take_while p (skipn n l) = skipn n (take_while p l).
Proof.
  revert l. induction n as [|n IH]; intros l Hn; [reflexivity|].
  destruct l as [|x t]; [reflexivity|].
  simpl in Hn |- *. destruct (p x); simpl in Hn |- *; [|lia].
  apply IH. lia.
Qed.

(** Where the white space that starts [t] holds no line break, the
    substitution leaves that white space as it is. *)
Lemma sub_blank_take_while t :
  last_newline (take_while isspace t) = None ->
  take_while isspace (re_sub match_blank_lines [LF] t) = take_while isspace t.
Proof.
  induction t as [|c u IH]; intros H; [reflexivity|].
  assert (Hc : (c =? LF)%N = false).
  { simpl in H. destruct (isspace c) eqn:E.
    - simpl in H. destruct (last_newline (take_while isspace u)); [discriminate|].
      destruct (c =? LF)%N; [discriminate | reflexivity].
    - now apply not_isspace_not_LF. }
  rewrite re_sub_no_match by (rewrite match_blank_lines_cons, Hc; reflexivity).
  simpl. destruct (isspace c) eqn:E; [|reflexivity].
  f_equal. apply IH. simpl in H. rewrite E in H. simpl in H.
  destruct (last_newline (take_while isspace u)); [discriminate | reflexivity].
Qed.

Lemma no_blank_lines_cons c t :
  no_blank_lines (c :: t)
  = match match_blank_lines (c :: t) with
    | None => no_blank_lines t
    | Some _ => false
    end.
Proof. reflexivity. Qed.

Lemma no_blank_lines_sub s :
  no_blank_lines (re_sub match_blank_lines [LF] s) = true.
Proof.
  remember (length s) as n eqn:Hn. revert s Hn.
  induction n as [n IH] using lt_wf_ind. intros [|c t] Hn; [reflexivity|].
  simpl in Hn.
  destruct (c =? LF)%N eqn:Hc;
    [destruct (last_newline (take_while isspace t)) as [j|] eqn:Hj|].
  - (* a match: the rest of the run holds no line break *)
    rewrite (sub_blank_match c t j Hc Hj), no_blank_lines_cons, match_blank_lines_cons.
    pose proof (last_newline_lt _ _ Hj) as Hlt.
    rewrite sub_blank_take_while;
      rewrite take_while_skipn by lia; rewrite (last_newline_rest _ _ Hj);
      [|reflexivity].
    simpl. apply (IH (length (skipn (S j) t))); [|reflexivity].
    rewrite length_skipn. lia.
  - (* a line break that starts no match *)
    rewrite re_sub_no_match by (rewrite match_blank_lines_cons, Hc, Hj; reflexivity).
    rewrite no_blank_lines_cons, match_blank_lines_cons, Hc.
    rewrite sub_blank_take_while, Hj by assumption.
    apply (IH (length t)); [lia | reflexivity].
  - rewrite re_sub_no_match by (rewrite match_blank_lines_cons, Hc; reflexivity).
    rewrite no_blank_lines_cons, match_blank_lines_cons, Hc.
    apply (IH (length t)); [lia | reflexivity].
Qed.

Lemma sub_blank_fixed s :
  no_blank_lines s = true -> re_sub match_blank_lines [LF] s = s.
Proof.
  induction s as [|c t IH]; intros H; [reflexivity|].
  rewrite no_blank_lines_cons in H.
  destruct (match_blank_lines (c :: t)) eqn:E; [discriminate|].
  rewrite re_sub_no_match by assumption. f_equal. now apply IH.
Qed.

Lemma head_hspace_hd_error s s' :
  hd_error s = hd_error s' -> head_hspace s = head_hspace s'.
Proof.
  destruct s, s'; simpl; intros H; try discriminate; [reflexivity|].
  now injection H as ->.
Qed.

Lemma single_spaced_skipn n s :
  single_spaced s = true -> single_spaced (skipn n s) = true.
Proof.
  revert s. induction n as [|n IH]; intros [|c t] H; try assumption.
  simpl. apply IH. simpl in H. now apply andb_true_iff in H as [_ H].
Qed.

Lemma single_spaced_sub_blank s :
  single_spaced s = true ->
  single_spaced (re_sub match_blank_lines [LF] s) = true.
Proof.
  remember (length s) as n eqn:Hn. revert s Hn.
  induction n as [n IH] using lt_wf_ind. intros [|c t] Hn H; [reflexivity|].
  simpl in Hn.
  destruct (match_blank_lines (c :: t)) as [k|] eqn:E.
  - pose proof (match_blank_lines_LF _ _ _ E) as ->.
    rewrite match_blank_lines_cons in E. simpl in E.
    destruct (last_newline (take_while isspace t)) as [j|] eqn:Ej; [|discriminate].
    rewrite (@sub_blank_match _ _ j) by auto.
    change (single_spaced (re_sub match_blank_lines [LF] (skipn (S j) t)) = true).
    apply (IH (length (skipn (S j) t))); [| reflexivity |].
    + rewrite length_skipn. lia.
    + apply single_spaced_skipn. exact H.
  - rewrite re_sub_no_match by assumption.
    simpl in H |- *. apply andb_true_iff in H as [H1 H2].
    rewrite (head_hspace_hd_error _ t (sub_blank_head t)), H1. simpl.
    apply (IH (length t)); [lia | reflexivity | assumption].
Qed.

(** *** [strip] *)

Lemma rstrip_prefix s : exists w, s = rstrip s ++ w.
Proof.
  exists (rev (take_while isspace (rev s))). unfold rstrip.
  rewrite <- rev_app_distr, take_drop_while. now rewrite rev_involutive.
Qed.

Lemma single_spaced_drop_while p s :
  single_spaced s = true -> single_spaced (drop_while p s) = true.
Proof.
  induction s as [|c t IH]; intros H; [reflexivity|].
  simpl. destruct (p c); [|assumption].
  apply IH. simpl in H. now apply andb_true_iff in H as [_ H].
Qed.

Lemma no_blank_lines_drop_while p s :
  no_blank_lines s = true -> no_blank_lines (drop_while p s) = true.
Proof.
  induction s as [|c t IH]; intros H; [reflexivity|].
  simpl. destruct (p c); [|assumption].
  apply IH. rewrite no_blank_lines_cons in H.
  now destruct (match_blank_lines (c :: t)).
Qed.

Lemma single_spaced_prefix a b :
  single_spaced (a ++ b) = true -> single_spaced a = true.
Proof.
  induction a as [|c t IH]; intros H; [reflexivity|].
  simpl in H |- *. apply andb_true_iff in H as [H1 H2].
  rewrite (IH H2), andb_true_r.
  destruct (hspace c); [|reflexivity].
  apply andb_true_iff in H1 as [Hc Hh]. rewrite Hc. simpl.
  destruct t; [reflexivity | exact Hh].
Qed.

Lemma match_blank_lines_prefix a b :
  match_blank_lines (a ++ b) = None -> match_blank_lines a = None.
Proof.
  destruct a as [|c t]; [reflexivity|].
  simpl app. rewrite !match_blank_lines_cons.
  destruct (c =? LF)%N; [|reflexivity].
  rewrite take_while_app.
  destruct (last_newline (take_while isspace t ++ _)) eqn:E; [discriminate|].
  intros _. now rewrite (last_newline_app_none _ _ E).
Qed.

Lemma no_blank_lines_prefix a b :
  no_blank_lines (a ++ b) = true -> no_blank_lines a = true.
Proof.
  induction a as [|c t IH]; intros H; [reflexivity|].
  simpl app in H. rewrite no_blank_lines_cons in H |- *.
  destruct (match_blank_lines (c :: t ++ b)) eqn:E; [discriminate|].
  rewrite (match_blank_lines_prefix (c :: t) b E). now apply IH.
Qed.

Lemma lstrip_fixed c t : isspace c = false -> lstrip (c :: t) = c :: t.
Proof. intros H. unfold lstrip. simpl. now rewrite H. Qed.

Lemma lstrip_head s :
  match lstrip s with
  | [] => True
  | c :: _ => isspace c = false
  end.
Proof.
  unfold lstrip. induction s as [|c t IH]; simpl; [exact I|].
  destruct (isspace c) eqn:E; [exact IH | exact E].
Qed.

Lemma rstrip_idem s : rstrip (rstrip s) = rstrip s.
Proof. unfold rstrip. now rewrite rev_involutive, drop_while_idem. Qed.

Lemma strip_idem s : strip (strip s) = strip s.
Proof.
  unfold strip.
  assert (H : lstrip (rstrip (lstrip s)) = rstrip (lstrip s)).
  { pose proof (lstrip_head s) as Hh.
    destruct (rstrip_prefix (lstrip s)) as [w Hw].
    destruct (rstrip (lstrip s)) as [|c u]; [reflexivity|].
    rewrite Hw in Hh. simpl in Hh. now apply lstrip_fixed. }
  now rewrite H, rstrip_idem.
Qed.

Lemma single_spaced_strip s :
  single_spaced s = true -> single_spaced (strip s) = true.
Proof.
  intros H. unfold strip.
  destruct (rstrip_prefix (lstrip s)) as [w Hw].
  apply (single_spaced_prefix _ w). rewrite <- Hw.
  now apply single_spaced_drop_while.
Qed.

Lemma no_blank_lines_strip s :
  no_blank_lines s = true -> no_blank_lines (strip s) = true.
Proof.
  intros H. unfold strip.
  destruct (rstrip_prefix (lstrip s)) as [w Hw].
  apply (no_blank_lines_prefix _ w). rewrite <- Hw.
  now apply no_blank_lines_drop_while.
Qed.

(** The text [clean_text] returns is in normal form for each of its three
    steps. *)
Lemma clean_text_normal x :
  single_spaced (clean_text x) = true /\ no_blank_lines (clean_text x) = true.
Proof.
  unfold clean_text. split.
  - apply single_spaced_strip, single_spaced_sub_blank, single_spaced_sub.
  - apply no_blank_lines_strip, no_blank_lines_sub.
Qed.

(** C7. Normalization is idempotent: cleaning a cleaned text changes
    nothing, [clean_text (clean_text x) = clean_text x] for every string. *)
Theorem clean_text_idempotent (x : str) :
  clean_text (clean_text x) = clean_text x.
Proof.
  destruct (clean_text_normal x) as [H1 H2].
  unfold clean_text at 1.
  rewrite (sub_hspace_fixed _ H1), (sub_blank_fixed _ H2).
  unfold clean_text. apply strip_idem.
Qed.

(* ================================================================= *)
(** ** The chunker and its batches *)

Local Open Scope Z_scope.

Lemma ceil_div_spec a b q :
  0 < b -> (ceil_div a b = q <-> (q - 1) * b < a <= q * b).
Proof.
  intros Hb. unfold ceil_div. split.
  - intros <-. pose proof (Z.div_mod (a + b - 1) b ltac:(lia)).
    pose proof (Z.mod_pos_bound (a + b - 1) b Hb). nia.
  - intros [H1 H2]. symmetry. apply (Z.div_unique _ _ _ (a + b - 1 - b * q)); lia.
Qed.

Lemma ceil_div_step a b : 0 < b -> ceil_div a b = 1 + ceil_div (a - b) b.
Proof.
  intros Hb. unfold ceil_div.
  replace (a + b - 1) with (1 * b + (a - b + b - 1)) by lia.
  rewrite Z.div_add_l by lia. reflexivity.
Qed.

Lemma ceil_div_nonpos a b : 0 < b -> a <= 0 -> ceil_div a b <= 0.
Proof.
  intros Hb Ha. unfold ceil_div.
  destruct (Z.eq_dec (a + b - 1) (b - 1)) as [E|E].
  - rewrite E, Z.div_small; lia.
  - assert (H := Z.div_le_mono (a + b - 1) (b - 1) b Hb ltac:(lia)).
    rewrite (Z.div_small (b - 1) b) in H; lia.
Qed.

Lemma ceil_div_pos a b : 0 < b -> 0 < a -> 0 < ceil_div a b.
Proof.
  intros Hb Ha. rewrite ceil_div_step by assumption.
  unfold ceil_div. assert (0 <= (a - b + b - 1) / b); [|lia].
  apply Z.div_pos; lia.
Qed.

Lemma ceil_div_le a b : 0 < b -> 0 <= a -> ceil_div a b <= a.
Proof.
  intros Hb Ha. pose proof (proj1 (ceil_div_spec a b _ Hb) eq_refl) as H.
  destruct (Z.eq_dec a 0) as [->|]; [apply ceil_div_nonpos; lia|].
  pose proof (ceil_div_pos a b Hb ltac:(lia)). nia.
Qed.

Lemma passes_done words step i :
  0 < step -> len words <= i -> passes words step i = O.
Proof.
  intros Hs Hi. unfold passes.
  pose proof (ceil_div_nonpos (len words - i) step Hs ltac:(lia)). lia.
Qed.

Lemma passes_step words step i :
  0 < step -> i < len words ->
  passes words step i = S (passes words step (i + step)).
Proof.
  intros Hs Hi. unfold passes.
  rewrite (ceil_div_step (len words - i)) by assumption.
  replace (len words - i - step) with (len words - (i + step)) by lia.
  assert (0 <= ceil_div (len words - (i + step)) step); [|lia].
  pose proof (ceil_div_pos (len words - i) step Hs ltac:(lia)) as H.
  rewrite ceil_div_step in H by assumption.
  replace (len words - i - step) with (len words - (i + step)) in H by lia. lia.
Qed.

Lemma passes_le_length words step :
  0 < step -> (passes words step 0 <= length words)%nat.
Proof.
  intros Hs. unfold passes. rewrite Z.sub_0_r.
  pose proof (ceil_div_le (len words) step Hs ltac:(unfold len; lia)).
  unfold len in *. lia.
Qed.

(** The two laws of [bind] the proofs use, pointwise in the state. *)
Lemma bind_assoc {St A B C} (m : M St A) (k : A -> M St B) (k' : B -> M St C) st :
  bind (bind m k) k' st = bind m (fun a => bind (k a) k') st.
Proof. unfold bind. destruct (m st) as [[a|e|] st']; reflexivity. Qed.

Lemma bind_ext {St A B} (m : M St A) (k1 k2 : A -> M St B) st :
  (forall a st', k1 a st' = k2 a st') -> bind m k1 st = bind m k2 st.
Proof. intros H. unfold bind. destruct (m st) as [[a|e|] st']; auto. Qed.

Section Driver.
Variable St : Type.
Variable h : list PageChunk -> M St unit.

Lemma run_batches_single b st : run_batches h [b] st = h b st.
Proof.
  unfold run_batches, bind, ret.
  destruct (h b st) as [[[]| |] st']; reflexivity.
Qed.

(** The loop, then the delivery of what is left, is the handler run over
    the batches of the windows: the batches are handed over in order, each
    one when it is complete, and nothing is handed over once a call has
    raised. *)
Lemma chunk_loop_batches words chunk_size overlap fuel i idx buf st :
  0 < chunk_size - overlap ->
  (passes words (chunk_size - overlap) i < fuel)%nat ->
  (chunks <- chunk_loop h words chunk_size overlap fuel i idx buf ;;
   match chunks with
   | [] => ret tt
   | _ => h chunks
   end) st
  = run_batches h
      (batches buf (windows words chunk_size (chunk_size - overlap)
                            (passes words (chunk_size - overlap) i) i idx)) st.
Proof.
  intros Hs. revert i idx buf st.
  induction fuel as [|fuel IH]; intros i idx buf st Hf; [lia|].
  simpl chunk_loop. destruct (i <? len words) eqn:Hi.
  - apply Z.ltb_lt in Hi. rewrite (passes_step words _ i Hs Hi) in Hf |- *.
    simpl windows. simpl batches. fold (chunk_at words chunk_size i idx).
    destruct (len (buf ++ [chunk_at words chunk_size i idx]) >=? 5).
    + simpl run_batches. rewrite bind_assoc. apply bind_ext.
      intros _ st'. apply IH. lia.
    + apply IH. lia.
  - apply Z.ltb_ge in Hi. rewrite (passes_done words _ i Hs Hi).
    simpl windows. simpl batches.
    destruct buf as [|c buf]; [reflexivity|].
    now rewrite run_batches_single.
Qed.
End Driver.

Ltac Zify.zify_post_hook ::= Z.div_mod_to_equations.

Lemma try_reraise {St A} (m : M St A) st :
  try_except m (fun e => raise e) st = m st.
Proof. unfold try_except, raise. destruct (m st) as [[a|e|] st']; reflexivity. Qed.

(** A run of the extractor whose PDF parses: the handler is run over the
    batches of the windows of the cleaned text, and the page count is
    returned if no call raised. *)
Lemma extract_run {St} reader (h : list PageChunk -> M St unit)
      fuel buffer N K pages full_text st :
  reader buffer = inr pages ->
  extract_pages pages [] = inr full_text ->
  0 < N - K ->
  (length (split (clean_text full_text)) < fuel)%nat ->
  extract_and_process_pdf reader h fuel buffer {| chunkSize := N; overlap := K |} st
  = (run_batches h
       (batches []
          (windows (split (clean_text full_text)) N (N - K)
                   (passes (split (clean_text full_text)) (N - K) 0) 0 0)) ;;;
     ret (len pages)) st.
Proof.
  intros Hr Hp Hs Hf. unfold extract_and_process_pdf.
  rewrite try_reraise, Hr. simpl call. unfold bind at 1, ret at 1.
  rewrite Hp. simpl call. unfold bind at 1, ret at 1. simpl chunkSize. simpl overlap.
  rewrite <- bind_assoc. unfold bind at 1.
  rewrite chunk_loop_batches; [reflexivity | assumption |].
  pose proof (passes_le_length (split (clean_text full_text)) (N - K) Hs). lia.
Qed.

Lemma run_record bs log :
  run_batches record_batch bs log = (Ret tt, log ++ bs).
Proof.
  revert log. induction bs as [|b rest IH]; intros log; simpl.
  - unfold ret. now rewrite app_nil_r.
  - unfold bind, record_batch at 1. rewrite IH, <- app_assoc. reflexivity.
Qed.

(** *** The chunks of the windows *)

Lemma windows_length words N s n i idx : length (windows words N s n i idx) = n.
Proof. revert i idx. induction n as [|n IH]; intros; simpl; auto. Qed.

Lemma windows_nth words N s n i idx j :
  (j < n)%nat ->
  nth_error (windows words N s n i idx) j
  = Some (chunk_at words N (i + Z.of_nat j * s) (idx + Z.of_nat j)).
Proof.
  revert i idx j. induction n as [|n IH]; intros i idx [|j] Hj; try lia.
  - simpl. do 2 f_equal; lia.
  - simpl nth_error. rewrite IH by lia. do 2 f_equal; lia.
Qed.

Lemma windows_indices words N s n i idx :
  map chunk_index (windows words N s n i idx)
  = map (fun j => idx + Z.of_nat j) (seq 0 n).
Proof.
  revert i idx. induction n as [|n IH]; intros i idx; [reflexivity|].
  simpl. rewrite IH, <- seq_shift, map_map. f_equal; [lia|].
  apply map_ext. intros j. lia.
Qed.

(** *** The batches *)

Lemma batches_concat {A} (buf l : list A) : concat (batches buf l) = buf ++ l.
Proof.
  revert buf. induction l as [|c rest IH]; intros buf; simpl.
  - destruct buf; simpl; now rewrite ?app_nil_r.
  - destruct (len (buf ++ [c]) >=? 5); simpl; rewrite IH, <- ?app_assoc; reflexivity.
Qed.

Lemma batches_sizes {A} (buf l : list A) :
  (length buf < 5)%nat ->
  let t := (length buf + length l)%nat in
  map (@length A) (batches buf l)
  = repeat 5%nat (t / 5) ++ (if (t mod 5 =? 0)%nat then [] else [(t mod 5)%nat]).
Proof.
  revert buf. induction l as [|c rest IH]; intros buf Hb; cbv zeta.
  - simpl length. rewrite Nat.add_0_r, Nat.div_small, Nat.mod_small by assumption.
    destruct buf; reflexivity.
  - simpl batches. unfold len. rewrite length_app. simpl length.
    rewrite Z.geb_leb. destruct (Z.leb_spec 5 (Z.of_nat (length buf + 1))) as [E|E].
    + assert (Hb4 : length buf = 4%nat) by lia.
      simpl map. rewrite (IH []) by (simpl; lia). cbv zeta. simpl length.
      rewrite length_app. simpl length. rewrite Hb4.
      replace (4 + S (length rest))%nat with (5 + length rest)%nat by lia.
      replace ((5 + length rest) / 5)%nat with (S (length rest / 5)) by lia.
      replace ((5 + length rest) mod 5)%nat with (length rest mod 5)%nat by lia.
      reflexivity.
    + rewrite IH by (rewrite length_app; simpl; lia). cbv zeta.
      rewrite length_app. simpl length.
      replace (length buf + 1 + length rest)%nat
        with (length buf + S (length rest))%nat by lia.
      reflexivity.
Qed.

Lemma batches_bounds {A} (buf l : list A) :
  (length buf < 5)%nat ->
  Forall (fun b => (1 <= length b <= 5)%nat) (batches buf l).
Proof.
  revert buf. induction l as [|c rest IH]; intros buf Hb; simpl.
  - destruct buf; constructor; [simpl in *; lia | constructor].
  - unfold len. rewrite length_app. simpl length.
    rewrite Z.geb_leb. destruct (Z.leb_spec 5 (Z.of_nat (length buf + 1))) as [E|E].
    + constructor; [rewrite length_app; simpl; lia | apply IH; simpl; lia].
    + apply IH. rewrite length_app. simpl. lia.
Qed.

Lemma extract_record reader fuel buffer N K pages full_text log :
  reader buffer = inr pages ->
  extract_pages pages [] = inr full_text ->
  0 <= K < N ->
  (length (split (clean_text full_text)) < fuel)%nat ->
  extract_and_process_pdf reader record_batch fuel buffer
                          {| chunkSize := N; overlap := K |} log
  = (Ret (len pages),
     log ++ batches []
              (windows (split (clean_text full_text)) N (N - K)
                       (passes (split (clean_text full_text)) (N - K) 0) 0 0)).
Proof.
  intros Hr Hp HK Hf.
  rewrite (extract_run _ _ _ _ _ _ _ _ _ Hr Hp) by (assumption || lia).
  unfold bind. now rewrite run_record.
Qed.

(** C1 (amended). With [0 <= K < N] and a cleaned text of [M] tokens, the
    chunks handed to the batch handler number [ceil(M / (N - K))], which is
    0 when [M = 0], and their [chunk_index] values are 0, 1, ..., count - 1
    in the order of emission. *)
Theorem chunk_count_and_indices reader fuel buffer N K pages full_text :
  reader buffer = inr pages ->
  extract_pages pages [] = inr full_text ->
  0 <= K < N ->
  let words := split (clean_text full_text) in
  (length words < fuel)%nat ->
  let delivered := delivered_chunks reader fuel buffer N K in
  len delivered = ceil_div (len words) (N - K)
  /\ (len words = 0 -> delivered = [])
  /\ map chunk_index delivered = map Z.of_nat (seq 0 (length delivered)).
Proof.
  intros Hr Hp HK words Hf delivered.
  assert (Hd : delivered
               = windows words N (N - K) (passes words (N - K) 0) 0 0).
  { unfold delivered, delivered_chunks.
    rewrite (extract_record reader fuel buffer N K pages full_text [] Hr Hp HK Hf).
    simpl snd. now rewrite batches_concat. }
  assert (Hn : len delivered = ceil_div (len words) (N - K)).
  { rewrite Hd. unfold len at 1. rewrite windows_length. unfold passes.
    rewrite Z.sub_0_r.
    destruct (Z.eq_dec (len words) 0) as [E|E].
    - rewrite E. unfold ceil_div. simpl. rewrite Z.div_small; lia.
    - pose proof (ceil_div_pos (len words) (N - K) ltac:(lia)
                               ltac:(unfold len in *; lia)). lia. }
  split; [exact Hn|]. split.
  - intros H0. rewrite H0 in Hn. unfold ceil_div in Hn. simpl in Hn.
    rewrite Z.div_small in Hn by lia.
    destruct delivered; [reflexivity | unfold len in Hn; simpl in Hn; lia].
  - rewrite Hd, windows_indices, windows_length. apply map_ext. intros j. lia.
Qed.

(** C3. The loop builds one chunk at each pass, [total] chunks in all,
    which is [ceil(M / (N - K))] for the [M] tokens of the text.  Whatever
    the handler, it is called on the batches of the run in order, each call
    after the one before has returned, and these batches are the chunks
    built, all of them and in the order they were built, cut as follows:
    every batch holds between 1 and 5 chunks; there are [ceil(total / 5)]
    batches; all hold 5 chunks except possibly the last, which holds
    [total mod 5] when that is not 0. *)
Theorem batch_sizes reader fuel buffer N K pages full_text :
  reader buffer = inr pages ->
  extract_pages pages [] = inr full_text ->
  0 <= K < N ->
  (length (split (clean_text full_text)) < fuel)%nat ->
  let words := split (clean_text full_text) in
  let total := passes words (N - K) 0 in
  let chunks := windows words N (N - K) total 0 0 in
  let log := snd (extract_and_process_pdf reader record_batch fuel buffer
                    {| chunkSize := N; overlap := K |} []) in
  Z.of_nat total = ceil_div (len words) (N - K)
  /\ length chunks = total
  /\ (forall St (h : list PageChunk -> M St unit) (st : St),
         extract_and_process_pdf reader h fuel buffer
                                 {| chunkSize := N; overlap := K |} st
         = (run_batches h log ;;; ret (len pages)) st)
  /\ concat log = chunks
  /\ Forall (fun b => (1 <= length b <= 5)%nat) log
  /\ len log = ceil_div (Z.of_nat total) 5
  /\ map (@length PageChunk) log
     = repeat 5%nat (total / 5)
       ++ (if (total mod 5 =? 0)%nat then [] else [(total mod 5)%nat]).
Proof.
  intros Hr Hp HK Hf words total chunks log.
  assert (Hlog : log = batches [] chunks).
  { unfold log.
    now rewrite (extract_record reader fuel buffer N K pages full_text []
                                Hr Hp HK Hf). }
  assert (Hlen : length chunks = total) by apply windows_length.
  split.
  { unfold total, passes. rewrite Z.sub_0_r.
    destruct (Z.eq_dec (len words) 0) as [E|E].
    - rewrite E. unfold ceil_div. simpl. rewrite Z.div_small; lia.
    - pose proof (ceil_div_pos (len words) (N - K) ltac:(lia)
                               ltac:(unfold len in *; lia)).
      lia. }
  split; [exact Hlen|]. split.
  { intros St h st. rewrite Hlog.
    apply (extract_run reader h fuel buffer N K pages full_text st Hr Hp);
      [lia | assumption]. }
  rewrite Hlog. split; [apply (batches_concat (@nil PageChunk) chunks)|].
  pose proof (batches_sizes (@nil PageChunk) chunks ltac:(simpl; lia)) as Hsz.
  cbv zeta in Hsz.
  change (length (@nil PageChunk) + length chunks)%nat with (length chunks) in Hsz.
  rewrite Hlen in Hsz.
  split; [apply batches_bounds; simpl; lia|]. split; [|exact Hsz].
  unfold len. rewrite <- (length_map (@length PageChunk)), Hsz.
  rewrite length_app, repeat_length. unfold ceil_div.
  destruct (Nat.eqb_spec (total mod 5) 0); simpl length; lia.
Qed.

(** *** Termination of the loop *)

Lemma chunk_loop_returns {St} (h : list PageChunk -> M St unit)
      words N K fuel i idx buf st :
  0 < N - K ->
  (forall b s, fst (h b s) <> Diverge) ->
  (passes words (N - K) i < fuel)%nat ->
  fst (chunk_loop h words N K fuel i idx buf st) <> Diverge.
Proof.
  intros Hs Hh. revert i idx buf st.
  induction fuel as [|fuel IH]; intros i idx buf st Hf; [lia|].
  simpl. destruct (i <? len words) eqn:Hi.
  - apply Z.ltb_lt in Hi. rewrite (passes_step words _ i Hs Hi) in Hf.
    destruct (len _ >=? 5); [|apply IH; lia].
    unfold bind. specialize (Hh (buf ++ [chunk_at words N i idx]) st).
    unfold chunk_at in Hh.
    destruct (h _ st) as [[[]|e|] st']; simpl in *;
      [apply IH; lia | discriminate | congruence].
  - discriminate.
Qed.

Lemma chunk_loop_fuel {St} (h : list PageChunk -> M St unit)
      words N K fuel fuel' i idx buf st :
  0 < N - K ->
  (passes words (N - K) i < fuel)%nat ->
  (passes words (N - K) i < fuel')%nat ->
  chunk_loop h words N K fuel i idx buf st
  = chunk_loop h words N K fuel' i idx buf st.
Proof.
  intros Hs. revert fuel' i idx buf st.
  induction fuel as [|fuel IH]; intros [|fuel'] i idx buf st Hf Hf'; try lia.
  simpl. destruct (i <? len words) eqn:Hi; [|reflexivity].
  apply Z.ltb_lt in Hi. rewrite (passes_step words _ i Hs Hi) in Hf, Hf'.
  destruct (len _ >=? 5); [|apply IH; lia].
  apply bind_ext. intros _ st'. apply IH; lia.
Qed.

(** C8. Under [0 <= overlap < chunkSize] the loop terminates on every token
    list: the distance from the cursor to the end of the list decreases at
    every pass, and with more fuel than there are tokens the loop returns or
    raises with its handler, with a result that no longer depends on the
    fuel. *)
Theorem chunk_loop_terminates {St} (h : list PageChunk -> M St unit)
        (words : list str) (N K : Z) (st : St) :
  0 <= K < N ->
  (forall b s, fst (h b s) <> Diverge) ->
  (forall i, i < len words ->
             (Z.to_nat (len words - (i + (N - K))) < Z.to_nat (len words - i))%nat)
  /\ forall fuel, (length words < fuel)%nat ->
       fst (chunk_loop h words N K fuel 0 0 [] st) <> Diverge
       /\ chunk_loop h words N K fuel 0 0 [] st
          = chunk_loop h words N K (S (length words)) 0 0 [] st.
Proof.
  intros HK Hh. split; [intros i Hi; lia|].
  intros fuel Hf.
  pose proof (passes_le_length words (N - K) ltac:(lia)) as Hp.
  split.
  - apply chunk_loop_returns; [lia | assumption | lia].
  - apply chunk_loop_fuel; lia.
Qed.

(** Outside that precondition the loop does not end: with
    [chunkSize <= overlap] and a token under the cursor, no amount of fuel
    makes it return. *)
Lemma chunk_loop_stuck {St} (h : list PageChunk -> M St unit)
      words N K fuel i idx buf st :
  N - K <= 0 -> i < len words ->
  forall chunks, fst (chunk_loop h words N K fuel i idx buf st) <> Ret chunks.
Proof.
  intros Hs. revert i idx buf st.
  induction fuel as [|fuel IH]; intros i idx buf st Hi chunks; [discriminate|].
  simpl. apply Z.ltb_lt in Hi as Hi'. rewrite Hi'.
  destruct (len _ >=? 5); [|apply IH; lia].
  unfold bind. destruct (h _ st) as [[[]|e|] st']; simpl;
    [apply IH; lia | discriminate | discriminate].
Qed.

(* ================================================================= *)
(** ** Embedding and storage of one batch *)

Section Batch.
Variable Embedding : Type.
Variable env : Env Embedding.

Lemma embedding_results_length (items : list (option Embedding)) rs :
  embedding_results items = inr rs -> length rs = length items.
Proof.
  revert rs. induction items as [|[e|] rest IH]; intros rs; simpl.
  - now intros [= <-].
  - destruct (embedding_results rest) as [x|rs']; [discriminate|].
    intros [= <-]. simpl. f_equal. now apply IH.
  - discriminate.
Qed.

(** The embedder sends at most one request, never touches the table, and
    raises nothing but its own normalized error. *)
Lemma generate_batch_embeddings_spec texts (w : World Embedding) :
  match generate_batch_embeddings env texts w with
  | (Ret rs, w') =>
      document_chunks w' = document_chunks w
      /\ insert_requests w' = insert_requests w
      /\ ((texts = [] /\ rs = [] /\ w' = w)
          \/ (texts <> []
              /\ embed_requests w' = embed_requests w ++ [texts]
              /\ exists response items,
                  requests_post env w texts = inr response
                  /\ json_data response = Some items
                  /\ embedding_results items = inr rs))
  | (Raise e, w') =>
      e = Exception (lit "Batch embedding failed")
      /\ document_chunks w' = document_chunks w
      /\ insert_requests w' = insert_requests w
  | (Diverge, _) => False
  end.
Proof.
  destruct texts as [|t ts]; [simpl; repeat split; now left|].
  unfold generate_batch_embeddings, try_except, bind, log_embed_request, call.
  destruct (requests_post env w (t :: ts)) as [e|response] eqn:Hpost;
    [simpl; auto|].
  unfold ret. destruct (ok response); simpl; [|auto].
  destruct (json_data response) as [items|] eqn:Hj; simpl; [|auto].
  destruct (embedding_results items) as [e|rs] eqn:Hr; simpl; [auto|].
  repeat split; try reflexivity. right.
  repeat split; [discriminate | eauto].
Qed.

(** The store issues at most one bulk insert; the table gains the rows of
    the batch when the call returns and nothing when it raises. *)
Lemma store_batch_vectors_spec chunks (w : World Embedding) :
  match store_batch_vectors env chunks w with
  | (Ret _, w') =>
      document_chunks w' = document_chunks w ++ map (@row_of Embedding) chunks
  | (Raise e, w') =>
      e = Exception (lit "Failed to store vectors")
      /\ document_chunks w' = document_chunks w
  | (Diverge, _) => False
  end.
Proof.
  destruct chunks as [|c cs]; [simpl; now rewrite app_nil_r|].
  unfold store_batch_vectors, try_except, bind, log_insert_request, call.
  destruct (table_insert env w _) as [e|[err|]]; simpl; auto.
Qed.

Lemma vector_chunks_from_fields d u c idx chunks (embs : list (EmbeddingResult Embedding)) vs :
  vector_chunks_from d u c idx chunks embs = inr vs ->
  map (@row_chunk_index Embedding) (map (@row_of Embedding) vs)
  = map chunk_index chunks
  /\ map (@row_content Embedding) (map (@row_of Embedding) vs)
     = map content chunks.
Proof.
  revert idx vs. induction chunks as [|chunk rest IH]; intros idx vs; simpl.
  - intros [= <-]. auto.
  - destruct (nth_error embs idx) as [r|]; [|discriminate].
    destruct (vector_chunks_from d u c (S idx) rest embs) as [x|vs'] eqn:E;
      [discriminate|].
    intros [= <-]. destruct (IH _ _ E) as [H1 H2].
    split; simpl; f_equal; assumption.
Qed.

(** Too few embeddings: the comprehension raises [IndexError]. *)
Lemma vector_chunks_from_short d u c idx chunks (embs : list (EmbeddingResult Embedding)) :
  (length embs < idx + length chunks)%nat ->
  (idx <= length embs)%nat ->
  vector_chunks_from d u c idx chunks embs
  = inl (Exception (lit "list index out of range")).
Proof.
  revert idx. induction chunks as [|chunk rest IH]; intros idx H1 H2; simpl in *.
  - lia.
  - destruct (nth_error embs idx) as [r|] eqn:E; [|reflexivity].
    assert (idx < length embs)%nat by (apply nth_error_Some; congruence).
    rewrite IH by lia. reflexivity.
Qed.

(** One batch: when the step raises, the table is as it was; when it
    returns, the table has gained one row per chunk of the batch. *)
Lemma handle_batch_processing_spec chunks d u c (w : World Embedding) :
  match handle_batch_processing env chunks d u c w with
  | (Ret _, w') =>
      exists rows,
        document_chunks w' = document_chunks w ++ rows
        /\ map (@row_chunk_index Embedding) rows = map chunk_index chunks
        /\ map (@row_content Embedding) rows = map content chunks
  | (Raise e, w') => document_chunks w' = document_chunks w
  | (Diverge, _) => False
  end.
Proof.
  unfold handle_batch_processing. rewrite try_reraise. unfold bind at 1.
  pose proof (generate_batch_embeddings_spec (map content chunks) w) as Hg.
  destruct (generate_batch_embeddings env (map content chunks) w)
    as [[embs|e|] w1]; [|tauto|exact Hg].
  destruct Hg as (Hd & _ & _). unfold bind, call.
  destruct (vector_chunks_from d u c 0 chunks embs) as [e|vs] eqn:Hv;
    [exact Hd|].
  unfold ret.
  pose proof (store_batch_vectors_spec vs w1) as Hs.
  destruct (store_batch_vectors env vs w1) as [[[]|e|] w2]; [| |exact Hs].
  - exists (map (@row_of Embedding) vs).
    destruct (vector_chunks_from_fields _ _ _ _ _ _ _ Hv) as [H1 H2].
    rewrite Hs, Hd. auto.
  - destruct Hs as [_ Hs]. congruence.
Qed.
End Batch.

Section BatchClaims.
Variable Embedding : Type.
Variable env : Env Embedding.

(** C2 (amended). When the provider answers a batch with fewer embedding
    vectors than the texts sent, the batch step raises, no insert is
    issued and the table keeps exactly the rows it had. *)
Theorem short_embedding_response_fails chunks d u c (w : World Embedding)
        response items :
  requests_post env w (map content chunks) = inr response ->
  json_data response = Some items ->
  (length items < length chunks)%nat ->
  exists e w',
    handle_batch_processing env chunks d u c w = (Raise e, w')
    /\ document_chunks w' = document_chunks w
    /\ insert_requests w' = insert_requests w.
Proof.
  intros Hpost Hj Hlen.
  unfold handle_batch_processing. rewrite try_reraise. unfold bind at 1.
  pose proof (generate_batch_embeddings_spec _ env (map content chunks) w) as Hg.
  destruct (generate_batch_embeddings env (map content chunks) w)
    as [[embs|e|] w1];
    [|destruct Hg as (_ & ? & ?); now eauto|contradiction].
  destruct Hg as (Hd & Hi & [(Ht & _)|(_ & _ & r & its & Hp & Hj' & Hr)]).
  - destruct chunks; [simpl in Hlen; lia | discriminate].
  - rewrite Hpost in Hp. injection Hp as <-. rewrite Hj in Hj'.
    injection Hj' as <-. apply embedding_results_length in Hr.
    unfold bind, call.
    rewrite vector_chunks_from_short by lia. unfold raise. eauto.
Qed.
End BatchClaims.

(* ================================================================= *)
(** ** The orchestrator *)

Lemma run_batches_raise {St} (h : list PageChunk -> M St unit)
      pre b post st st1 e st2 :
  run_batches h pre st = (Ret tt, st1) ->
  h b st1 = (Raise e, st2) ->
  run_batches h (pre ++ b :: post) st = (Raise e, st2).
Proof.
  revert st. induction pre as [|p pre IH]; intros st Hpre Hb; simpl in *.
  - unfold ret in Hpre. injection Hpre as <-. unfold bind. now rewrite Hb.
  - unfold bind in *. destruct (h p st) as [[[]|e'|] st']; try discriminate.
    now apply IH.
Qed.

Lemma batches_full_prefix {A} (buf l : list A) pre b post :
  batches buf l = pre ++ b :: post ->
  (length buf < 5)%nat ->
  Forall (fun x => length x = 5%nat) pre.
Proof.
  revert buf pre. induction l as [|c rest IH]; intros buf pre H Hb; simpl in H.
  - destruct buf, pre as [|p [|q pre]]; simpl in H; try discriminate; constructor.
  - unfold len in H. rewrite length_app in H. simpl length in H.
    rewrite Z.geb_leb in H.
    destruct (Z.leb_spec 5 (Z.of_nat (length buf + 1))) as [E|E].
    + destruct pre as [|p pre]; [constructor|].
      simpl in H. injection H as <- H. constructor.
      * rewrite length_app. simpl. lia.
      * apply (IH [] pre H). simpl. lia.
    + apply (IH _ _ H). rewrite length_app. simpl. lia.
Qed.

(** Entering the body of the [try] with a download that returned a
    payload: [Hd] is the download, [Hf] says the payload is not empty. *)
Ltac enter_body Hd Hf :=
  unfold process_document_body;
  rewrite Hd; simpl call; unfold bind at 1, ret at 1; rewrite Hf.

(** Entering the extractor with a PDF that parsed: [Hr] is the parse. *)
Ltac enter_extractor Hr :=
  unfold extract_and_process_pdf; unfold bind at 1;
  rewrite try_reraise, Hr; simpl call.

Section Orchestrator.
Variable Embedding : Type.
Variable env : Env Embedding.
Variables document_id user_id chat_id storage_path : str.

Lemma handle_batch_spec chunks (st : Frame Embedding) :
  match handle_batch env document_id user_id chat_id chunks st with
  | (Ret _, st') =>
      total_chunks_processed st' = total_chunks_processed st + len chunks
      /\ exists rows,
          document_chunks (world st') = document_chunks (world st) ++ rows
          /\ map (@row_chunk_index Embedding) rows = map chunk_index chunks
          /\ map (@row_content Embedding) rows = map content chunks
  | (Raise e, st') =>
      document_chunks (world st') = document_chunks (world st)
  | (Diverge, _) => False
  end.
Proof.
  unfold handle_batch.
  pose proof (handle_batch_processing_spec _ env chunks document_id user_id
                                           chat_id (world st)) as H.
  destruct (handle_batch_processing env chunks document_id user_id chat_id
                                    (world st)) as [[[]|e|] w']; simpl; auto.
Qed.

Lemma handler_returns b s : fst (handle_batch env document_id user_id chat_id b s) <> Diverge.
Proof.
  pose proof (handle_batch_spec b s) as H.
  destruct (handle_batch env document_id user_id chat_id b s) as [[[]|e|] st']; simpl; [discriminate..|contradiction].
Qed.

(** The batches handled so far are in the table, one row per chunk. *)
Lemma run_batches_rows bs (st st' : Frame Embedding) :
  run_batches (handle_batch env document_id user_id chat_id) bs st = (Ret tt, st') ->
  total_chunks_processed st' = total_chunks_processed st + len (concat bs)
  /\ exists rows,
      document_chunks (world st') = document_chunks (world st) ++ rows
      /\ map (@row_chunk_index Embedding) rows = map chunk_index (concat bs)
      /\ map (@row_content Embedding) rows = map content (concat bs).
Proof.
  revert st. induction bs as [|b bs IH]; intros st H; simpl in H.
  - unfold ret in H. injection H as <-. split; [unfold len; simpl; lia|].
    exists []. now rewrite app_nil_r.
  - unfold bind in H. pose proof (handle_batch_spec b st) as Hb.
    destruct (handle_batch env document_id user_id chat_id b st) as [[[]|e|] st1]; try discriminate.
    destruct Hb as (Ht & rows1 & Hr1 & Hi1 & Hc1).
    destruct (IH _ H) as (Ht' & rows2 & Hr2 & Hi2 & Hc2).
    split.
    + rewrite Ht', Ht. unfold len. simpl concat. rewrite length_app. lia.
    + exists (rows1 ++ rows2). simpl concat.
      rewrite Hr2, Hr1, <- app_assoc, !map_app, Hi1, Hi2, Hc1, Hc2. auto.
Qed.

(** A run whose download and parse succeed: the body of the [try] is the
    handler run over the batches of the document. *)
Lemma process_document_body_run fuel response pages full_text st :
  storage_download env storage_path = inr response ->
  falsy response = false ->
  pdf_reader env (payload response) = inr pages ->
  extract_pages pages [] = inr full_text ->
  (length (split (clean_text full_text)) < fuel)%nat ->
  process_document_body env document_id user_id chat_id storage_path fuel st
  = match run_batches (handle_batch env document_id user_id chat_id) (document_batches full_text) st with
    | (Ret _, st') =>
        (Ret {| success := true; page_count := len pages;
                total_chunks := total_chunks_processed st'; error := None |}, st')
    | (Raise e, st') => (Raise e, st')
    | (Diverge, st') => (Diverge, st')
    end.
Proof.
  intros Hd Hf Hr Hp Hfuel. enter_body Hd Hf. unfold bind at 1.
  rewrite (extract_run _ _ _ _ _ _ _ _ _ Hr Hp) by (assumption || lia).
  unfold document_batches, bind, ret.
  destruct (run_batches _ _ st) as [[[]|e|] st']; reflexivity.
Qed.

(** C5. Whatever stage fails (the download, the parse, a page, or the
    handler on a batch), the run returns the failure result that carries
    the message of the exception, and it leaves the world as it was when
    the stage failed: the batches after the failing one are not handled. *)
Theorem stage_failure_is_reported (w w' : World Embedding) (e : exn) :
  stage_failure env document_id user_id chat_id storage_path w e w' ->
  exists fuel0, forall fuel, (fuel0 <= fuel)%nat ->
    process_document_rag env document_id user_id chat_id storage_path fuel w
    = (Some {| success := false; page_count := 0; total_chunks := 0;
               error := Some (str_of_exn e) |}, w').
Proof.
  intros H. unfold process_document_rag.
  destruct H as [e Hd|response Hd Hf|response e Hd Hf Hr|response pages e Hd Hf Hr Hp
                 |response pages full_text pre b post st1 e st2 Hd Hf Hr Hp Hb Hpre Hfail].
  - exists O. intros fuel _. unfold process_document_body. now rewrite Hd.
  - exists O. intros fuel _. unfold process_document_body.
    rewrite Hd. simpl call. unfold bind, ret. now rewrite Hf.
  - exists O. intros fuel _. enter_body Hd Hf. enter_extractor Hr. reflexivity.
  - exists O. intros fuel _. enter_body Hd Hf. enter_extractor Hr.
    unfold bind at 1, ret at 1. rewrite Hp. reflexivity.
  - exists (S (length (split (clean_text full_text)))). intros fuel Hfuel.
    rewrite (process_document_body_run _ _ _ _ _ Hd Hf Hr Hp) by lia.
    rewrite Hb.
    now rewrite (run_batches_raise _ _ _ post _ _ _ _ Hpre Hfail).
Qed.

(** C6. When the download returns nothing or empty bytes, the run returns
    the failure result with zero pages and zero chunks and a message that
    begins "Download failed", and the world is untouched: no request has
    been sent to the embedding provider and no insert to the store. *)
Theorem empty_download_fails (w : World Embedding) response fuel :
  storage_download env storage_path = inr response ->
  falsy response = true ->
  process_document_rag env document_id user_id chat_id storage_path fuel w
  = (Some {| success := false; page_count := 0; total_chunks := 0;
             error := Some (lit "Download failed" ++ lit ": No data returned") |},
     w).
Proof.
  intros Hd Hf. unfold process_document_rag, process_document_body.
  rewrite Hd. simpl call. unfold bind, ret. now rewrite Hf.
Qed.

(** C9. When the handler raises on a batch after [k >= 1] batches have
    been stored, the run returns the failure result with [page_count = 0]
    and [total_chunks = 0], and the rows of those [k] batches, 5 per
    batch, are still in the table. *)
Theorem failure_keeps_stored_batches (w : World Embedding)
        response pages full_text pre b post st1 e st2 fuel :
  storage_download env storage_path = inr response ->
  falsy response = false ->
  pdf_reader env (payload response) = inr pages ->
  extract_pages pages [] = inr full_text ->
  document_batches full_text = pre ++ b :: post ->
  pre <> [] ->
  run_batches (handle_batch env document_id user_id chat_id) pre {| world := w; total_chunks_processed := 0 |}
  = (Ret tt, st1) ->
  handle_batch env document_id user_id chat_id b st1 = (Raise e, st2) ->
  (length (split (clean_text full_text)) < fuel)%nat ->
  exists w' rows,
    process_document_rag env document_id user_id chat_id storage_path fuel w
    = (Some {| success := false; page_count := 0; total_chunks := 0;
               error := Some (str_of_exn e) |}, w')
    /\ document_chunks w' = document_chunks w ++ rows
    /\ map (@row_chunk_index Embedding) rows = map chunk_index (concat pre)
    /\ map (@row_content Embedding) rows = map content (concat pre)
    /\ length rows = (5 * length pre)%nat
    /\ total_chunks_processed st1 = 5 * len pre.
Proof.
  intros Hd Hf Hr Hp Hb Hne Hpre Hfail Hfuel.
  destruct (run_batches_rows _ _ _ Hpre) as (Ht & rows & Hrows & Hi & Hc).
  assert (Hlen : length (concat pre) = (5 * length pre)%nat).
  { assert (Hfull : Forall (fun x : list PageChunk => length x = 5%nat) pre).
    { unfold document_batches in Hb.
      apply (batches_full_prefix _ _ _ _ _ Hb). simpl. lia. }
    clear -Hfull. induction Hfull as [|x l Hx _ IH]; [reflexivity|].
    simpl. rewrite length_app, IH, Hx. lia. }
  exists (world st2), rows. split; [|split; [|split; [|split; [|split]]]].
  - unfold process_document_rag.
    rewrite (process_document_body_run _ _ _ _ _ Hd Hf Hr Hp) by lia.
    rewrite Hb. now rewrite (run_batches_raise _ _ _ post _ _ _ _ Hpre Hfail).
  - pose proof (handle_batch_spec b st1) as H. rewrite Hfail in H.
    rewrite H, Hrows. reflexivity.
  - exact Hi.
  - exact Hc.
  - rewrite <- Hlen, <- (length_map (@row_chunk_index Embedding)), Hi.
    now rewrite length_map.
  - rewrite Ht. cbn [total_chunks_processed]. unfold len. rewrite Hlen. lia.
Qed.

(** C10. When the download and the extraction succeed and the cleaned
    text holds no token, the run succeeds with the page count of the PDF
    and zero chunks; the handler is never called (any handler would leave
    its state as it is), so the provider and the store are not used. *)
Theorem empty_text_succeeds (w : World Embedding) response pages full_text fuel :
  storage_download env storage_path = inr response ->
  falsy response = false ->
  pdf_reader env (payload response) = inr pages ->
  extract_pages pages [] = inr full_text ->
  split (clean_text full_text) = [] ->
  (0 < fuel)%nat ->
  process_document_rag env document_id user_id chat_id storage_path fuel w
  = (Some {| success := true; page_count := len pages; total_chunks := 0;
             error := None |}, w)
  /\ forall St (h : list PageChunk -> M St unit) (st : St),
      extract_and_process_pdf (pdf_reader env) h fuel (payload response)
                              {| chunkSize := 250; overlap := 30 |} st
      = (Ret (len pages), st).
Proof.
  intros Hd Hf Hr Hp Hw Hfuel. split.
  - unfold process_document_rag.
    rewrite (process_document_body_run _ _ _ _ _ Hd Hf Hr Hp)
      by (rewrite Hw; simpl; lia).
    unfold document_batches. rewrite Hw. reflexivity.
  - intros St h st.
    rewrite (extract_run _ _ _ _ _ _ _ _ _ Hr Hp) by (rewrite ?Hw; simpl; lia).
    rewrite Hw. reflexivity.
Qed.

(** With enough fuel every run returns a result: no exception leaves
    [process_document_rag], and its loop ends. *)
Lemma process_document_rag_returns (w : World Embedding) :
  exists fuel0, forall fuel, (fuel0 <= fuel)%nat ->
    exists r, fst (process_document_rag env document_id user_id chat_id storage_path fuel w) = Some r.
Proof.
  unfold process_document_rag.
  destruct (storage_download env storage_path) as [e|response] eqn:Hd.
  { exists O. intros fuel _. unfold process_document_body. rewrite Hd.
    simpl. eauto. }
  destruct (falsy response) eqn:Hf.
  { exists O. intros fuel _. unfold process_document_body. rewrite Hd.
    simpl call. unfold bind, ret. rewrite Hf. simpl. eauto. }
  destruct (pdf_reader env (payload response)) as [e|pages] eqn:Hr.
  { exists O. intros fuel _. enter_body Hd Hf. enter_extractor Hr. simpl. eauto. }
  destruct (extract_pages pages []) as [e|full_text] eqn:Hp.
  { exists O. intros fuel _. enter_body Hd Hf. enter_extractor Hr.
    unfold bind at 1, ret at 1. rewrite Hp. simpl. eauto. }
  exists (S (length (split (clean_text full_text)))). intros fuel Hfuel.
  rewrite (process_document_body_run _ _ _ _ _ Hd Hf Hr Hp) by lia.
  assert (Hrun : forall bs st, fst (run_batches (handle_batch env document_id user_id chat_id) bs st) <> Diverge).
  { induction bs as [|b bs IH]; intros st; simpl; [discriminate|].
    unfold bind. pose proof (handler_returns b st) as Hb.
    destruct (handle_batch env document_id user_id chat_id b st) as [[[]|e|] st']; simpl in *;
      [apply IH | discriminate | congruence]. }
  specialize (Hrun (document_batches full_text)
                   {| world := w; total_chunks_processed := 0 |}).
  destruct (run_batches _ _ _) as [[[]|e|] st']; simpl in *; eauto.
  congruence.
Qed.
End Orchestrator.

(* ================================================================= *)
(** ** Tokens and the overlap of adjacent chunks *)

Lemma Forall_firstn {A} (P : A -> Prop) n (l : list A) :
  Forall P l -> Forall P (firstn n l).
Proof.
  intros H. revert n. induction H as [|x l Hx _ IH]; intros [|n]; simpl; auto.
Qed.

Lemma Forall_skipn {A} (P : A -> Prop) n (l : list A) :
  Forall P l -> Forall P (skipn n l).
Proof.
  intros H. revert n. induction H as [|x l Hx Hl IH]; intros [|n]; simpl; auto.
Qed.

Lemma split_go_ok cur s :
  forallb (fun c => negb (isspace c)) cur = true ->
  Forall word_ok (split_go cur s).
Proof.
  revert cur. induction s as [|c t IH]; intros cur Hcur; simpl.
  - destruct cur; constructor; [split; [discriminate | assumption] | constructor].
  - destruct (isspace c) eqn:E.
    + destruct cur; [now apply IH|].
      constructor; [split; [discriminate | assumption] | now apply IH].
    + apply IH. rewrite forallb_app, Hcur. simpl. now rewrite E.
Qed.

Lemma split_ok s : Forall word_ok (split s).
Proof. now apply split_go_ok. Qed.

Lemma split_go_word cur w rest :
  forallb (fun c => negb (isspace c)) w = true ->
  split_go cur (w ++ rest) = split_go (cur ++ w) rest.
Proof.
  revert cur. induction w as [|c w IH]; intros cur H; simpl.
  - now rewrite app_nil_r.
  - simpl in H. apply andb_true_iff in H as [Hc Hw].
    apply negb_true_iff in Hc. rewrite Hc, IH by assumption.
    now rewrite <- app_assoc.
Qed.

(** Joining tokens with single spaces and splitting again gives the tokens
    back. *)
Lemma split_join ws : Forall word_ok ws -> split (join [SP] ws) = ws.
Proof.
  induction 1 as [|w rest [Hne Hw] Hrest IH]; [reflexivity|].
  unfold split in *. destruct rest as [|w' rest'].
  - simpl. rewrite <- (app_nil_r w) at 1. rewrite split_go_word by assumption.
    simpl. destruct w; [contradiction | reflexivity].
  - change (join [SP] (w :: w' :: rest'))
      with (w ++ SP :: join [SP] (w' :: rest')).
    rewrite split_go_word by assumption. simpl app.
    destruct w as [|a w]; [contradiction|].
    cbn [split_go]. rewrite isspace_SP. now rewrite IH.
Qed.

Lemma py_slice_window {A} (l : list A) i N :
  0 <= i -> 0 <= N ->
  py_slice l i (i + N) = firstn (Z.to_nat N) (skipn (Z.to_nat i) l).
Proof.
  intros Hi HN. unfold py_slice, slice_bound.
  destruct (Z.ltb_spec i 0); [lia|]. destruct (Z.ltb_spec (i + N) 0); [lia|].
  set (n := Z.of_nat (length l)).
  destruct (Z.le_gt_cases i n) as [Hle|Hgt].
  - rewrite (Z.min_l i n) by lia.
    destruct (Z.le_gt_cases (i + N) n).
    + rewrite Z.min_l by lia. f_equal. lia.
    + rewrite Z.min_r by lia.
      rewrite !firstn_all2; [reflexivity | |]; rewrite length_skipn; lia.
  - rewrite !skipn_all2 by lia. now rewrite !firstn_nil.
Qed.

Lemma tokens_chunk_at words N i idx :
  Forall word_ok words -> 0 <= i -> 0 <= N ->
  tokens (chunk_at words N i idx)
  = firstn (Z.to_nat N) (skipn (Z.to_nat i) words).
Proof.
  intros Hw Hi HN. unfold tokens, chunk_at. simpl content.
  rewrite split_join; rewrite py_slice_window by assumption; [reflexivity|].
  now apply Forall_firstn, Forall_skipn.
Qed.

(** A window of [N] tokens ends with the [K] tokens that start the next. *)
Lemma overlap_full_window {A} (W : list A) N K i :
  0 <= K < N -> 0 <= i ->
  length (firstn (Z.to_nat N) (skipn (Z.to_nat i) W)) = Z.to_nat N ->
  last_tokens K (firstn (Z.to_nat N) (skipn (Z.to_nat i) W))
  = first_tokens K (firstn (Z.to_nat N) (skipn (Z.to_nat (i + (N - K))) W)).
Proof.
  intros HK Hi Hfull. unfold last_tokens, first_tokens.
  rewrite Hfull, skipn_firstn_comm, skipn_skipn, firstn_firstn.
  replace (Z.to_nat N - (Z.to_nat N - Z.to_nat K))%nat with (Z.to_nat K) by lia.
  replace (Nat.min (Z.to_nat K) (Z.to_nat N)) with (Z.to_nat K) by lia.
  do 2 f_equal. lia.
Qed.

Lemma passes_lt words s j :
  0 < s -> ((j < passes words s 0)%nat <-> Z.of_nat j * s < len words).
Proof.
  intros Hs. unfold passes. rewrite Z.sub_0_r.
  pose proof (proj1 (ceil_div_spec (len words) s _ Hs) eq_refl) as [H1 H2].
  assert (H0 : 0 <= len words) by (unfold len; lia).
  split; intros H; [nia|].
  assert (Z.of_nat j < ceil_div (len words) s) by nia. lia.
Qed.

(** The chunks delivered by a recording run are the windows of the text. *)
Lemma delivered_chunks_windows reader fuel buffer N K pages full_text :
  reader buffer = inr pages ->
  extract_pages pages [] = inr full_text ->
  0 <= K < N ->
  (length (split (clean_text full_text)) < fuel)%nat ->
  delivered_chunks reader fuel buffer N K
  = windows (split (clean_text full_text)) N (N - K)
            (passes (split (clean_text full_text)) (N - K) 0) 0 0.
Proof.
  intros Hr Hp HK Hf. unfold delivered_chunks.
  rewrite (extract_record reader fuel buffer N K pages full_text [] Hr Hp HK Hf).
  simpl snd. now rewrite batches_concat.
Qed.

Lemma delivered_chunks_nth reader fuel buffer N K pages full_text j c :
  reader buffer = inr pages ->
  extract_pages pages [] = inr full_text ->
  0 <= K < N ->
  (length (split (clean_text full_text)) < fuel)%nat ->
  nth_error (delivered_chunks reader fuel buffer N K) j = Some c ->
  Z.of_nat j * (N - K) < len (split (clean_text full_text))
  /\ tokens c = firstn (Z.to_nat N)
                       (skipn (Z.to_nat (Z.of_nat j * (N - K)))
                              (split (clean_text full_text))).
Proof.
  intros Hr Hp HK Hf Hj.
  rewrite (delivered_chunks_windows _ _ _ _ _ _ _ Hr Hp HK Hf) in Hj.
  assert (Hlt : (j < passes (split (clean_text full_text)) (N - K) 0)%nat).
  { assert (Hsome : nth_error
                        (windows (split (clean_text full_text)) N (N - K)
                           (passes (split (clean_text full_text)) (N - K) 0) 0 0) j
                      <> None) by congruence.
    apply nth_error_Some in Hsome. now rewrite windows_length in Hsome. }
  rewrite windows_nth in Hj by assumption. injection Hj as <-.
  split; [apply passes_lt; [lia | assumption]|].
  apply tokens_chunk_at; [apply split_ok | nia | lia].
Qed.

(** C4 (amended). For adjacent chunks [c_i], [c_(i+1)] of one run with
    [0 <= K < N], the last [K] tokens of [c_i] are the first [K] tokens of
    [c_(i+1)] exactly when [c_i] holds [N] tokens. *)
Theorem adjacent_chunks_overlap reader fuel buffer N K pages full_text j c c' :
  reader buffer = inr pages ->
  extract_pages pages [] = inr full_text ->
  0 <= K < N ->
  (length (split (clean_text full_text)) < fuel)%nat ->
  nth_error (delivered_chunks reader fuel buffer N K) j = Some c ->
  nth_error (delivered_chunks reader fuel buffer N K) (S j) = Some c' ->
  (last_tokens K (tokens c) = first_tokens K (tokens c') <-> len (tokens c) = N).
Proof.
  intros Hr Hp HK Hf Hc Hc'.
  destruct (delivered_chunks_nth _ _ _ _ _ _ _ _ _ Hr Hp HK Hf Hc) as [Hj Ht].
  destruct (delivered_chunks_nth _ _ _ _ _ _ _ _ _ Hr Hp HK Hf Hc') as [Hj' Ht'].
  set (W := split (clean_text full_text)) in *.
  set (i := Z.of_nat j * (N - K)) in *.
  assert (Hi : 0 <= i) by (unfold i; nia).
  assert (Hi' : Z.of_nat (S j) * (N - K) = i + (N - K)) by (unfold i; lia).
  rewrite Hi' in *. rewrite Ht, Ht'. split.
  - (* a short chunk and its successor end at the same token *)
    intros Heq. apply (f_equal (@length str)) in Heq.
    unfold last_tokens, first_tokens, len in *.
    rewrite length_skipn, !length_firstn, !length_skipn in Heq.
    rewrite length_firstn, length_skipn. lia.
  - intros Hfull. apply overlap_full_window; [assumption..|].
    unfold len in Hfull. lia.
Qed.

(** When the overlap is at most half the window, as with the 250 and 30 of
    the pipeline, only the final chunk can follow a short one, and the
    overlap holds as the specification states it. *)
Lemma stated_overlap_small_overlap reader fuel buffer N K pages full_text :
  reader buffer = inr pages ->
  extract_pages pages [] = inr full_text ->
  0 <= K < N ->
  2 * K <= N ->
  (length (split (clean_text full_text)) < fuel)%nat ->
  stated_overlap N K (delivered_chunks reader fuel buffer N K).
Proof.
  intros Hr Hp HK H2 Hf j c c' Hc Hc'.
  destruct (delivered_chunks_nth _ _ _ _ _ _ _ _ _ Hr Hp HK Hf Hc) as [Hj Ht].
  destruct (delivered_chunks_nth _ _ _ _ _ _ _ _ _ Hr Hp HK Hf Hc') as [Hj' Ht'].
  set (W := split (clean_text full_text)) in *.
  set (i := Z.of_nat j * (N - K)) in *.
  assert (Hi : 0 <= i) by (unfold i; nia).
  assert (Hi' : Z.of_nat (S j) * (N - K) = i + (N - K)) by (unfold i; lia).
  rewrite Hi' in *.
  destruct (Z.le_gt_cases (i + N) (len W)) as [Hfull|Hshort].
  - right. rewrite Ht, Ht'. apply overlap_full_window; [assumption..|].
    rewrite length_firstn, length_skipn. unfold len in Hfull. lia.
  - left. split.
    + destruct (nth_error (delivered_chunks reader fuel buffer N K) (S (S j)))
        as [c''|] eqn:Hc''.
      * destruct (delivered_chunks_nth _ _ _ _ _ _ _ _ _ Hr Hp HK Hf Hc'')
          as [Hj'' _].
        fold W in Hj''. lia.
      * apply nth_error_None in Hc''.
        assert (S j < length (delivered_chunks reader fuel buffer N K))%nat
          by (apply nth_error_Some; congruence).
        lia.
    + rewrite Ht'. unfold len in *. rewrite length_firstn, length_skipn. lia.
Qed.

(* ================================================================= *)
(** ** Examples, counterexamples and instances *)

Example clean_text_ex1 :
  clean_text (lit ("  a  " ++ tab ++ " b " ++ nl ++ "  " ++ nl ++ " " ++ nl ++ " c  " ++ nl)%string)
  = lit ("a b " ++ nl ++ " c")%string.
Proof. vm_compute. reflexivity. Qed.

Example split_ex1 :
  split (lit ("a b " ++ nl ++ " c")%string) = [lit "a"; lit "b"; lit "c"].
Proof. vm_compute. reflexivity. Qed.

(** The 600-word document of the specification: windows start at 0, 220 and
    440, and the three chunks leave as one batch. *)
Example six_hundred_words :
  map (fun b => map chunk_index b)
      (snd (extract_and_process_pdf (one_page_reader (text_of_words 600))
              record_batch 700 pdf_bytes {| chunkSize := 250; overlap := 30 |} []))
  = [[0; 1; 2]].
Proof. vm_compute. reflexivity. Qed.

(** C1, as stated, fails: a document of one word gives one chunk, where the
    stated count [ceil(max(M - K, 0) / (N - K))] is 0. *)
Lemma stated_chunk_count_fails :
  len (split (clean_text (lit "hello" ++ [LF]))) = 1
  /\ len (delivered_chunks (one_page_reader (lit "hello")) 5 pdf_bytes 250 30) = 1
  /\ stated_chunk_count 1 250 30 = 0
  /\ len (delivered_chunks (one_page_reader (lit "hello")) 5 pdf_bytes 250 30)
     <> stated_chunk_count (len (split (clean_text (lit "hello" ++ [LF])))) 250 30.
Proof. vm_compute. repeat split; discriminate. Qed.

Lemma chunk_count_and_indices_witness :
  len (delivered_chunks (one_page_reader (text_of_words 7)) 10 pdf_bytes 3 1) = 4
  /\ map chunk_index (delivered_chunks (one_page_reader (text_of_words 7)) 10 pdf_bytes 3 1)
     = [0; 1; 2; 3].
Proof.
  destruct (chunk_count_and_indices
              (one_page_reader (text_of_words 7)) 10 pdf_bytes 3 1
              [{| extract_text := inr (text_of_words 7) |}]
              (text_of_words 7 ++ [LF])
              eq_refl eq_refl ltac:(lia)
              ltac:(apply Nat.ltb_lt; vm_compute; reflexivity))
    as (Hn & _ & Hi).
  split.
  - rewrite Hn. vm_compute. reflexivity.
  - rewrite Hi. vm_compute. reflexivity.
Defined.

(** C2, as stated, fails: the provider answers one text with two vectors,
    the batch step returns and the row of the batch is in the table. *)
Lemma surplus_embeddings_are_stored :
  let chunk := {| page_number := 0; chunk_index := 0; content := lit "hello" |} in
  let env := demo_env (inr (Some pdf_bytes)) [] answer_surplus in
  exists response items w',
    requests_post env empty_world (map content [chunk]) = inr response
    /\ json_data response = Some items
    /\ length items = 2%nat
    /\ length items <> length (map content [chunk])
    /\ handle_batch_processing env [chunk] doc_id usr_id cht_id empty_world
       = (Ret tt, w')
    /\ length (document_chunks w') = 1%nat.
Proof.
  cbv zeta. do 3 eexists.
  split; [reflexivity|]. split; [reflexivity|]. split; [reflexivity|].
  split; [discriminate|]. split; [vm_compute; reflexivity | reflexivity].
Qed.

Lemma short_embedding_response_fails_witness :
  let chunks := [{| page_number := 0; chunk_index := 0; content := lit "hello" |};
                 {| page_number := 0; chunk_index := 1; content := lit "world" |}] in
  let env := demo_env (inr (Some pdf_bytes)) [] answer_short in
  exists e w',
    handle_batch_processing env chunks doc_id usr_id cht_id empty_world = (Raise e, w')
    /\ document_chunks w' = document_chunks empty_world
    /\ insert_requests w' = insert_requests empty_world.
Proof.
  cbv zeta.
  exact (short_embedding_response_fails
           vec (demo_env (inr (Some pdf_bytes)) [] answer_short)
           [{| page_number := 0; chunk_index := 0; content := lit "hello" |};
            {| page_number := 0; chunk_index := 1; content := lit "world" |}]
           doc_id usr_id cht_id empty_world
           (response_of [Some [1; 2; 3]]) [Some [1; 2; 3]]
           eq_refl eq_refl (le_n 2)).
Defined.

(** Twelve chunks are built, and leave in batches of 5, 5 and 2. *)
Lemma batch_sizes_witness :
  passes (split (clean_text (text_of_words 12 ++ [LF]))) (2 - 1) 0 = 12%nat
  /\ map (@length PageChunk)
         (snd (extract_and_process_pdf (one_page_reader (text_of_words 12))
                 record_batch 20 pdf_bytes {| chunkSize := 2; overlap := 1 |} []))
     = [5; 5; 2]%nat.
Proof.
  destruct (batch_sizes
              (one_page_reader (text_of_words 12)) 20 pdf_bytes 2 1
              [{| extract_text := inr (text_of_words 12) |}]
              (text_of_words 12 ++ [LF])
              eq_refl eq_refl ltac:(lia)
              ltac:(apply Nat.ltb_lt; vm_compute; reflexivity))
    as (_ & _ & _ & _ & _ & _ & Hs).
  split; [vm_compute; reflexivity|].
  rewrite Hs. vm_compute. reflexivity.
Defined.

(** C4, as stated, fails: with a window of 4 and an overlap of 3, the six
    tokens a..f give six chunks; the chunks of index 3 and 4 are [d e f] and
    [e f], neither is the final chunk, and they do not share 3 tokens. *)
Lemma stated_overlap_fails :
  ~ stated_overlap 4 3
      (delivered_chunks (one_page_reader (lit "a b c d e f")) 10 pdf_bytes 4 3).
Proof.
  intros H.
  specialize (H 3%nat
                {| page_number := 0; chunk_index := 3; content := lit "d e f" |}
                {| page_number := 0; chunk_index := 4; content := lit "e f" |}
                eq_refl eq_refl).
  destruct H as [[H _]|H]; vm_compute in H; discriminate.
Qed.

Lemma adjacent_chunks_overlap_witness :
  last_tokens 3 (tokens {| page_number := 0; chunk_index := 0;
                           content := lit "a b c d" |})
  = first_tokens 3 (tokens {| page_number := 0; chunk_index := 1;
                              content := lit "b c d e" |}).
Proof.
  exact (proj2 (adjacent_chunks_overlap
           (one_page_reader (lit "a b c d e f")) 10 pdf_bytes 4 3
           [{| extract_text := inr (lit "a b c d e f") |}]
           (lit "a b c d e f" ++ [LF]) 0
           {| page_number := 0; chunk_index := 0; content := lit "a b c d" |}
           {| page_number := 0; chunk_index := 1; content := lit "b c d e" |}
           eq_refl eq_refl ltac:(lia)
           ltac:(apply Nat.ltb_lt; vm_compute; reflexivity)
           eq_refl eq_refl) eq_refl).
Defined.

Lemma chunk_loop_terminates_witness :
  fst (chunk_loop record_batch [lit "a"; lit "b"; lit "c"] 3 1 4 0 0 [] [])
  <> Diverge.
Proof.
  destruct (chunk_loop_terminates record_batch [lit "a"; lit "b"; lit "c"] 3 1 []
              ltac:(lia) ltac:(intros; discriminate)) as [_ H].
  apply (H 4%nat). simpl. lia.
Defined.

Lemma stage_failure_is_reported_witness :
  exists fuel0, forall fuel, (fuel0 <= fuel)%nat ->
    process_document_rag env_unreachable doc_id usr_id cht_id pdf_path fuel empty_world
    = (Some (failed (Exception (lit "Batch embedding failed"))),
       {| embed_requests := [[lit "hello world"]];
          insert_requests := [];
          document_chunks := [] |}).
Proof.
  exact (stage_failure_is_reported
           vec env_unreachable doc_id usr_id cht_id pdf_path empty_world _ _
           (@batch_raises vec env_unreachable doc_id usr_id cht_id pdf_path empty_world
              (Some pdf_bytes)
              [{| extract_text := inr (lit "hello world") |}]
              (lit "hello world" ++ [LF])
              []
              [{| page_number := 0; chunk_index := 0; content := lit "hello world" |}]
              []
              {| world := empty_world; total_chunks_processed := 0 |}
              (Exception (lit "Batch embedding failed"))
              {| world := {| embed_requests := [[lit "hello world"]];
                             insert_requests := [];
                             document_chunks := [] |};
                 total_chunks_processed := 0 |}
              eq_refl eq_refl eq_refl eq_refl eq_refl eq_refl eq_refl)).
Defined.

Lemma empty_download_fails_witness :
  process_document_rag env_no_download doc_id usr_id cht_id pdf_path 0 empty_world
  = (Some {| success := false; page_count := 0; total_chunks := 0;
             error := Some (lit "Download failed" ++ lit ": No data returned") |},
     empty_world).
Proof.
  exact (empty_download_fails vec env_no_download doc_id usr_id cht_id pdf_path
                              empty_world None 0 eq_refl eq_refl).
Defined.

Lemma failure_keeps_stored_batches_witness :
  exists w' rows,
    process_document_rag env_second_batch_fails doc_id usr_id cht_id pdf_path
                         1200 empty_world
    = (Some (failed (Exception (lit "Batch embedding failed"))), w')
    /\ document_chunks w' = rows
    /\ map (@row_chunk_index vec) rows = [0; 1; 2; 3; 4].
Proof.
  pose (full_text := text_of_words 1101 ++ [LF]).
  pose (st0 := {| world := empty_world; total_chunks_processed := 0 |}).
  pose (pre := firstn 1 (document_batches full_text)).
  pose (b := nth 1 (document_batches full_text) []).
  pose (st1 := snd (run_batches (handle_batch env_second_batch_fails doc_id usr_id cht_id)
                                pre st0)).
  pose (st2 := snd (handle_batch env_second_batch_fails doc_id usr_id cht_id b st1)).
  destruct (failure_keeps_stored_batches
              vec env_second_batch_fails doc_id usr_id cht_id pdf_path empty_world
              (Some pdf_bytes) [{| extract_text := inr (text_of_words 1101) |}]
              full_text pre b [] st1
              (Exception (lit "Batch embedding failed")) st2 1200%nat
              eq_refl eq_refl eq_refl eq_refl
              ltac:(vm_compute; reflexivity)
              ltac:(vm_compute; discriminate)
              ltac:(vm_compute; reflexivity)
              ltac:(vm_compute; reflexivity)
              ltac:(apply Nat.ltb_lt; vm_compute; reflexivity))
    as (w' & rows & Hrun & Hdoc & Hidx & _).
  exists w', rows. split; [exact Hrun|]. split; [exact Hdoc|].
  rewrite Hidx. vm_compute. reflexivity.
Defined.

Lemma empty_text_succeeds_witness :
  process_document_rag env_blank_page doc_id usr_id cht_id pdf_path 1 empty_world
  = (Some {| success := true; page_count := 1; total_chunks := 0; error := None |},
     empty_world).
Proof.
  exact (proj1 (empty_text_succeeds
                  vec env_blank_page doc_id usr_id cht_id pdf_path empty_world
                  (Some pdf_bytes) [{| extract_text := inr (lit "   ") |}]
                  (lit "   " ++ [LF]) 1
                  eq_refl eq_refl eq_refl eq_refl eq_refl (le_n 1))).
Defined.


(* ================================================================= *)
(** * Further properties *)

(** ** Cleaning and tokens *)

Lemma split_go_space cur c t :
  isspace c = true -> split_go cur (c :: t) = flush cur ++ split_go [] t.
Proof. intros H. simpl. rewrite H. destruct cur; reflexivity. Qed.

Lemma split_go_other cur c t :
  isspace c = false -> split_go cur (c :: t) = split_go (cur ++ [c]) t.
Proof. intros H. simpl. now rewrite H. Qed.

Lemma split_go_skipn n t :
  (n <= length (take_while isspace t))%nat ->
  split_go [] (skipn n t) = split_go [] t.
Proof.
  revert t. induction n as [|n IH]; intros [|c t] Hn; try reflexivity.
  simpl in Hn. destruct (isspace c) eqn:E; simpl in Hn; [|lia].
  rewrite (split_go_space [] c t E). simpl. apply IH. lia.
Qed.

Lemma split_go_drop_while p t :
  (forall c, p c = true -> isspace c = true) ->
  split_go [] (drop_while p t) = split_go [] t.
Proof.
  intros Hp. induction t as [|c t IH]; [reflexivity|].
  simpl drop_while. destruct (p c) eqn:E; [|reflexivity].
  now rewrite (split_go_space [] c t (Hp c E)).
Qed.

Lemma split_go_spaces cur w :
  forallb isspace w = true -> split_go cur w = flush cur.
Proof.
  revert cur. induction w as [|c w IH]; intros cur H; [destruct cur; reflexivity|].
  simpl in H. apply andb_true_iff in H as [Hc Hw].
  rewrite (split_go_space cur c w Hc), (IH [] Hw). simpl. apply app_nil_r.
Qed.

Lemma split_go_trailing cur a w :
  forallb isspace w = true -> split_go cur (a ++ w) = split_go cur a.
Proof.
  intros Hw. revert cur. induction a as [|c a IH]; intros cur.
  - simpl app. rewrite (split_go_spaces cur w Hw). destruct cur; reflexivity.
  - rewrite <- app_comm_cons. destruct (isspace c) eqn:E.
    + now rewrite !(split_go_space cur c _ E), IH.
    + now rewrite !(split_go_other cur c _ E), IH.
Qed.

Lemma split_go_sub_hspace cur s :
  split_go cur (re_sub match_hspaces [SP] s) = split_go cur s.
Proof.
  remember (length s) as n eqn:Hn. revert cur s Hn.
  induction n as [n IH] using lt_wf_ind. intros cur [|c t] Hn; [reflexivity|].
  simpl in Hn. destruct (hspace c) eqn:E.
  - rewrite sub_hspace_run by assumption.
    rewrite (split_go_space cur SP _ isspace_SP).
    rewrite (split_go_space cur c t (hspace_isspace c E)). f_equal.
    rewrite (IH (length (drop_while hspace t))); [| |reflexivity].
    + apply split_go_drop_while, hspace_isspace.
    + pose proof (drop_while_length hspace t). lia.
  - rewrite sub_hspace_other by assumption.
    destruct (isspace c) eqn:Ec.
    + rewrite !(split_go_space cur c _ Ec). f_equal.
      apply (IH (length t)); [lia | reflexivity].
    + rewrite !(split_go_other cur c _ Ec).
      apply (IH (length t)); [lia | reflexivity].
Qed.

Lemma split_go_sub_blank cur s :
  split_go cur (re_sub match_blank_lines [LF] s) = split_go cur s.
Proof.
  remember (length s) as n eqn:Hn. revert cur s Hn.
  induction n as [n IH] using lt_wf_ind. intros cur [|c t] Hn; [reflexivity|].
  simpl in Hn.
  destruct (match_blank_lines (c :: t)) as [k|] eqn:E.
  - pose proof (match_blank_lines_LF _ _ _ E) as ->.
    rewrite match_blank_lines_cons in E. simpl in E.
    destruct (last_newline (take_while isspace t)) as [j|] eqn:Ej; [|discriminate].
    rewrite (@sub_blank_match _ _ j) by auto.
    rewrite !(split_go_space cur LF _ isspace_LF). f_equal.
    rewrite (IH (length (skipn (S j) t))); [| |reflexivity].
    + apply split_go_skipn. pose proof (last_newline_lt _ _ Ej). lia.
    + rewrite length_skipn. lia.
  - rewrite re_sub_no_match by assumption.
    destruct (isspace c) eqn:Ec.
    + rewrite !(split_go_space cur c _ Ec). f_equal.
      apply (IH (length t)); [lia | reflexivity].
    + rewrite !(split_go_other cur c _ Ec).
      apply (IH (length t)); [lia | reflexivity].
Qed.

Lemma forallb_take_while {A} (p : A -> bool) l : forallb p (take_while p l) = true.
Proof.
  induction l as [|x l IH]; [reflexivity|].
  simpl. destruct (p x) eqn:E; [simpl; now rewrite E | reflexivity].
Qed.

Lemma forallb_rev {A} (p : A -> bool) l : forallb p (rev l) = forallb p l.
Proof.
  induction l as [|x l IH]; [reflexivity|].
  simpl. rewrite forallb_app, IH. simpl. rewrite andb_true_r. apply andb_comm.
Qed.

Lemma rstrip_decompose s :
  exists w, s = rstrip s ++ w /\ forallb isspace w = true.
Proof.
  exists (rev (take_while isspace (rev s))). split.
  - unfold rstrip. rewrite <- rev_app_distr, take_drop_while.
    now rewrite rev_involutive.
  - rewrite forallb_rev. apply forallb_take_while.
Qed.

Lemma split_strip s : split (strip s) = split s.
Proof.
  unfold split, strip.
  destruct (rstrip_decompose (lstrip s)) as [w [Hw Hs]].
  rewrite <- (split_go_drop_while isspace s (fun c H => H)).
  fold (lstrip s). rewrite Hw at 2. now rewrite split_go_trailing.
Qed.

Lemma split_clean (x : str) : split (clean_text x) = split x.
Proof.
  unfold clean_text. rewrite split_strip. unfold split.
  now rewrite split_go_sub_blank, split_go_sub_hspace.
Qed.

(** X1. Cleaning does not change the tokens: the words the chunker cuts
    into windows are the white-space-delimited words of the raw text. *)
Theorem split_clean_text (x : str) : split (clean_text x) = split x.
Proof.
  unfold clean_text. rewrite split_strip. unfold split.
  now rewrite split_go_sub_blank, split_go_sub_hspace.
Qed.

Lemma split_go_nil cur s :
  split_go cur s = [] <-> cur = [] /\ forallb isspace s = true.
Proof.
  revert cur. induction s as [|c s IH]; intros cur.
  - simpl. destruct cur; split; intros H; try tauto; try discriminate.
    destruct H; discriminate.
  - destruct (isspace c) eqn:E.
    + rewrite (split_go_space cur c s E). simpl forallb. rewrite E. simpl.
      destruct cur as [|a cur]; simpl.
      * rewrite IH. tauto.
      * split; [discriminate | intros [H _]; discriminate].
    + rewrite (split_go_other cur c s E), IH. simpl forallb. rewrite E. simpl.
      split; [intros [H _]; destruct cur; discriminate | intros [_ H]; discriminate].
Qed.

Lemma split_nil s : split s = [] <-> forallb isspace s = true.
Proof. unfold split. rewrite split_go_nil. tauto. Qed.

Lemma strip_head s :
  match strip s with
  | [] => True
  | c :: _ => isspace c = false
  end.
Proof.
  unfold strip. pose proof (lstrip_head s) as Hh.
  destruct (rstrip_prefix (lstrip s)) as [w Hw].
  destruct (rstrip (lstrip s)) as [|c u]; [exact I|].
  rewrite Hw in Hh. exact Hh.
Qed.

Lemma drop_while_head {A} (p : A -> bool) l :
  match drop_while p l with
  | [] => True
  | c :: _ => p c = false
  end.
Proof.
  induction l as [|x l IH]; simpl; [exact I|].
  destruct (p x) eqn:E; [exact IH | exact E].
Qed.

Lemma strip_last s a c : strip s = a ++ [c] -> isspace c = false.
Proof.
  unfold strip, rstrip. intros H.
  apply (f_equal (@rev char)) in H. rewrite rev_involutive, rev_app_distr in H.
  simpl in H. pose proof (drop_while_head isspace (rev (lstrip s))) as Hh.
  now rewrite H in Hh.
Qed.

(** X2. Cleaning gives the empty string exactly on the texts made of white
    space only (the empty text among them). *)
Theorem clean_text_empty_iff_blank (x : str) :
  clean_text x = [] <-> forallb isspace x = true.
Proof.
  rewrite <- split_nil, <- split_clean. split.
  - intros ->. reflexivity.
  - intros H. apply split_nil in H.
    pose proof (strip_head (re_sub match_blank_lines [LF]
                                   (re_sub match_hspaces [SP] x))) as Hh.
    fold (clean_text x) in Hh.
    destruct (clean_text x) as [|c u]; [reflexivity|].
    simpl in H. rewrite Hh in H. discriminate.
Qed.

Lemma re_sub_hspace_length s :
  (length (re_sub match_hspaces [SP] s) <= length s)%nat.
Proof.
  remember (length s) as n eqn:Hn. revert s Hn.
  induction n as [n IH] using lt_wf_ind. intros [|c t] Hn; [simpl; lia|].
  simpl in Hn. destruct (hspace c) eqn:E.
  - rewrite sub_hspace_run by assumption. simpl.
    pose proof (drop_while_length hspace t).
    pose proof (IH (length (drop_while hspace t)) ltac:(lia) _ eq_refl). lia.
  - rewrite sub_hspace_other by assumption. simpl.
    pose proof (IH (length t) ltac:(lia) _ eq_refl). lia.
Qed.

Lemma re_sub_blank_length s :
  (length (re_sub match_blank_lines [LF] s) <= length s)%nat.
Proof.
  remember (length s) as n eqn:Hn. revert s Hn.
  induction n as [n IH] using lt_wf_ind. intros [|c t] Hn; [simpl; lia|].
  simpl in Hn.
  destruct (match_blank_lines (c :: t)) as [k|] eqn:E.
  - pose proof (match_blank_lines_LF _ _ _ E) as ->.
    rewrite match_blank_lines_cons in E. simpl in E.
    destruct (last_newline (take_while isspace t)) as [j|] eqn:Ej; [|discriminate].
    rewrite (@sub_blank_match _ _ j) by auto.
    pose proof (IH (length (skipn (S j) t))
                   ltac:(rewrite length_skipn; lia) _ eq_refl) as H.
    rewrite length_skipn in H. cbn [length]. lia.
  - rewrite re_sub_no_match by assumption. simpl.
    pose proof (IH (length t) ltac:(lia) _ eq_refl). lia.
Qed.

Lemma strip_length s : (length (strip s) <= length s)%nat.
Proof.
  unfold strip, rstrip, lstrip. rewrite length_rev.
  pose proof (drop_while_length isspace (rev (drop_while isspace s))) as H.
  rewrite length_rev in H. pose proof (drop_while_length isspace s). lia.
Qed.

(** X3. A cleaned text is never longer than the raw text. *)
Theorem clean_text_length (x : str) : (length (clean_text x) <= length x)%nat.
Proof.
  unfold clean_text.
  pose proof (strip_length (re_sub match_blank_lines [LF]
                                   (re_sub match_hspaces [SP] x))).
  pose proof (re_sub_blank_length (re_sub match_hspaces [SP] x)).
  pose proof (re_sub_hspace_length x). lia.
Qed.

Lemma single_spaced_app a b :
  single_spaced (a ++ b) = true -> single_spaced b = true.
Proof.
  induction a as [|c a IH]; [auto|].
  simpl. intros H. apply andb_true_iff in H as [_ H]. auto.
Qed.

Lemma no_blank_lines_app a b :
  no_blank_lines (a ++ b) = true -> no_blank_lines b = true.
Proof.
  induction a as [|c a IH]; [auto|].
  simpl app. rewrite no_blank_lines_cons.
  destruct (match_blank_lines (c :: a ++ b)); [discriminate | auto].
Qed.

Lemma last_newline_app_LF w r : last_newline (w ++ LF :: r) <> None.
Proof.
  induction w as [|c w IH]; simpl.
  - destruct (last_newline r); discriminate.
  - destruct (last_newline (w ++ LF :: r)); [discriminate | contradiction].
Qed.

(** X4. The shape of a cleaned text: it neither starts nor ends with white
    space; its white space is made of spaces, carriage returns and line
    feeds only; no space is followed by another space; and between two line
    feeds there is always a character that is not white space. *)
Theorem clean_text_shape (x : str) :
  (forall c b, clean_text x = c :: b -> isspace c = false)
  /\ (forall a c, clean_text x = a ++ [c] -> isspace c = false)
  /\ (forall c, In c (clean_text x) -> isspace c = true ->
                c = SP \/ c = CR \/ c = LF)
  /\ (forall a b, clean_text x <> a ++ SP :: SP :: b)
  /\ (forall a w b, clean_text x = a ++ LF :: w ++ LF :: b ->
                    forallb isspace w = false).
Proof.
  destruct (clean_text_normal x) as [H1 H2].
  split; [|split; [|split; [|split]]].
  - intros c b E.
    pose proof (strip_head (re_sub match_blank_lines [LF]
                                   (re_sub match_hspaces [SP] x))) as Hh.
    fold (clean_text x) in Hh. now rewrite E in Hh.
  - intros a c E. unfold clean_text in E. now apply strip_last in E.
  - intros c Hin Hc. apply in_split in Hin as (a & b & E).
    rewrite E in H1. apply single_spaced_app in H1. simpl in H1.
    apply andb_true_iff in H1 as [H1 _].
    destruct (hspace c) eqn:Eh.
    + apply andb_true_iff in H1 as [H1 _]. apply N.eqb_eq in H1. now left.
    + right. unfold hspace in Eh. rewrite Hc in Eh. simpl in Eh.
      destruct (N.eqb_spec c CR); [now left|].
      destruct (N.eqb_spec c LF); [now right | discriminate].
  - intros a b E. rewrite E in H1. apply single_spaced_app in H1.
    simpl in H1. discriminate.
  - intros a w b E. rewrite E in H2. apply no_blank_lines_app in H2.
    rewrite no_blank_lines_cons, match_blank_lines_cons in H2. simpl in H2.
    destruct (forallb isspace w) eqn:Ew; [|reflexivity].
    rewrite take_while_app, Ew in H2.
    assert (Ht : take_while isspace w = w).
    { clear -Ew. induction w as [|c w IH]; [reflexivity|].
      simpl in *. apply andb_true_iff in Ew as [-> Hw]. now rewrite IH. }
    rewrite Ht in H2. simpl take_while in H2.
    pose proof (last_newline_app_LF w (take_while isspace b)) as Hn.
    change (isspace LF) with true in H2. cbv iota in H2.
    destruct (last_newline (w ++ LF :: take_while isspace b));
      [discriminate | contradiction].
Qed.

(** ** The text of the pages *)

Lemma extract_pages_ok texts acc :
  extract_pages (map (fun t => {| extract_text := inr t |}) texts) acc
  = inr (acc ++ concat (map (fun t => t ++ [LF]) texts)).
Proof.
  revert acc. induction texts as [|t texts IH]; intros acc; simpl.
  - now rewrite app_nil_r.
  - rewrite IH. now rewrite <- !app_assoc.
Qed.

Lemma extract_pages_raises texts e rest acc :
  extract_pages (map (fun t => {| extract_text := inr t |}) texts
                 ++ {| extract_text := inl e |} :: rest) acc
  = inl e.
Proof.
  revert acc. induction texts as [|t texts IH]; intros acc; simpl; auto.
Qed.

Lemma split_go_break cur a c b :
  isspace c = true ->
  split_go cur (a ++ c :: b) = split_go cur a ++ split_go [] b.
Proof.
  intros Hc. revert cur. induction a as [|d a IH]; intros cur.
  - simpl app. rewrite (split_go_space cur c b Hc). destruct cur; reflexivity.
  - rewrite <- app_comm_cons. destruct (isspace d) eqn:E.
    + rewrite !(split_go_space cur d _ E), IH. now rewrite app_assoc.
    + rewrite !(split_go_other cur d _ E). apply IH.
Qed.

Lemma split_pages texts :
  split (concat (map (fun t => t ++ [LF]) texts)) = concat (map split texts).
Proof.
  induction texts as [|t texts IH]; [reflexivity|].
  simpl. unfold split in *. rewrite <- app_assoc. simpl app.
  now rewrite (split_go_break [] t LF _ isspace_LF), IH.
Qed.

(** X5. When every page gives its text, the words that are chunked are the
    words of the first page, then those of the second, and so on: the line
    feed added after each page keeps the last word of a page apart from the
    first word of the next. *)
Theorem words_of_pages (texts : list str) :
  exists full_text,
    extract_pages (map (fun t => {| extract_text := inr t |}) texts) []
    = inr full_text
    /\ split (clean_text full_text) = concat (map split texts).
Proof.
  eexists. split; [apply extract_pages_ok|].
  rewrite split_clean. simpl app. apply split_pages.
Qed.

(** X6. Extraction is all or nothing: when a page raises, whatever the
    pages before it held, the extractor raises the same exception and has
    not called its handler. *)
Theorem failing_page_stops_extraction {St} reader (h : list PageChunk -> M St unit)
        fuel buffer options texts e rest st :
  reader buffer
  = inr (map (fun t => {| extract_text := inr t |}) texts
         ++ {| extract_text := inl e |} :: rest) ->
  extract_and_process_pdf reader h fuel buffer options st = (Raise e, st).
Proof.
  intros Hr. unfold extract_and_process_pdf.
  rewrite try_reraise, Hr. simpl call. unfold bind at 1, ret at 1.
  now rewrite extract_pages_raises.
Qed.

(** ** The chunks *)

Lemma firstn_plus {A} a b (l : list A) :
  firstn (a + b) l = firstn a l ++ firstn b (skipn a l).
Proof.
  revert l. induction a as [|a IH]; intros [|x l]; simpl;
    rewrite ?firstn_nil; try reflexivity.
  now rewrite IH.
Qed.

Lemma join_split_join ws :
  Forall word_ok ws -> join [SP] (split (join [SP] ws)) = join [SP] ws.
Proof. intros H. now rewrite split_join. Qed.

(** X7. Each chunk handed over is the window it was cut from: the chunk of
    index [j] is on page 0, holds the tokens [j (N-K) .. j (N-K) + N) of the
    text (at least one, at most [N], fewer than [N] only where the text
    ends), and its content is these tokens joined by single spaces. *)
Theorem chunk_is_window reader fuel buffer N K pages full_text j c :
  reader buffer = inr pages ->
  extract_pages pages [] = inr full_text ->
  0 <= K < N ->
  let words := split (clean_text full_text) in
  (length words < fuel)%nat ->
  nth_error (delivered_chunks reader fuel buffer N K) j = Some c ->
  page_number c = 0
  /\ chunk_index c = Z.of_nat j
  /\ tokens c = py_slice words (Z.of_nat j * (N - K)) (Z.of_nat j * (N - K) + N)
  /\ content c = join [SP] (tokens c)
  /\ len (tokens c) = Z.min N (len words - Z.of_nat j * (N - K))
  /\ 1 <= len (tokens c) <= N.
Proof.
  intros Hr Hp HK words Hf Hc.
  destruct (delivered_chunks_nth _ _ _ _ _ _ _ _ _ Hr Hp HK Hf Hc) as [Hj Ht].
  fold words in Hj, Ht.
  rewrite (delivered_chunks_windows _ _ _ _ _ _ _ Hr Hp HK Hf) in Hc.
  fold words in Hc.
  assert (Hlt : (j < passes words (N - K) 0)%nat) by (apply passes_lt; lia).
  rewrite windows_nth in Hc by assumption. injection Hc as Hc.
  assert (H0 : 0 <= Z.of_nat j * (N - K)) by nia.
  assert (Hlen : len (tokens c) = Z.min N (len words - Z.of_nat j * (N - K))).
  { rewrite Ht. unfold len. rewrite length_firstn, length_skipn.
    unfold len in Hj. lia. }
  split; [now subst c|]. split; [now subst c|].
  split; [rewrite Ht; symmetry; apply py_slice_window; lia|].
  split; [|split; [exact Hlen | lia]].
  subst c. unfold tokens, chunk_at. simpl content.
  symmetry. apply join_split_join.
  rewrite py_slice_window by lia.
  apply Forall_firstn, Forall_skipn, split_ok.
Qed.

Lemma windows_cover W N s n i idx :
  Forall word_ok W -> 0 <= i -> 0 < s <= N ->
  concat (map (fun c => first_tokens s (tokens c)) (windows W N s n i idx))
  = firstn (n * Z.to_nat s) (skipn (Z.to_nat i) W).
Proof.
  intros HW Hi Hs. revert i idx Hi. induction n as [|n IH]; intros i idx Hi.
  - reflexivity.
  - simpl windows. simpl map. simpl concat.
    rewrite IH by lia. rewrite tokens_chunk_at by (assumption || lia).
    unfold first_tokens. rewrite firstn_firstn.
    replace (Nat.min (Z.to_nat s) (Z.to_nat N)) with (Z.to_nat s) by lia.
    replace (Z.to_nat (i + s)) with (Z.to_nat s + Z.to_nat i)%nat by lia.
    rewrite <- skipn_skipn. simpl Nat.mul. now rewrite firstn_plus.
Qed.

(** X8. No token is lost: the first [N - K] tokens of each chunk, taken in
    the order of the chunks, are the tokens of the text. *)
Theorem chunks_cover_text reader fuel buffer N K pages full_text :
  reader buffer = inr pages ->
  extract_pages pages [] = inr full_text ->
  0 <= K < N ->
  (length (split (clean_text full_text)) < fuel)%nat ->
  concat (map (fun c => first_tokens (N - K) (tokens c))
              (delivered_chunks reader fuel buffer N K))
  = split (clean_text full_text).
Proof.
  intros Hr Hp HK Hf.
  rewrite (delivered_chunks_windows _ _ _ _ _ _ _ Hr Hp HK Hf).
  rewrite windows_cover by (try apply split_ok; lia).
  simpl skipn. apply firstn_all2.
  set (W := split (clean_text full_text)).
  unfold passes. rewrite Z.sub_0_r.
  pose proof (proj1 (ceil_div_spec (len W) (N - K) _ ltac:(lia)) eq_refl) as [_ H].
  assert (0 <= ceil_div (len W) (N - K)).
  { destruct (Z.eq_dec (len W) 0) as [E|E].
    - rewrite E. unfold ceil_div. simpl. rewrite Z.div_small; lia.
    - pose proof (ceil_div_pos (len W) (N - K) ltac:(lia)
                               ltac:(unfold len in *; lia)). lia. }
  unfold len in *. nia.
Qed.

Lemma chunk_loop_record_stuck words N K fuel i idx buf log :
  N - K <= 0 -> i < len words -> (length buf < 5)%nat ->
  fst (chunk_loop record_batch words N K fuel i idx buf log) = Diverge
  /\ length (snd (chunk_loop record_batch words N K fuel i idx buf log))
     = (length log + (length buf + fuel) / 5)%nat.
Proof.
  intros Hs. revert i idx buf log.
  induction fuel as [|fuel IH]; intros i idx buf log Hi Hb.
  - simpl chunk_loop. unfold diverge. cbn [fst snd]. split; [reflexivity|].
    rewrite Nat.add_0_r, Nat.div_small; lia.
  - simpl chunk_loop. apply Z.ltb_lt in Hi as Hi'. rewrite Hi'.
    set (c := {| page_number := 0; chunk_index := idx;
                 content := join [SP] (py_slice words i (i + N)) |}).
    destruct (len (buf ++ [c]) >=? 5) eqn:E;
      rewrite Z.geb_leb in E; unfold len in E; rewrite length_app in E;
      simpl length in E.
    + apply Z.leb_le in E. unfold bind.
      change (record_batch (buf ++ [c]) log) with (@Ret unit tt, log ++ [buf ++ [c]]).
      cbv beta iota.
      destruct (IH (i + (N - K)) (idx + 1) [] (log ++ [buf ++ [c]])
                   ltac:(lia) ltac:(simpl; lia)) as [H1 H2].
      split; [exact H1|]. rewrite H2, length_app. simpl length.
      assert (length buf = 4%nat) by lia. lia.
    + apply Z.leb_gt in E.
      destruct (IH (i + (N - K)) (idx + 1) (buf ++ [c]) log
                   ltac:(lia) ltac:(rewrite length_app; simpl; lia)) as [H1 H2].
      split; [exact H1|]. rewrite H2, length_app. simpl length.
      f_equal. f_equal. lia.
Qed.

Lemma extract_parsed {St} reader (h : list PageChunk -> M St unit)
      fuel buffer N K pages full_text st :
  reader buffer = inr pages ->
  extract_pages pages [] = inr full_text ->
  extract_and_process_pdf reader h fuel buffer {| chunkSize := N; overlap := K |} st
  = match chunk_loop h (split (clean_text full_text)) N K fuel 0 0 [] st with
    | (Ret [], st') => (Ret (len pages), st')
    | (Ret chunks, st') =>
        match h chunks st' with
        | (Ret _, st'') => (Ret (len pages), st'')
        | (Raise e, st'') => (Raise e, st'')
        | (Diverge, st'') => (Diverge, st'')
        end
    | (Raise e, st') => (Raise e, st')
    | (Diverge, st') => (Diverge, st')
    end.
Proof.
  intros Hr Hp. unfold extract_and_process_pdf.
  rewrite try_reraise, Hr. simpl call. unfold bind at 1, ret at 1.
  rewrite Hp. simpl call. unfold bind at 1, ret at 1.
  simpl chunkSize. simpl overlap. unfold bind at 1.
  destruct (chunk_loop h _ N K fuel 0 0 [] st) as [[[|c chunks]|e|] st'];
    reflexivity.
Qed.

(** X9. With [chunkSize <= overlap] and a text of at least one token the
    extractor never returns: whatever the handler and the fuel, the run
    either raises with its handler or is still looping, and with a handler
    that always returns it is still looping after having handed over one
    batch for every five passes. *)
Theorem extract_never_returns reader buffer N K pages full_text :
  reader buffer = inr pages ->
  extract_pages pages [] = inr full_text ->
  N - K <= 0 ->
  split (clean_text full_text) <> [] ->
  (forall St (h : list PageChunk -> M St unit) fuel st page_count,
      fst (extract_and_process_pdf reader h fuel buffer
                                   {| chunkSize := N; overlap := K |} st)
      <> Ret page_count)
  /\ forall fuel,
      fst (extract_and_process_pdf reader record_batch fuel buffer
                                   {| chunkSize := N; overlap := K |} [])
      = Diverge
      /\ length (snd (extract_and_process_pdf reader record_batch fuel buffer
                                              {| chunkSize := N; overlap := K |} []))
         = (fuel / 5)%nat.
Proof.
  intros Hr Hp Hs Hw.
  assert (H0 : 0 < len (split (clean_text full_text))).
  { destruct (split (clean_text full_text)); [contradiction|].
    unfold len. simpl. lia. }
  split.
  - intros St h fuel st page_count.
    rewrite (extract_parsed reader h fuel buffer N K pages full_text st Hr Hp).
    pose proof (chunk_loop_stuck h (split (clean_text full_text)) N K fuel 0 0 [] st
                                 Hs H0) as Hstuck.
    destruct (chunk_loop h _ N K fuel 0 0 [] st) as [[chunks|e|] st'];
      simpl in *; [now elim (Hstuck chunks) | discriminate | discriminate].
  - intros fuel.
    rewrite (extract_parsed reader record_batch fuel buffer N K pages full_text []
                            Hr Hp).
    destruct (chunk_loop_record_stuck (split (clean_text full_text)) N K fuel 0 0 [] []
                                      Hs H0 ltac:(simpl; lia)) as [H1 H2].
    destruct (chunk_loop record_batch _ N K fuel 0 0 [] []) as [[chunks|e|] log];
      simpl in H1; try discriminate.
    split; [reflexivity | exact H2].
Qed.

(* ================================================================= *)
(** ** The body of the provider's answer *)

Section JsonFacts.
Variable Number : Type.

(** What [json_view] holds: the body can be subscripted with ['data'],
    what is found there can be iterated, and each item is given as its
    ['embedding']. *)
Lemma json_view_some (body : option (json Number)) view :
  json_view body = Some view
  <-> exists data d items,
      body = Some data
      /\ getitem data (lit "data") = Some d
      /\ iterate d = Some items
      /\ view = map (fun item => getitem item (lit "embedding")) items.
Proof.
  unfold json_view. split.
  - destruct body as [data|]; [|discriminate].
    destruct (getitem data (lit "data")) as [d|] eqn:Hd; [|discriminate].
    destruct (iterate d) as [items|] eqn:Hi; [|discriminate].
    intros [= <-]. now exists data, d, items.
  - intros (data & d & items & -> & -> & -> & ->). reflexivity.
Qed.

(** Nothing to iterate: an empty list, an empty dict and an empty string at
    ['data'] all give the view with no item. *)
Lemma json_view_empty (data d : json Number) :
  getitem data (lit "data") = Some d ->
  d = JArray [] \/ d = JObject [] \/ d = JString [] ->
  json_view (Some data) = Some [].
Proof.
  intros Hd H. unfold json_view. rewrite Hd.
  destruct H as [-> | [-> | ->]]; reflexivity.
Qed.

(** The keys of a dict and the characters of a string have no
    ['embedding']: a dict or a string at ['data'] that is not empty gives a
    view whose items are all [None]. *)
Lemma json_view_keys (data d : json Number) items :
  getitem data (lit "data") = Some d ->
  (exists fields, d = JObject fields) \/ (exists s, d = JString s) ->
  json_view (Some data) = Some items ->
  Forall (fun o => o = None) items.
Proof.
  intros Hd H. unfold json_view. rewrite Hd.
  destruct H as [[fields ->] | [s0 ->]]; simpl; intros [= <-];
    apply Forall_forall; intros o Ho; apply in_map_iff in Ho as [x [<- Hx]];
    apply in_map_iff in Hx as [y [<- _]]; reflexivity.
Qed.

(** The view serves the single embedder as well: [data['data'][0]
    ['embedding']] is the first item of the view. *)
Lemma json_view_first (data d : json Number) :
  getitem data (lit "data") = Some d ->
  match getitem_0 d with
  | Some item => getitem item (lit "embedding")
  | None => None
  end
  = match json_view (Some data) with
    | Some (o :: _) => o
    | _ => None
    end.
Proof.
  intros Hd. unfold json_view. rewrite Hd.
  destruct d as [| b | x | [|c s0] | [|item items] | [|[k v] fields]];
    reflexivity.
Qed.

(** Every view is the view of a body: nothing is assumed of the answers by
    stating properties on views. *)
Lemma json_view_body_of (view : option (list (option (json Number)))) :
  json_view (body_of view) = view.
Proof.
  destruct view as [items|]; [|reflexivity].
  unfold body_of, json_view.
  change (getitem (JObject [(lit "data", JArray (map (@item_of Number) items))])
                  (lit "data"))
    with (Some (JArray (map (@item_of Number) items))).
  cbn [iterate]. f_equal. rewrite map_map.
  rewrite <- (map_id items) at 2. apply map_ext.
  intros [e|]; reflexivity.
Qed.
End JsonFacts.

(* ================================================================= *)
(** ** The embedder and the store *)

Section ServiceProperties.
Variable Embedding : Type.
Variable env : Env Embedding.
Variable requests_post_30 : World Embedding -> list str -> exn + Response Embedding.

Lemma embedding_results_inv (items : list (option Embedding)) rs :
  embedding_results items = inr rs ->
  items = map (fun r => Some (embedding r)) rs.
Proof.
  revert rs. induction items as [|[e|] rest IH]; intros rs; simpl.
  - now intros [= <-].
  - destruct (embedding_results rest) as [x|rs']; [discriminate|].
    intros [= <-]. simpl. f_equal. now apply IH.
  - discriminate.
Qed.

Lemma embedding_results_ok (rs : list (EmbeddingResult Embedding)) :
  embedding_results (map (fun r => Some (embedding r)) rs) = inr rs.
Proof.
  induction rs as [|[e] rs IH]; [reflexivity|]. simpl. now rewrite IH.
Qed.

Lemma generate_batch_embeddings_cases texts (w : World Embedding) :
  let out := fst (generate_batch_embeddings env texts w) in
  let w' := snd (generate_batch_embeddings env texts w) in
  w' = match texts with [] => w | _ => with_request texts w end
  /\ match out with
     | Ret rs =>
         (texts = [] /\ rs = [])
         \/ (texts <> []
             /\ exists response,
                 requests_post env w texts = inr response
                 /\ ok response = true
                 /\ json_data response = Some (map (fun r => Some (embedding r)) rs))
     | Raise e =>
         e = Exception (lit "Batch embedding failed")
         /\ texts <> []
         /\ forall response rs,
             requests_post env w texts = inr response ->
             ok response = true ->
             json_data response <> Some (map (fun r => Some (embedding r)) rs)
     | Diverge => False
     end.
Proof.
  destruct texts as [|t ts]; [simpl; auto|].
  cbv zeta.
  destruct (generate_batch_embeddings env (t :: ts) w) as [out w'] eqn:E.
  cbn [fst snd]. revert E.
  unfold generate_batch_embeddings, try_except, bind, log_embed_request, call,
    with_request.
  destruct (requests_post env w (t :: ts)) as [e|response] eqn:Hpost; simpl.
  { intros [= <- <-]. repeat split; discriminate. }
  unfold ret. destruct (ok response) eqn:Hok; simpl.
  2:{ intros [= <- <-]. repeat split; [discriminate|].
      intros r rs [= <-]. congruence. }
  destruct (json_data response) as [items|] eqn:Hj; simpl.
  2:{ intros [= <- <-]. repeat split; [discriminate|].
      intros r rs [= <-] _. congruence. }
  destruct (embedding_results items) as [e|rs] eqn:Hr; simpl; intros [= <- <-].
  - repeat split; [discriminate|].
    intros r rs [= <-] _ Hd. rewrite Hj in Hd. injection Hd as ->.
    rewrite embedding_results_ok in Hr. discriminate.
  - split; [reflexivity|]. right. split; [discriminate|].
    exists response. rewrite Hj, (embedding_results_inv _ _ Hr). auto.
Qed.

(** X10. The batch embedder sends one request with all the texts of a
    non-empty batch and none for an empty batch, and never touches the
    store.  It returns exactly when the provider answered with a success
    status and a body in which ['data'] can be iterated and every item it
    yields has an ['embedding'], and then it returns these embeddings in the
    order of the iteration, as many as there are items, whatever the number
    of texts (an empty list, dict or string gives the empty list); every
    failure is raised as "Batch embedding failed", whatever the provider
    raised or answered. *)
Theorem generate_batch_embeddings_contract texts (w : World Embedding) :
  let out := fst (generate_batch_embeddings env texts w) in
  let w' := snd (generate_batch_embeddings env texts w) in
  w' = match texts with [] => w | _ => with_request texts w end
  /\ match out with
     | Ret rs =>
         (texts = [] /\ rs = [])
         \/ (texts <> []
             /\ exists response,
                 requests_post env w texts = inr response
                 /\ ok response = true
                 /\ json_data response = Some (map (fun r => Some (embedding r)) rs))
     | Raise e =>
         e = Exception (lit "Batch embedding failed")
         /\ texts <> []
         /\ forall response rs,
             requests_post env w texts = inr response ->
             ok response = true ->
             json_data response <> Some (map (fun r => Some (embedding r)) rs)
     | Diverge => False
     end.
Proof. cbv zeta. exact (generate_batch_embeddings_cases texts w). Qed.

(** X11. The single embedder always sends one request, with its text alone,
    and never touches the store.  It returns the embedding of the first
    item of a successful answer and ignores the other items; every failure,
    an empty answer among them, is raised as "Embedding generation
    failed". *)
Theorem generate_embedding_contract text_ (w : World Embedding) :
  let out := fst (generate_embedding requests_post_30 text_ w) in
  let w' := snd (generate_embedding requests_post_30 text_ w) in
  w' = with_request [text_] w
  /\ match out with
     | Ret r =>
         exists response items,
           requests_post_30 w [text_] = inr response
           /\ ok response = true
           /\ json_data response = Some (Some (embedding r) :: items)
     | Raise e =>
         e = Exception (lit "Embedding generation failed")
         /\ forall response r items,
             requests_post_30 w [text_] = inr response ->
             ok response = true ->
             json_data response <> Some (Some r :: items)
     | Diverge => False
     end.
Proof.
  cbv zeta.
  destruct (generate_embedding requests_post_30 text_ w) as [out w'] eqn:E.
  cbn [fst snd]. revert E.
  unfold generate_embedding, try_except, bind, log_embed_request, call,
    with_request.
  destruct (requests_post_30 w [text_]) as [e|response] eqn:Hpost; simpl.
  { intros [= <- <-]. repeat split. discriminate. }
  unfold ret. destruct (ok response) eqn:Hok; simpl.
  2:{ intros [= <- <-]. repeat split.
      intros r e items [= <-]. congruence. }
  destruct (json_data response) as [[|[e|] items]|] eqn:Hj; simpl;
    intros [= <- <-]; (split; [reflexivity|]).
  - split; [reflexivity|]. intros r e items [= <-] _. congruence.
  - exists response, items. rewrite Hj. auto.
  - split; [reflexivity|]. intros r e its [= <-] _. congruence.
  - split; [reflexivity|]. intros r e its [= <-] _. congruence.
Qed.

(** X12. The two embedders send their requests with different timeouts, 30
    and 60 seconds, and read the answer differently: the first item only,
    or every item.  When the provider answers the request of the single
    embedder as it answers the request of the batch embedder for the same
    text, and the batch embedder returns a non-empty list, the single
    embedder returns the head of this list and leaves the same world. *)
Theorem generate_embedding_agrees text_ (w w' : World Embedding) r rs :
  requests_post_30 w [text_] = requests_post env w [text_] ->
  generate_batch_embeddings env [text_] w = (Ret (r :: rs), w') ->
  generate_embedding requests_post_30 text_ w = (Ret r, w').
Proof.
  intros Hsame.
  unfold generate_batch_embeddings, generate_embedding,
    try_except, bind, log_embed_request, call.
  rewrite Hsame.
  destruct (requests_post env w [text_]) as [e|response]; simpl; [discriminate|].
  unfold ret. destruct (ok response); simpl; [|discriminate].
  destruct (json_data response) as [[|[e|] items]|]; simpl; try discriminate.
  destruct (embedding_results items) as [x|rs']; simpl; [discriminate|].
  intros [= <- <- <-]. reflexivity.
Qed.

Lemma store_batch_vectors_cases chunks (w : World Embedding) :
  let out := fst (store_batch_vectors env chunks w) in
  let w' := snd (store_batch_vectors env chunks w) in
  match chunks with
  | [] => out = Ret tt /\ w' = w
  | _ =>
      (out = Ret tt
       /\ w' = with_insert true (map (@row_of Embedding) chunks) w
       /\ table_insert env w (map (@row_of Embedding) chunks) = inr None)
      \/ (out = Raise (Exception (lit "Failed to store vectors"))
          /\ w' = with_insert false (map (@row_of Embedding) chunks) w
          /\ table_insert env w (map (@row_of Embedding) chunks) <> inr None)
  end.
Proof.
  destruct chunks as [|c cs]; [simpl; auto|]. cbv zeta.
  destruct (store_batch_vectors env (c :: cs) w) as [out w'] eqn:E.
  cbn [fst snd]. revert E.
  unfold store_batch_vectors, try_except, bind, log_insert_request, call,
    with_insert.
  destruct (table_insert env w _) as [e|[err|]]; simpl; intros [= <- <-];
    [right | right | left]; repeat split; discriminate.
Qed.

(** X13. The store issues one bulk insert for a non-empty batch, with one
    row per chunk in the order of the batch, and none for an empty batch;
    it never sends anything to the provider.  When it returns the table has
    gained exactly these rows, at its end; when it raises, the message is
    "Failed to store vectors" and the table is as it was. *)
Theorem store_batch_vectors_contract chunks (w : World Embedding) :
  let out := fst (store_batch_vectors env chunks w) in
  let w' := snd (store_batch_vectors env chunks w) in
  match chunks with
  | [] => out = Ret tt /\ w' = w
  | _ =>
      (out = Ret tt
       /\ w' = with_insert true (map (@row_of Embedding) chunks) w
       /\ table_insert env w (map (@row_of Embedding) chunks) = inr None)
      \/ (out = Raise (Exception (lit "Failed to store vectors"))
          /\ w' = with_insert false (map (@row_of Embedding) chunks) w
          /\ table_insert env w (map (@row_of Embedding) chunks) <> inr None)
  end.
Proof. cbv zeta. exact (store_batch_vectors_cases chunks w). Qed.
End ServiceProperties.

(* ================================================================= *)
(** ** One batch, in full *)

Section BatchStep.
Variable Embedding : Type.
Variable env : Env Embedding.
Variables document_id user_id chat_id : str.

Lemma nth_error_skipn {A} (l : list A) n x :
  nth_error l n = Some x -> skipn n l = x :: skipn (S n) l.
Proof.
  revert l. induction n as [|n IH]; intros [|y l] H; try discriminate.
  - now injection H as ->.
  - simpl in H. simpl. now apply IH.
Qed.

Lemma vector_chunks_from_rows idx chunks (embs : list (EmbeddingResult Embedding)) :
  (idx + length chunks <= length embs)%nat ->
  exists vs,
    vector_chunks_from document_id user_id chat_id idx chunks embs = inr vs
    /\ map (@row_of Embedding) vs
       = rows_of_batch document_id user_id chat_id chunks
                       (map (@embedding Embedding) (skipn idx embs))
    /\ length vs = length chunks.
Proof.
  revert idx. induction chunks as [|chunk rest IH]; intros idx Hlen.
  - exists []. simpl. auto.
  - simpl in Hlen. simpl vector_chunks_from.
    destruct (nth_error embs idx) as [r|] eqn:E.
    2:{ apply nth_error_None in E. lia. }
    destruct (IH (S idx) ltac:(lia)) as (vs & Hvs & Hrows & Hl).
    rewrite Hvs. eexists. split; [reflexivity|].
    rewrite (nth_error_skipn _ _ _ E). simpl. split; [|now rewrite Hl].
    unfold rows_of_batch in *. simpl. f_equal. exact Hrows.
Qed.

Lemma handle_batch_processing_unfold chunks (w : World Embedding) :
  handle_batch_processing env chunks document_id user_id chat_id w
  = match generate_batch_embeddings env (map content chunks) w with
    | (Ret rs, w1) =>
        match vector_chunks_from document_id user_id chat_id 0 chunks rs with
        | inl e => (Raise e, w1)
        | inr vs => store_batch_vectors env vs w1
        end
    | (Raise e, w1) => (Raise e, w1)
    | (Diverge, w1) => (Diverge, w1)
    end.
Proof.
  unfold handle_batch_processing. rewrite try_reraise. unfold bind at 1.
  destruct (generate_batch_embeddings env (map content chunks) w)
    as [[rs|e|] w1]; try reflexivity.
  unfold bind, call.
  destruct (vector_chunks_from document_id user_id chat_id 0 chunks rs);
    reflexivity.
Qed.

Lemma handle_batch_processing_cases chunks (w : World Embedding) :
  let run := handle_batch_processing env chunks document_id user_id chat_id w in
  let texts := map content chunks in
  let w1 := with_request texts w in
  match chunks with
  | [] => run = (Ret tt, w)
  | _ =>
      (run = (Raise (Exception (lit "Batch embedding failed")), w1)
       /\ fst (generate_batch_embeddings env texts w)
          = Raise (Exception (lit "Batch embedding failed")))
      \/ (exists rs,
             generate_batch_embeddings env texts w = (Ret rs, w1)
             /\ (length rs < length chunks)%nat
             /\ run = (Raise (Exception (lit "list index out of range")), w1))
      \/ (exists rs rows,
             generate_batch_embeddings env texts w = (Ret rs, w1)
             /\ (length chunks <= length rs)%nat
             /\ rows = rows_of_batch document_id user_id chat_id chunks
                                     (map (@embedding Embedding) rs)
             /\ length rows = length chunks
             /\ ((run = (Ret tt, with_insert true rows w1)
                  /\ table_insert env w1 rows = inr None)
                 \/ (run = (Raise (Exception (lit "Failed to store vectors")),
                            with_insert false rows w1)
                     /\ table_insert env w1 rows <> inr None)))
  end.
Proof.
  cbv zeta. destruct chunks as [|c0 cs]; [reflexivity|].
  set (chunks := c0 :: cs). set (texts := map content chunks).
  pose proof (generate_batch_embeddings_cases Embedding env texts w) as Hg.
  cbv zeta in Hg. destruct Hg as [Hw Hout].
  rewrite handle_batch_processing_unfold. fold texts.
  destruct (generate_batch_embeddings env texts w) as [[rs|e|] w1] eqn:Eg;
    cbn [fst snd] in Hw, Hout; [| |contradiction].
  2:{ left. destruct Hout as [-> _]. subst w1. split; reflexivity. }
  right. subst w1. change (match texts with [] => w | _ => with_request texts w end)
                     with (with_request texts w).
  destruct (Nat.lt_ge_cases (length rs) (length chunks)) as [Hshort|Hlong].
  - left. exists rs. split; [reflexivity|]. split; [assumption|].
    rewrite vector_chunks_from_short by lia. reflexivity.
  - right.
    destruct (vector_chunks_from_rows 0 chunks rs Hlong)
      as (vs & Hvs & Hrows & Hl).
    simpl skipn in Hrows.
    exists rs, (map (@row_of Embedding) vs).
    split; [reflexivity|]. split; [assumption|]. split; [exact Hrows|].
    split; [now rewrite length_map|].
    rewrite Hvs.
    pose proof (store_batch_vectors_cases Embedding env vs (with_request texts w))
      as Hs.
    cbv zeta in Hs.
    destruct vs as [|v vs']; [simpl in Hl; discriminate|].
    destruct (store_batch_vectors env (v :: vs') (with_request texts w))
      as [out w2]; cbn [fst snd] in Hs.
    destruct Hs as [(-> & -> & Hi)|(-> & -> & Hi)]; [left | right]; auto.
Qed.

(** X14. One batch, from the chunks to the table.  An empty batch does
    nothing.  For a non-empty batch one request carries the contents of the
    chunks in order, and then exactly one of three things happens:
    the embedder fails, and the step raises "Batch embedding failed";
    the answer holds fewer vectors than the batch has chunks, and the step
    raises "list index out of range"; or one bulk insert is issued whose
    rows pair each chunk with the vector at its position in the answer
    (vectors past the end of the batch are dropped) under the identifiers of
    the document, and the step returns with these rows appended to the
    table, or raises "Failed to store vectors" with the table as it was. *)
Theorem handle_batch_processing_contract chunks (w : World Embedding) :
  let run := handle_batch_processing env chunks document_id user_id chat_id w in
  let texts := map content chunks in
  let w1 := with_request texts w in
  match chunks with
  | [] => run = (Ret tt, w)
  | _ =>
      (run = (Raise (Exception (lit "Batch embedding failed")), w1)
       /\ fst (generate_batch_embeddings env texts w)
          = Raise (Exception (lit "Batch embedding failed")))
      \/ (exists rs,
             generate_batch_embeddings env texts w = (Ret rs, w1)
             /\ (length rs < length chunks)%nat
             /\ run = (Raise (Exception (lit "list index out of range")), w1))
      \/ (exists rs rows,
             generate_batch_embeddings env texts w = (Ret rs, w1)
             /\ (length chunks <= length rs)%nat
             /\ rows = rows_of_batch document_id user_id chat_id chunks
                                     (map (@embedding Embedding) rs)
             /\ length rows = length chunks
             /\ ((run = (Ret tt, with_insert true rows w1)
                  /\ table_insert env w1 rows = inr None)
                 \/ (run = (Raise (Exception (lit "Failed to store vectors")),
                            with_insert false rows w1)
                     /\ table_insert env w1 rows <> inr None)))
  end.
Proof. cbv zeta. exact (handle_batch_processing_cases chunks w). Qed.
End BatchStep.

(* ================================================================= *)
(** ** Whole runs *)

(** What a handler keeps, the loop keeps: a relation between states that is
    reflexive and transitive, and that every call of the handler on a batch
    of page-0 chunks of at most 5 chunks respects, holds between the state
    before and the state after the extractor, whatever its outcome. *)
Section LoopInvariant.
Variable St : Type.
Variable R : St -> St -> Prop.
Variable h : list PageChunk -> M St unit.
Hypothesis R_refl : forall s, R s s.
Hypothesis R_trans : forall a b c, R a b -> R b c -> R a c.
Hypothesis h_keeps :
  forall b s, Forall (fun c => page_number c = 0) b -> (length b <= 5)%nat ->
              R s (snd (h b s)).

Lemma chunk_loop_keeps words N K fuel i idx buf st :
  Forall (fun c => page_number c = 0) buf -> (length buf < 5)%nat ->
  R st (snd (chunk_loop h words N K fuel i idx buf st))
  /\ match fst (chunk_loop h words N K fuel i idx buf st) with
     | Ret chunks =>
         Forall (fun c => page_number c = 0) chunks /\ (length chunks < 5)%nat
     | _ => True
     end.
Proof.
  revert i idx buf st. induction fuel as [|fuel IH]; intros i idx buf st Hb Hl.
  - simpl. auto.
  - simpl chunk_loop. destruct (i <? len words); [|simpl; auto].
    set (c := {| page_number := 0; chunk_index := idx;
                 content := join [SP] (py_slice words i (i + N)) |}).
    assert (Hb' : Forall (fun c => page_number c = 0) (buf ++ [c])).
    { apply Forall_app. split; [assumption | repeat constructor]. }
    destruct (len (buf ++ [c]) >=? 5) eqn:E;
      rewrite Z.geb_leb in E; unfold len in E; rewrite length_app in E;
      simpl length in E.
    + unfold bind.
      pose proof (h_keeps (buf ++ [c]) st Hb'
                          ltac:(rewrite length_app; simpl; lia)) as Hh.
      destruct (h (buf ++ [c]) st) as [[[]|e|] st1]; simpl in Hh; simpl; auto.
      destruct (IH (i + (N - K)) (idx + 1) [] st1 ltac:(constructor)
                   ltac:(simpl; lia)) as [H1 H2].
      split; [eapply R_trans; eassumption | exact H2].
    + apply Z.leb_gt in E.
      apply IH; [assumption | rewrite length_app; simpl; lia].
Qed.

Lemma extract_keeps reader fuel buffer options st :
  R st (snd (extract_and_process_pdf reader h fuel buffer options st)).
Proof.
  unfold extract_and_process_pdf. rewrite try_reraise.
  destruct (reader buffer) as [e|pages]; [apply R_refl|].
  simpl call. unfold bind at 1, ret at 1.
  destruct (extract_pages pages []) as [e|full_text]; [apply R_refl|].
  simpl call. unfold bind at 1, ret at 1. unfold bind at 1.
  destruct (chunk_loop_keeps (split (clean_text full_text)) (chunkSize options)
                             (overlap options) fuel 0 0 [] st
                             ltac:(constructor) ltac:(simpl; lia)) as [H1 H2].
  destruct (chunk_loop h _ _ _ fuel 0 0 [] st) as [[chunks|e|] st1];
    simpl in H1, H2; simpl; auto.
  destruct H2 as [H2 H3]. unfold bind, ret.
  destruct chunks as [|c chunks]; [exact H1|].
  pose proof (h_keeps (c :: chunks) st1 H2 ltac:(lia)) as Hh.
  destruct (h (c :: chunks) st1) as [[[]|e|] st2]; simpl in Hh; simpl;
    eapply R_trans; eassumption.
Qed.
End LoopInvariant.

Section Runs.
Variable Embedding : Type.
Variable env : Env Embedding.
Variables document_id user_id chat_id storage_path : str.

Lemma extends_refl (w : World Embedding) :
  extends document_id user_id chat_id w w.
Proof.
  exists [], [], []. rewrite !app_nil_r. repeat split; auto.
Qed.

Lemma extends_trans (a b c : World Embedding) :
  extends document_id user_id chat_id a b ->
  extends document_id user_id chat_id b c ->
  extends document_id user_id chat_id a c.
Proof.
  intros (q1 & i1 & r1 & Hq1 & Hi1 & Hr1 & Ht1 & Hl1 & Hn1)
         (q2 & i2 & r2 & Hq2 & Hi2 & Hr2 & Ht2 & Hl2 & Hn2).
  exists (q1 ++ q2), (i1 ++ i2), (r1 ++ r2).
  rewrite Hq2, Hq1, Hi2, Hi1, Hr2, Hr1, <- !app_assoc, !length_app.
  repeat split; try reflexivity; try lia. apply Forall_app. auto.
Qed.

Lemma rows_of_batch_tagged chunks (es : list Embedding) :
  Forall (fun c => page_number c = 0) chunks ->
  Forall (row_tagged document_id user_id chat_id)
         (rows_of_batch document_id user_id chat_id chunks es).
Proof.
  intros H. revert es. induction H as [|c chunks Hc _ IH]; intros [|e es];
    try constructor.
  - repeat split; assumption.
  - apply IH.
Qed.

Lemma handle_batch_processing_extends b (w : World Embedding) :
  Forall (fun c => page_number c = 0) b -> (length b <= 5)%nat ->
  extends document_id user_id chat_id w
          (snd (handle_batch_processing env b document_id user_id chat_id w)).
Proof.
  intros Hb Hl.
  pose proof (handle_batch_processing_cases Embedding env document_id user_id
                                            chat_id b w) as H.
  cbv zeta in H. destruct b as [|c0 cs]; [rewrite H; apply extends_refl|].
  destruct H as [[-> _]|[(rs & _ & _ & ->)|(rs & rows & _ & _ & Hrows & Hlen & H)]].
  - exists [map content (c0 :: cs)], [], []. simpl.
    rewrite !app_nil_r. repeat split; auto.
  - exists [map content (c0 :: cs)], [], []. simpl.
    rewrite !app_nil_r. repeat split; auto.
  - assert (Ht : Forall (row_tagged document_id user_id chat_id) rows)
      by (rewrite Hrows; now apply rows_of_batch_tagged).
    destruct H as [[-> _]|[-> _]].
    + exists [map content (c0 :: cs)], [rows], rows. simpl.
      repeat split; auto. lia.
    + exists [map content (c0 :: cs)], [rows], []. simpl.
      rewrite app_nil_r. repeat split; auto. lia.
Qed.

Lemma handle_batch_world b (st : Frame Embedding) :
  world (snd (handle_batch env document_id user_id chat_id b st))
  = snd (handle_batch_processing env b document_id user_id chat_id (world st)).
Proof.
  unfold handle_batch.
  destruct (handle_batch_processing env b document_id user_id chat_id (world st))
    as [[[]|e|] w']; reflexivity.
Qed.

Lemma run_extends fuel (w : World Embedding) :
  extends document_id user_id chat_id w
          (snd (process_document_rag env document_id user_id chat_id storage_path
                                     fuel w)).
Proof.
  unfold process_document_rag.
  assert (H : extends document_id user_id chat_id w
                (world (snd (process_document_body env document_id user_id chat_id
                               storage_path fuel
                               {| world := w; total_chunks_processed := 0 |})))).
  { unfold process_document_body.
    destruct (storage_download env storage_path) as [e|response];
      [apply extends_refl|].
    simpl call. unfold bind at 1, ret at 1.
    destruct (falsy response); [apply extends_refl|].
    unfold bind.
    pose proof (extract_keeps (Frame Embedding)
                  (fun a b => extends document_id user_id chat_id (world a) (world b))
                  (handle_batch env document_id user_id chat_id)
                  (fun s => extends_refl (world s))
                  (fun a b c => extends_trans (world a) (world b) (world c))
                  (fun b s Hb Hl =>
                     eq_ind_r (extends document_id user_id chat_id (world s))
                              (handle_batch_processing_extends b (world s) Hb Hl)
                              (handle_batch_world b s))
                  (pdf_reader env) fuel (payload response)
                  {| chunkSize := 250; overlap := 30 |}
                  {| world := w; total_chunks_processed := 0 |}) as Hk.
    destruct (extract_and_process_pdf _ _ fuel _ _ _) as [[n|e|] st];
      exact Hk. }
  destruct (process_document_body _ _ _ _ _ fuel _) as [[r|e|] st]; exact H.
Qed.

Lemma run_only_appends_rows fuel (w : World Embedding) :
  exists rows,
    document_chunks (snd (process_document_rag env document_id user_id chat_id
                                               storage_path fuel w))
    = document_chunks w ++ rows
    /\ Forall (row_tagged document_id user_id chat_id) rows.
Proof.
  destruct (run_extends fuel w) as (reqs & ins & rows & _ & _ & Hr & Ht & _).
  eauto.
Qed.


(** X15. A run only adds: whatever the collaborators do and however the run
    ends, the requests, the inserts and the rows that were there before it
    are still there, in place, when it ends; every row it added carries the
    identifiers of the run and page 0; it issued no more inserts than
    embedding requests, and added at most 5 rows per insert. *)
Theorem run_only_appends fuel (w : World Embedding) :
  extends document_id user_id chat_id w
          (snd (process_document_rag env document_id user_id chat_id storage_path
                                     fuel w)).
Proof.
  destruct (run_extends fuel w) as (reqs & ins & rows & H).
  exists reqs, ins, rows. exact H.
Qed.
End Runs.

Lemma run_batches_raise_inv {St} (h : list PageChunk -> M St unit) bs st e st' :
  run_batches h bs st = (Raise e, st') ->
  exists b st1, In b bs /\ h b st1 = (Raise e, st').
Proof.
  revert st. induction bs as [|b bs IH]; intros st H; simpl in H.
  - discriminate.
  - unfold bind in H. destruct (h b st) as [[[]|e1|] st1] eqn:Hb.
    + destruct (IH _ H) as (b' & st2 & Hin & Hb'). exists b', st2. simpl. auto.
    + injection H as <- <-. exists b, st. simpl. auto.
    + discriminate.
Qed.

Lemma batches_nonempty {A} (buf l : list A) :
  (length buf < 5)%nat -> Forall (fun b => b <> []) (batches buf l).
Proof.
  intros H. pose proof (batches_bounds buf l H) as Hb.
  eapply Forall_impl; [|exact Hb]. intros b Hl ->. simpl in Hl. lia.
Qed.

Section RunOutcomes.
Variable Embedding : Type.
Variable env : Env Embedding.
Variables document_id user_id chat_id storage_path : str.

Lemma rows_of_batch_fields chunks (es : list Embedding) :
  (length chunks <= length es)%nat ->
  map (@row_chunk_index Embedding)
      (rows_of_batch document_id user_id chat_id chunks es)
  = map chunk_index chunks
  /\ map (@row_content Embedding)
         (rows_of_batch document_id user_id chat_id chunks es)
     = map content chunks.
Proof.
  revert es. induction chunks as [|c chunks IH]; intros [|e es] H;
    simpl in H; try lia; [auto | auto |].
  destruct (IH es ltac:(lia)) as [H1 H2]. unfold rows_of_batch in *.
  simpl. now rewrite H1, H2.
Qed.

Lemma handle_batch_ret b (st st' : Frame Embedding) :
  b <> [] ->
  handle_batch env document_id user_id chat_id b st = (Ret tt, st') ->
  exists rows,
    total_chunks_processed st' = total_chunks_processed st + len b
    /\ world st' = with_insert true rows (with_request (map content b) (world st))
    /\ map (@row_chunk_index Embedding) rows = map chunk_index b
    /\ map (@row_content Embedding) rows = map content b.
Proof.
  intros Hb. unfold handle_batch.
  pose proof (handle_batch_processing_cases Embedding env document_id user_id
                                            chat_id b (world st)) as H.
  cbv zeta in H. destruct b as [|c0 cs]; [contradiction|].
  destruct H as [[-> _]|[(rs & _ & _ & ->)|(rs & rows & _ & Hl & Hrows & _ & H)]];
    try discriminate.
  destruct H as [[-> _]|[-> _]]; [|discriminate].
  intros [= <-]. exists rows. cbn [world total_chunks_processed].
  destruct (rows_of_batch_fields (c0 :: cs) (map (@embedding Embedding) rs)
                                 ltac:(now rewrite length_map)) as [H1 H2].
  rewrite Hrows. auto.
Qed.

Lemma handle_batch_raise b (st st' : Frame Embedding) e :
  handle_batch env document_id user_id chat_id b st = (Raise e, st') ->
  batch_error e.
Proof.
  unfold handle_batch.
  pose proof (handle_batch_processing_cases Embedding env document_id user_id
                                            chat_id b (world st)) as H.
  cbv zeta in H. destruct b as [|c0 cs]; [rewrite H; discriminate|].
  destruct H as [[-> _]|[(rs & _ & _ & ->)|(rs & rows & _ & _ & _ & _ & H)]].
  - intros [= <- _]. now left.
  - intros [= <- _]. right. now left.
  - destruct H as [[-> _]|[-> _]]; [discriminate|].
    intros [= <- _]. right. now right.
Qed.

Lemma run_batches_trace bs (st st' : Frame Embedding) :
  Forall (fun b => b <> []) bs ->
  run_batches (handle_batch env document_id user_id chat_id) bs st = (Ret tt, st') ->
  total_chunks_processed st' = total_chunks_processed st + len (concat bs)
  /\ embed_requests (world st')
     = embed_requests (world st) ++ map (map content) bs
  /\ exists ins,
      insert_requests (world st') = insert_requests (world st) ++ ins
      /\ document_chunks (world st') = document_chunks (world st) ++ concat ins
      /\ map (map (@row_chunk_index Embedding)) ins = map (map chunk_index) bs
      /\ map (map (@row_content Embedding)) ins = map (map content) bs.
Proof.
  intros Hne. revert st. induction Hne as [|b bs Hb _ IH]; intros st H; simpl in H.
  - unfold ret in H. injection H as <-. simpl. rewrite app_nil_r.
    split; [unfold len; simpl; lia|]. split; [reflexivity|].
    exists []. simpl. now rewrite !app_nil_r.
  - unfold bind in H.
    destruct (handle_batch env document_id user_id chat_id b st)
      as [[[]|e|] st1] eqn:E; try discriminate.
    destruct (handle_batch_ret b st st1 Hb E) as (rows & Ht & Hw & Hi & Hc).
    destruct (IH _ H) as (Ht' & Hq' & ins & Hins & Hdoc & Hi' & Hc').
    rewrite Hw in Hq', Hins, Hdoc. simpl in Hq', Hins, Hdoc.
    split; [|split].
    + rewrite Ht', Ht. unfold len. simpl concat. rewrite length_app. lia.
    + rewrite Hq'. simpl. now rewrite <- app_assoc.
    + exists (rows :: ins). simpl.
      rewrite Hins, Hdoc, <- !app_assoc, Hi, Hc, Hi', Hc'. auto.
Qed.

(** X16. A run that succeeds has done everything: the result carries the
    page count of the PDF and [ceil(M / 220)] chunks for the [M] tokens of
    the text; one embedding request was sent per batch, with the contents
    of its chunks, in the order of the batches; one insert was issued per
    batch; and the table has gained the rows of these inserts, one row per
    chunk, with the chunk indexes 0, 1, 2, ... in this order. *)
Theorem successful_run (w : World Embedding) response pages full_text fuel r :
  storage_download env storage_path = inr response ->
  falsy response = false ->
  pdf_reader env (payload response) = inr pages ->
  extract_pages pages [] = inr full_text ->
  (length (split (clean_text full_text)) < fuel)%nat ->
  fst (process_document_rag env document_id user_id chat_id storage_path fuel w)
  = Some r ->
  success r = true ->
  let w' := snd (process_document_rag env document_id user_id chat_id storage_path
                                      fuel w) in
  page_count r = len pages
  /\ total_chunks r = ceil_div (len (split (clean_text full_text))) (250 - 30)
  /\ error r = None
  /\ embed_requests w'
     = embed_requests w ++ map (map content) (document_batches full_text)
  /\ exists ins,
      insert_requests w' = insert_requests w ++ ins
      /\ document_chunks w' = document_chunks w ++ concat ins
      /\ length ins = length (document_batches full_text)
      /\ map (@row_chunk_index Embedding) (concat ins)
         = map Z.of_nat (seq 0 (Z.to_nat (total_chunks r)))
      /\ map (@row_content Embedding) (concat ins)
         = map content (concat (document_batches full_text)).
Proof.
  intros Hd Hf Hr Hp Hfuel Hrun Hs. cbv zeta. revert Hrun.
  unfold process_document_rag.
  rewrite (process_document_body_run _ env document_id user_id chat_id storage_path
             fuel response pages full_text _ Hd Hf Hr Hp Hfuel).
  destruct (run_batches _ (document_batches full_text) _) as [[[]|e|] st'] eqn:E;
    cbn [fst snd]; intros [= <-]; [|discriminate Hs].
  assert (Hne : Forall (fun b : list PageChunk => b <> [])
                       (document_batches full_text))
    by (apply batches_nonempty; simpl; lia).
  destruct (run_batches_trace _ _ _ Hne E) as (Ht & Hq & ins & Hins & Hdoc & Hi & Hc).
  cbn [world total_chunks_processed] in Ht, Hq, Hins, Hdoc.
  set (words := split (clean_text full_text)) in *.
  assert (Hcat : concat (document_batches full_text)
                 = windows words 250 (250 - 30) (passes words (250 - 30) 0) 0 0)
    by (unfold document_batches; apply batches_concat).
  assert (Hn : Z.of_nat (passes words (250 - 30) 0) = ceil_div (len words) (250 - 30)).
  { unfold passes. rewrite Z.sub_0_r.
    destruct (Z.eq_dec (len words) 0) as [E0|E0].
    - rewrite E0. reflexivity.
    - pose proof (ceil_div_pos (len words) (250 - 30) ltac:(lia)
                               ltac:(unfold len in *; lia)). lia. }
  cbn [page_count total_chunks error].
  assert (Htot : total_chunks_processed st' = ceil_div (len words) (250 - 30)).
  { rewrite Ht, Hcat. unfold len at 1. rewrite windows_length. lia. }
  repeat split; try assumption.
  exists ins. repeat split; try assumption.
  - rewrite <- (length_map (map (@row_chunk_index Embedding))), Hi.
    apply length_map.
  - rewrite concat_map, Hi, <- concat_map, Hcat, windows_indices, Htot, <- Hn.
    rewrite Nat2Z.id. apply map_ext. intros j. lia.
  - now rewrite concat_map, Hc, <- concat_map.
Qed.

(** X17. When the download and the extraction have succeeded, a run can
    only fail with one of three messages: "Batch embedding failed", "list
    index out of range" or "Failed to store vectors".  What the provider
    or the store raised or answered is not in the result. *)
Theorem failed_run_messages (w : World Embedding) response pages full_text fuel r :
  storage_download env storage_path = inr response ->
  falsy response = false ->
  pdf_reader env (payload response) = inr pages ->
  extract_pages pages [] = inr full_text ->
  (length (split (clean_text full_text)) < fuel)%nat ->
  fst (process_document_rag env document_id user_id chat_id storage_path fuel w)
  = Some r ->
  success r = false ->
  page_count r = 0 /\ total_chunks r = 0
  /\ exists e, error r = Some (str_of_exn e) /\ batch_error e.
Proof.
  intros Hd Hf Hr Hp Hfuel Hrun Hs. revert Hrun.
  unfold process_document_rag.
  rewrite (process_document_body_run _ env document_id user_id chat_id storage_path
             fuel response pages full_text _ Hd Hf Hr Hp Hfuel).
  destruct (run_batches _ (document_batches full_text) _) as [[[]|e|] st'] eqn:E;
    cbn [fst snd]; intros [= <-]; [discriminate Hs|].
  cbn. repeat split. exists e. split; [reflexivity|].
  destruct (run_batches_raise_inv _ _ _ _ _ E) as (b & st1 & _ & Hb).
  exact (handle_batch_raise b st1 st' e Hb).
Qed.
End RunOutcomes.

(* ================================================================= *)
(** ** Deleting the vectors of a document *)

Lemma str_eqb_eq a b : str_eqb a b = true <-> a = b.
Proof.
  revert b. induction a as [|x a IH]; intros [|y b]; simpl;
    try (split; [discriminate | discriminate]); [tauto|].
  rewrite andb_true_iff, N.eqb_eq, IH. split.
  - intros [-> ->]. reflexivity.
  - intros [= -> ->]. auto.
Qed.

Lemma filter_keeps_all {A} (p : A -> bool) l :
  Forall (fun x => p x = true) l -> filter p l = l.
Proof.
  induction 1 as [|x l Hx _ IH]; [reflexivity|]. simpl. now rewrite Hx, IH.
Qed.

Lemma filter_drops_all {A} (p : A -> bool) l :
  Forall (fun x => p x = false) l -> filter p l = [].
Proof.
  induction 1 as [|x l Hx _ IH]; [reflexivity|]. simpl. now rewrite Hx, IH.
Qed.

Section Cleanup.
Variable Embedding : Type.
Variable env : Env Embedding.
Variables document_id user_id chat_id storage_path : str.
Variable table_delete : World Embedding -> str -> exn + option str.

(** X18. Deleting the vectors of a document undoes a run, finished or not:
    if the table held no row of the document before the run, then after
    [process_document_rag], however it ended, a delete that the store
    accepts leaves the table exactly as it was before the run.  A delete
    that the store rejects, by raising or by answering with an error,
    raises "Failed to delete vectors" and changes nothing. *)
Theorem delete_undoes_run fuel (w : World Embedding) :
  Forall (fun r => row_document_id r <> document_id) (document_chunks w) ->
  let w1 := snd (process_document_rag env document_id user_id chat_id storage_path
                                      fuel w) in
  (table_delete w1 document_id = inr None ->
   fst (delete_document_vectors table_delete document_id w1) = Ret tt
   /\ document_chunks (snd (delete_document_vectors table_delete document_id w1))
      = document_chunks w)
  /\ (table_delete w1 document_id <> inr None ->
      delete_document_vectors table_delete document_id w1
      = (Raise (Exception (lit "Failed to delete vectors")), w1)).
Proof.
  intros Hold w1. split.
  - intros Hdel. unfold delete_document_vectors, try_except, bind, call.
    rewrite Hdel. simpl. split; [reflexivity|].
    destruct (run_only_appends_rows Embedding env document_id user_id chat_id
                                    storage_path fuel w) as (rows & Hrows & Htag).
    fold w1 in Hrows. rewrite Hrows, filter_app.
    rewrite filter_keeps_all, filter_drops_all; [apply app_nil_r | |].
    + eapply Forall_impl; [|exact Htag]. intros r (Hr & _). simpl.
      apply negb_false_iff, str_eqb_eq, Hr.
    + eapply Forall_impl; [|exact Hold]. intros r Hr. simpl.
      apply negb_true_iff. destruct (str_eqb (row_document_id r) document_id) eqn:E;
        [apply str_eqb_eq in E; contradiction | reflexivity].
  - intros Hdel. unfold delete_document_vectors, try_except, bind, call.
    destruct (table_delete w1 document_id) as [e|[err|]]; simpl;
      [reflexivity | reflexivity | contradiction].
Qed.
End Cleanup.

(* ================================================================= *)
(** ** The status of a document and the endpoint *)

Section ServiceProperties2.
Variable Embedding : Type.
Variables ObjectId Time RawDoc Document : Type.
Variable env : Env Embedding.
Variable store : Store Embedding ObjectId Time RawDoc Document.

Lemma str_eqb_refl a : str_eqb a a = true.
Proof. now apply str_eqb_eq. Qed.

Lemma dict_get_set_same k (v : value Time) d :
  dict_get k (dict_set k v d) = Some v.
Proof.
  induction d as [|[k' v'] d IH]; simpl.
  - now rewrite str_eqb_refl.
  - destruct (str_eqb k' k) eqn:E; simpl; rewrite E; auto.
Qed.

Lemma dict_get_set_other k k' (v : value Time) d :
  k' <> k -> dict_get k' (dict_set k v d) = dict_get k' d.
Proof.
  intros Hk. induction d as [|[k0 v0] d IH]; simpl.
  - destruct (str_eqb k k') eqn:E; [|reflexivity].
    apply str_eqb_eq in E. congruence.
  - destruct (str_eqb k0 k) eqn:E; simpl.
    + destruct (str_eqb k0 k') eqn:E'; [|reflexivity].
      apply str_eqb_eq in E, E'. congruence.
    + now rewrite IH.
Qed.

Lemma find_by_id_and_update_ret document_id update_data
      (s : Service Embedding ObjectId Time) :
  exists d,
    find_by_id_and_update store document_id update_data s
    = (Ret d, after_update store document_id update_data s).
Proof.
  unfold find_by_id_and_update, after_update, try_except, bind, call,
    log_status_update, raise, ret.
  destruct (make_object_id store document_id) as [e|oid]; [eauto|].
  destruct (find_one_and_update store s oid _) as [e|[raw|]]; eauto.
  destruct (parse_document store raw) as [e|doc]; eauto.
Qed.

(** X19. [find_by_id_and_update] never raises and never touches the
    pipeline's world.  With a string that is not an object id nothing is
    sent to the collection and the result is [None].  Otherwise exactly one
    update is sent, whose ["updatedAt"] is the current time (an
    ["updatedAt"] given by the caller is overwritten) and whose other keys
    are those of the caller, unchanged. *)
Theorem find_by_id_and_update_contract document_id update_data
        (s : Service Embedding ObjectId Time) :
  let out := fst (find_by_id_and_update store document_id update_data s) in
  let s' := snd (find_by_id_and_update store document_id update_data s) in
  (exists d, out = Ret d)
  /\ rag s' = rag s
  /\ match make_object_id store document_id with
     | inl _ => out = Ret None /\ s' = s
     | inr oid =>
         exists update,
           status_updates s' = status_updates s ++ [(oid, update)]
           /\ dict_get (lit "updatedAt") update = Some (VTime (utcnow store s))
           /\ forall k, k <> lit "updatedAt" ->
                        dict_get k update = dict_get k update_data
     end.
Proof.
  cbv zeta.
  destruct (find_by_id_and_update_ret document_id update_data s) as [d E].
  rewrite E. cbn [fst snd]. split; [eauto|].
  unfold after_update.
  destruct (make_object_id store document_id) as [e|oid] eqn:Ho.
  - split; [reflexivity|]. split; [|reflexivity].
    revert E. unfold find_by_id_and_update, try_except, bind, call, raise, ret.
    rewrite Ho. now intros [= <- _].
  - split; [reflexivity|]. eexists. split; [reflexivity|].
    split; [apply dict_get_set_same|].
    intros k Hk. now apply dict_get_set_other.
Qed.

Lemma after_update_rag document_id update_data (s : Service Embedding ObjectId Time) :
  rag (after_update store document_id update_data s) = rag s.
Proof.
  unfold after_update. destruct (make_object_id store document_id); reflexivity.
Qed.

Lemma bind_known {St A B} (m : M St A) (k : A -> M St B) s a s1 :
  m s = (Ret a, s1) -> bind m k s = k a s1.
Proof. intros H. unfold bind. now rewrite H. Qed.

Lemma try_except_ret {St A} (m : M St A) (h : exn -> M St A) s a s1 :
  m s = (Ret a, s1) -> try_except m h s = (Ret a, s1).
Proof. intros H. unfold try_except. now rewrite H. Qed.

Lemma try_except_raise {St A} (m : M St A) (h : exn -> M St A) s e s1 :
  m s = (Raise e, s1) -> try_except m h s = h e s1.
Proof. intros H. unfold try_except. now rewrite H. Qed.

(** The run of the endpoint when the pipeline returns [r]. *)
Lemma process_document_run request fuel (s : Service Embedding ObjectId Time) r w' :
  process_document_rag env (documentId request) (userId request) (chatId request)
                       (storagePath request) fuel (rag s) = (Some r, w') ->
  let s1 := after_update store (documentId request)
                         [(lit "status", VStr (lit "processing"))] s in
  let s2 := {| rag := w'; status_updates := status_updates s1 |} in
  process_document env (Some store) request fuel s
  = if success r
    then (Ret {| resp_success := true; pageCount := page_count r;
                 totalChunks := total_chunks r; resp_error := None |},
          after_update store (documentId request)
                       [(lit "status", VStr (lit "processed"));
                        (lit "pageCount", VInt (page_count r))] s2)
    else (Ret {| resp_success := false; pageCount := 0; totalChunks := 0;
                 resp_error := Some (error_or_default (error r)) |},
          after_update store (documentId request)
                       [(lit "status", VStr (lit "failed"))] s2).
Proof.
  intros Hrun. cbv zeta.
  set (s1 := after_update store (documentId request)
                          [(lit "status", VStr (lit "processing"))] s).
  set (s2 := {| rag := w'; status_updates := status_updates s1 |}).
  destruct (find_by_id_and_update_ret (documentId request)
              [(lit "status", VStr (lit "processing"))] s) as [d1 E1].
  fold s1 in E1.
  assert (E2 : run_pipeline env request fuel s1 = (Ret r, s2)).
  { unfold run_pipeline. unfold s1 at 1. rewrite after_update_rag, Hrun.
    reflexivity. }
  unfold process_document, model_update.
  destruct (success r) eqn:Hs.
  - destruct (find_by_id_and_update_ret (documentId request)
                [(lit "status", VStr (lit "processed"));
                 (lit "pageCount", VInt (page_count r))] s2) as [d3 E3].
    apply try_except_ret.
    rewrite (bind_known _ _ _ _ _ E1), (bind_known _ _ _ _ _ E2), Hs.
    cbn [negb]. now rewrite (bind_known _ _ _ _ _ E3).
  - destruct (find_by_id_and_update_ret (documentId request)
                [(lit "status", VStr (lit "failed"))] s2) as [d3 E3].
    rewrite (try_except_raise _ _ s (Exception (error_or_default (error r))) s2).
    + now rewrite (bind_known _ _ _ _ _ E3).
    + rewrite (bind_known _ _ _ _ _ E1), (bind_known _ _ _ _ _ E2), Hs.
      reflexivity.
Qed.

(** X20. Once the service has started, the endpoint never raises: when the
    pipeline returns, it answers with the success flag of the pipeline;
    with the page count and the chunk count of the pipeline on success;
    with zero pages, zero chunks and the error of the pipeline on failure
    ("RAG processing failed" when that error is empty).  Its answer and what
    it does to the vector store do not depend on the status collection. *)
Theorem process_document_response request fuel (s : Service Embedding ObjectId Time) r :
  fst (process_document_rag env (documentId request) (userId request)
                            (chatId request) (storagePath request) fuel (rag s))
  = Some r ->
  fst (process_document env (Some store) request fuel s)
  = Ret {| resp_success := success r;
           pageCount := if success r then page_count r else 0;
           totalChunks := if success r then total_chunks r else 0;
           resp_error := if success r then None
                         else Some (error_or_default (error r)) |}
  /\ rag (snd (process_document env (Some store) request fuel s))
     = snd (process_document_rag env (documentId request) (userId request)
                                 (chatId request) (storagePath request) fuel (rag s)).
Proof.
  intros Hr.
  destruct (process_document_rag env _ _ _ _ fuel (rag s)) as [o w'] eqn:E.
  cbn [fst snd] in *. subst o.
  rewrite (process_document_run request fuel s r w' E).
  destruct (success r); cbn [fst snd]; now rewrite after_update_rag.
Qed.

(** X21. The status trail of a document.  With an id that is an object id
    the endpoint sends exactly two updates for it: "processing" before the
    pipeline, then "processed" with the page count when the pipeline
    succeeded, or "failed" when it did not; each carries the time of the
    update.  With an id that is not an object id it sends none, and the
    document is processed all the same. *)
Theorem process_document_status_trail request fuel
        (s : Service Embedding ObjectId Time) r :
  fst (process_document_rag env (documentId request) (userId request)
                            (chatId request) (storagePath request) fuel (rag s))
  = Some r ->
  let s' := snd (process_document env (Some store) request fuel s) in
  match make_object_id store (documentId request) with
  | inl _ => status_updates s' = status_updates s
  | inr oid =>
      exists t1 t2,
        status_updates s'
        = status_updates s
          ++ [(oid, [(lit "status", VStr (lit "processing"));
                     (lit "updatedAt", VTime t1)]);
              (oid, if success r
                    then [(lit "status", VStr (lit "processed"));
                          (lit "pageCount", VInt (page_count r));
                          (lit "updatedAt", VTime t2)]
                    else [(lit "status", VStr (lit "failed"));
                          (lit "updatedAt", VTime t2)])]
  end.
Proof.
  intros Hr. cbv zeta.
  destruct (process_document_rag env _ _ _ _ fuel (rag s)) as [o w'] eqn:E.
  cbn [fst] in Hr. subst o.
  rewrite (process_document_run request fuel s r w' E).
  unfold after_update.
  destruct (make_object_id store (documentId request)) as [e|oid].
  - destruct (success r); reflexivity.
  - destruct (success r); cbn [snd status_updates]; do 2 eexists;
      rewrite <- app_assoc; reflexivity.
Qed.

(** X22. Before the service has started ([document_model] is [None]) the
    endpoint raises: the first status update fails on the missing model,
    the handler of the [except] fails on it again, and nothing is
    downloaded, embedded or stored. *)
Theorem process_document_unstarted request fuel (s : Service Embedding ObjectId Time) :
  process_document (Document := Document) (RawDoc := RawDoc) env None request fuel s
  = (Raise (Exception
              (lit "'NoneType' object has no attribute 'find_by_id_and_update'")),
     s).
Proof. reflexivity. Qed.
End ServiceProperties2.

(* ================================================================= *)
(** ** The name of the database *)

Lemma split_on_go_chars sep cur s seg c :
  In seg (split_on_go sep cur s) -> In c seg -> In c cur \/ In c s.
Proof.
  revert cur. induction s as [|d s IH]; intros cur Hseg Hc; simpl in Hseg.
  - destruct Hseg as [<-|[]]. now left.
  - destruct (d =? sep)%N.
    + destruct Hseg as [<-|Hseg]; [now left|].
      destruct (IH [] Hseg Hc) as [[]|H]. right. now right.
    + destruct (IH _ Hseg Hc) as [H|H]; [|right; now right].
      apply in_app_or in H as [H|[<-|[]]]; [now left | right; now left].
Qed.

Lemma split_on_go_clean sep cur s seg :
  ~ In sep cur -> In seg (split_on_go sep cur s) -> ~ In sep seg.
Proof.
  revert cur. induction s as [|d s IH]; intros cur Hcur Hseg; simpl in Hseg.
  - now destruct Hseg as [<-|[]].
  - destruct (N.eqb_spec d sep) as [->|Hd].
    + destruct Hseg as [<-|Hseg]; [assumption|]. apply (IH []); auto.
    + apply (IH (cur ++ [d])); [|assumption].
      intros H. apply in_app_or in H as [H|[H|[]]]; auto.
Qed.

Lemma split_on_go_nonempty sep cur s : split_on_go sep cur s <> [].
Proof.
  revert cur. induction s as [|d s IH]; intros cur; simpl; [discriminate|].
  destruct (d =? sep)%N; [discriminate | apply IH].
Qed.

Lemma last_in {A} (l : list A) d : l <> [] -> In (last l d) l.
Proof.
  induction l as [|x l IH]; [contradiction|]. intros _.
  destruct l as [|y l]; [now left|]. right. apply IH. discriminate.
Qed.

Lemma hd_in {A} (l : list A) d : l <> [] -> In (hd d l) l.
Proof. destruct l; [contradiction | now left]. Qed.

(** X23. The name of the database is never empty and holds neither a slash
    nor a question mark, whatever the URI. *)
Theorem db_name_shape (MONGO_URI : str) :
  db_name MONGO_URI <> []
  /\ ~ In SLASH (db_name MONGO_URI)
  /\ ~ In QUESTION (db_name MONGO_URI).
Proof.
  unfold db_name.
  set (seg := last (split_on SLASH MONGO_URI) []).
  set (name := hd [] (split_on QUESTION seg)).
  assert (Hseg : ~ In SLASH seg).
  { apply (split_on_go_clean SLASH [] MONGO_URI); [auto|].
    apply last_in, split_on_go_nonempty. }
  assert (Hin : In name (split_on QUESTION seg))
    by apply hd_in, split_on_go_nonempty.
  assert (Hq : ~ In QUESTION name)
    by (apply (split_on_go_clean QUESTION [] seg); auto).
  assert (Hs : ~ In SLASH name).
  { intros H. destruct (split_on_go_chars _ _ _ _ _ Hin H) as [[]|H']. auto. }
  destruct name as [|c name].
  - split; [discriminate|]. split; vm_compute; intuition discriminate.
  - split; [discriminate | auto].
Qed.

Lemma split_on_go_plain sep cur s :
  ~ In sep s -> split_on_go sep cur s = [cur ++ s].
Proof.
  revert cur. induction s as [|d s IH]; intros cur H; simpl.
  - now rewrite app_nil_r.
  - destruct (N.eqb_spec d sep) as [->|Hd]; [elim H; now left|].
    rewrite IH by (intros Hin; apply H; now right).
    now rewrite <- app_assoc.
Qed.

Lemma last_split_on sep cur base rest :
  ~ In sep rest -> last (split_on_go sep cur (base ++ sep :: rest)) [] = rest.
Proof.
  intros H. revert cur. induction base as [|d base IH]; intros cur; simpl.
  - rewrite N.eqb_refl, split_on_go_plain by assumption. reflexivity.
  - destruct (d =? sep)%N.
    + specialize (IH []).
      destruct (split_on_go sep [] (base ++ sep :: rest)) eqn:E;
        [now apply split_on_go_nonempty in E | exact IH].
    + apply IH.
Qed.

Lemma hd_split_on sep cur a b :
  ~ In sep a -> hd [] (split_on_go sep cur (a ++ sep :: b)) = cur ++ a.
Proof.
  revert cur. induction a as [|d a IH]; intros cur H; simpl.
  - rewrite N.eqb_refl. simpl. now rewrite app_nil_r.
  - destruct (N.eqb_spec d sep) as [->|Hd]; [elim H; now left|].
    rewrite IH by (intros Hin; apply H; now right).
    now rewrite <- app_assoc.
Qed.

(** X24. The name of the database is what stands between the last slash of
    the URI and the first question mark after it: for a URI that ends in
    [/name] or in [/name?options], where the options hold no slash, it is
    [name]; when [name] is empty it is "rag_database". *)
Theorem db_name_of_uri (base name options : str) :
  ~ In SLASH name -> ~ In QUESTION name -> ~ In SLASH options ->
  let expected := match name with [] => lit "rag_database" | _ => name end in
  db_name (base ++ SLASH :: name) = expected
  /\ db_name (base ++ SLASH :: name ++ QUESTION :: options) = expected.
Proof.
  intros Hs Hq Ho. cbv zeta. unfold db_name, split_on. split.
  - rewrite last_split_on by assumption.
    rewrite split_on_go_plain by assumption. simpl. now destruct name.
  - rewrite last_split_on.
    + rewrite hd_split_on by assumption. simpl. now destruct name.
    + intros H. apply in_app_or in H as [H|[H|H]]; auto. discriminate.
Qed.

Section MongoProperties.
Variable Client : Type.
Variable Database : Type.
Variable mongo_client : str -> exn + Client.
Variable ping : Client -> exn + unit.
Variable get_database : Client -> str -> exn + Database.
Variable client_close : Client -> exn + unit.

(** X25. Before any successful [connect], [get_db] raises.  [connect]
    returns exactly when the URI is not empty, the client is built, the
    ping is answered and the client gives the database named after the
    URI; in every other case it ends the process with status 1 and no
    database is set.  When it has returned a database, [get_db] returns
    this database, also after [close], which closes the client and does not
    forget the database, whether closing raises or not. *)
Theorem connect_get_db (MONGO_URI : str) (st : MongoDB Client Database) :
  _db st = None ->
  get_db st
  = inl (Exception (lit "Database not connected. Call connect() first."))
  /\ match connect mongo_client ping get_database MONGO_URI st with
     | (Exit code, st') =>
         code = 1 /\ _db st' = None
         /\ ~ (MONGO_URI <> []
               /\ exists client db,
                   mongo_client MONGO_URI = inr client
                   /\ ping client = inr tt
                   /\ get_database client (db_name MONGO_URI) = inr db)
     | (Done db, st') =>
         MONGO_URI <> []
         /\ (exists client,
                mongo_client MONGO_URI = inr client
                /\ ping client = inr tt
                /\ get_database client (db_name MONGO_URI) = inr db
                /\ closed (snd (close client_close st')) = closed st ++ [client])
         /\ get_db st' = inr db
         /\ get_db (snd (close client_close st')) = inr db
     end.
Proof.
  intros Hdb. split; [unfold get_db; now rewrite Hdb|].
  unfold connect. destruct MONGO_URI as [|c uri].
  { repeat split; [assumption|]. intros [H _]. now apply H. }
  destruct (mongo_client (c :: uri)) as [e|client] eqn:Hc.
  { repeat split; [assumption|]. intros (_ & client & db & [=] & _). }
  destruct (ping client) as [e|[]] eqn:Hp.
  { repeat split; [assumption|].
    intros (_ & client' & db & [= <-] & Hp' & _). congruence. }
  destruct (get_database client (db_name (c :: uri))) as [e|db] eqn:Hg.
  { repeat split; [assumption|].
    intros (_ & client' & db & [= <-] & _ & Hg'). congruence. }
  split; [discriminate|]. split; [|split; reflexivity].
  exists client. repeat split; assumption || reflexivity.
Qed.
End MongoProperties.

(* ================================================================= *)
(** ** Further examples: totals, answers without items, refused names *)

(** Every number of chunks occurs: a page of [n] words, cut with a window
    of one word and no overlap, makes the loop build [n] chunks. *)
Lemma every_total_occurs (n : nat) :
  extract_pages [{| extract_text := inr (text_of_words n) |}] []
  = inr (text_of_words n ++ [LF])
  /\ passes (split (clean_text (text_of_words n ++ [LF]))) (1 - 0) 0 = n.
Proof.
  split; [reflexivity|].
  rewrite split_clean. unfold split.
  rewrite (split_go_trailing [] (text_of_words n) [LF] eq_refl).
  fold (split (text_of_words n)). unfold text_of_words.
  rewrite split_join.
  - unfold passes, ceil_div, len. rewrite repeat_length.
    replace (Z.of_nat n - 0 + (1 - 0) - 1) with (Z.of_nat n) by lia.
    rewrite Z.div_1_r. lia.
  - apply Forall_forall. intros w Hw. apply repeat_spec in Hw. subst w.
    split; [discriminate | reflexivity].
Qed.

(** The answer [{"data": {}}] to a batch of one text: the comprehension runs
    over no key, and the embedder returns the empty list. *)
Lemma empty_dict_answer :
  generate_batch_embeddings env_empty_dict [lit "hello"]
    {| embed_requests := []; insert_requests := []; document_chunks := [] |}
  = (Ret [],
     {| embed_requests := [[lit "hello"]]; insert_requests := [];
        document_chunks := [] |}).
Proof. reflexivity. Qed.

(** The same answer to the single embedder: [data['data'][0]] raises, and
    the embedder fails. *)
Lemma empty_dict_answer_single :
  generate_embedding answer_empty_dict (lit "hello")
    {| embed_requests := []; insert_requests := []; document_chunks := [] |}
  = (Raise (Exception (lit "Embedding generation failed")),
     {| embed_requests := [[lit "hello"]]; insert_requests := [];
        document_chunks := [] |}).
Proof. reflexivity. Qed.

(** A URI without a database path: the name is the host and the port, the
    client refuses it, and [connect] ends the process, no database being
    set. *)
Lemma connect_refused_name :
  connect demo_client demo_ping demo_database
          (lit "mongodb://db.example.com:27017") demo_mongo
  = (Exit 1, {| _client := Some 7%nat; _db := None; closed := [] |}).
Proof. reflexivity. Qed.

(* ================================================================= *)
(** ** Instances of the further properties *)

Lemma failing_page_stops_extraction_witness :
  extract_and_process_pdf reader_bad_page record_batch 5 pdf_bytes
                          {| chunkSize := 250; overlap := 30 |} []
  = (Raise (Exception (lit "bad page")), []).
Proof.
  exact (failing_page_stops_extraction
           reader_bad_page record_batch 5 pdf_bytes
           {| chunkSize := 250; overlap := 30 |}
           [lit "a b"] (Exception (lit "bad page")) [] [] eq_refl).
Defined.

Lemma chunk_is_window_witness :
  let c := {| page_number := 0; chunk_index := 4; content := lit "e f" |} in
  tokens c = [lit "e"; lit "f"] /\ len (tokens c) = 2.
Proof.
  cbv zeta.
  destruct (chunk_is_window
              (one_page_reader (lit "a b c d e f")) 10 pdf_bytes 4 3
              [{| extract_text := inr (lit "a b c d e f") |}]
              (lit "a b c d e f" ++ [LF]) 4
              {| page_number := 0; chunk_index := 4; content := lit "e f" |}
              eq_refl eq_refl ltac:(lia)
              ltac:(apply Nat.ltb_lt; vm_compute; reflexivity)
              eq_refl)
    as (_ & _ & Ht & _ & Hl & _).
  split; [rewrite Ht | rewrite Hl]; vm_compute; reflexivity.
Defined.

Lemma chunks_cover_text_witness :
  concat (map (fun c => first_tokens (4 - 3) (tokens c))
              (delivered_chunks (one_page_reader (lit "a b c d e f")) 10
                                pdf_bytes 4 3))
  = [lit "a"; lit "b"; lit "c"; lit "d"; lit "e"; lit "f"].
Proof.
  rewrite (chunks_cover_text
             (one_page_reader (lit "a b c d e f")) 10 pdf_bytes 4 3
             [{| extract_text := inr (lit "a b c d e f") |}]
             (lit "a b c d e f" ++ [LF])
             eq_refl eq_refl ltac:(lia)
             ltac:(apply Nat.ltb_lt; vm_compute; reflexivity)).
  vm_compute. reflexivity.
Defined.

Lemma extract_never_returns_witness :
  fst (extract_and_process_pdf (one_page_reader (lit "a b")) record_batch 100
                               pdf_bytes {| chunkSize := 3; overlap := 3 |} [])
  = Diverge
  /\ length (snd (extract_and_process_pdf (one_page_reader (lit "a b")) record_batch
                                          100 pdf_bytes
                                          {| chunkSize := 3; overlap := 3 |} []))
     = 20%nat.
Proof.
  destruct (extract_never_returns
              (one_page_reader (lit "a b")) pdf_bytes 3 3
              [{| extract_text := inr (lit "a b") |}] (lit "a b" ++ [LF])
              eq_refl eq_refl ltac:(lia) ltac:(vm_compute; discriminate))
    as [_ H].
  exact (H 100%nat).
Defined.

Lemma generate_embedding_agrees_witness :
  generate_embedding (requests_post env_two_words) (lit "hello") empty_world
  = (Ret {| embedding := [1; 2; 3] |}, with_request [lit "hello"] empty_world).
Proof.
  exact (generate_embedding_agrees
           vec env_two_words (requests_post env_two_words)
           (lit "hello") empty_world
           (with_request [lit "hello"] empty_world)
           {| embedding := [1; 2; 3] |} [] eq_refl eq_refl).
Defined.

Lemma successful_run_witness :
  embed_requests
    (snd (process_document_rag env_two_words doc_id usr_id cht_id pdf_path 5
                               empty_world))
  = [[lit "hello world"]].
Proof.
  destruct (successful_run
              vec env_two_words doc_id usr_id cht_id pdf_path empty_world
              (Some pdf_bytes) [{| extract_text := inr (lit "hello world") |}]
              (lit "hello world" ++ [LF]) 5
              {| success := true; page_count := 1; total_chunks := 1;
                 error := None |}
              eq_refl eq_refl eq_refl eq_refl
              ltac:(apply Nat.ltb_lt; vm_compute; reflexivity)
              ltac:(vm_compute; reflexivity) eq_refl)
    as (_ & _ & _ & Hq & _).
  rewrite Hq. vm_compute. reflexivity.
Defined.

Lemma failed_run_messages_witness :
  exists e,
    Some (lit "Batch embedding failed") = Some (str_of_exn e) /\ batch_error e.
Proof.
  destruct (failed_run_messages
              vec env_unreachable doc_id usr_id cht_id pdf_path empty_world
              (Some pdf_bytes) [{| extract_text := inr (lit "hello world") |}]
              (lit "hello world" ++ [LF]) 5
              (failed (Exception (lit "Batch embedding failed")))
              eq_refl eq_refl eq_refl eq_refl
              ltac:(apply Nat.ltb_lt; vm_compute; reflexivity)
              ltac:(vm_compute; reflexivity) eq_refl)
    as (_ & _ & e & He & Hb).
  exists e. split; [exact He | exact Hb].
Defined.

Lemma delete_undoes_run_witness :
  document_chunks
    (snd (delete_document_vectors delete_ok doc_id
            (snd (process_document_rag env_two_words doc_id usr_id cht_id pdf_path
                                       5 empty_world))))
  = [].
Proof.
  destruct (delete_undoes_run
              vec env_two_words doc_id usr_id cht_id pdf_path delete_ok 5
              empty_world (Forall_nil _)) as [H _].
  exact (proj2 (H eq_refl)).
Defined.

Lemma process_document_response_witness :
  fst (process_document env_two_words (Some demo_store) demo_request 5 demo_service)
  = Ret {| resp_success := true; pageCount := 1; totalChunks := 1;
           resp_error := None |}.
Proof.
  exact (proj1 (process_document_response
                  vec str nat unit unit env_two_words demo_store demo_request 5
                  demo_service
                  {| success := true; page_count := 1; total_chunks := 1;
                     error := None |}
                  ltac:(vm_compute; reflexivity))).
Defined.

Lemma process_document_status_trail_witness :
  exists t1 t2,
    status_updates
      (snd (process_document env_two_words (Some demo_store) demo_request 5
                             demo_service))
    = [(lit "0123456789abcdef01234567",
        [(lit "status", VStr (lit "processing")); (lit "updatedAt", VTime t1)]);
       (lit "0123456789abcdef01234567",
        [(lit "status", VStr (lit "processed")); (lit "pageCount", VInt 1);
         (lit "updatedAt", VTime t2)])].
Proof.
  exact (process_document_status_trail
           vec str nat unit unit env_two_words demo_store demo_request 5
           demo_service
           {| success := true; page_count := 1; total_chunks := 1; error := None |}
           ltac:(vm_compute; reflexivity)).
Defined.

Lemma db_name_of_uri_witness :
  db_name (lit "mongodb://host:27017/mydb?retryWrites=true") = lit "mydb".
Proof.
  exact (proj2 (db_name_of_uri
                  (lit "mongodb://host:27017") (lit "mydb") (lit "retryWrites=true")
                  ltac:(vm_compute; intuition discriminate)
                  ltac:(vm_compute; intuition discriminate)
                  ltac:(vm_compute; intuition discriminate))).
Defined.

Lemma connect_get_db_witness :
  get_db demo_mongo
  = inl (Exception (lit "Database not connected. Call connect() first."))
  /\ get_db (snd (close demo_close
                        (snd (connect demo_client demo_ping demo_database
                                      (lit "mongodb://host/mydb") demo_mongo))))
     = inr (7%nat, lit "mydb").
Proof.
  destruct (connect_get_db nat (nat * str) demo_client demo_ping demo_database
                           demo_close (lit "mongodb://host/mydb") demo_mongo
                           eq_refl)
    as [H1 H2].
  split; [exact H1|].
  cbv in H2. destruct H2 as (_ & _ & _ & H).
  cbv. exact H.
Defined.
